(** * Pin-to-slot assignment of the I/O placer (ppl::HungarianMatching)

    A shallow embedding of [src/ppl/src/HungarianMatching.cpp]: the two
    matrix builders ([createMatrix], [createMatrixForGroups]), the two
    materializers ([getFinalAssignment], [getAssignmentForGroups]) and the
    slot lookup [getSlotIdxByPosition], followed by the properties the
    specification states about them.

    Conventions.
    - A C++ [int] is a [Z].  The one place where the program adds values it
      does not control (the group cost) wraps to 32 bits ([int_add]); slot
      indices and counters stay far below the 32-bit range and are computed
      exactly.
    - A [std::vector] is a [list]; every subscript is checked, and a
      subscript outside the vector ends the run with [Undefined].
    - The slot vector and the netlist's pin table are shared with the caller
      and mutated in place: they live in a [World] that is threaded through
      the materializers, together with the caller's output vector and the
      logger's events. *)

From Stdlib Require Import ZArith Lia.
From stdpp Require Import base tactics option list sorting gmap strings.

Local Open Scope Z_scope.

(** ** Machine integers *)

Definition INT_MAX : Z := 2147483647.
Definition INT_MIN : Z := -2147483648.

(** Two's-complement reduction of a mathematical integer to an [int]. *)
Definition wrap_int (z : Z) : Z := (z + 2 ^ 31) mod 2 ^ 32 - 2 ^ 31.

(** [group_hpwl += pin_hpwl] on [int]. *)
Definition int_add (a b : Z) : Z := wrap_int (a + b).

(** Implicit conversion of an [int] to [size_t] (64 bits), as in
    [size_t rows = non_blocked_slots_] and [v.resize(n)]. *)
Definition size_t_of_int (z : Z) : nat := Z.to_nat (z mod 2 ^ 64).

(** Modelled from the spec: the constant [hungarian_fail] is declared in
    HungarianMatching.h, which is not part of the sources at hand; the spec
    calls it the sentinel INFEASIBLE, "maximum representable integer", and
    [createMatrix] fills fresh cells with [std::numeric_limits<int>::max()]. *)
Definition hungarian_fail : Z := INT_MAX.

(** ** Data model *)

Record Point := mkPoint { getX : Z; getY : Z }.

Global Instance Point_eq_dec : EqDecision Point.
Proof. solve_decision. Defined.

Record Slot := mkSlot {
  blocked : bool;
  used : bool;
  pos : Point;
  layer : Z
}.

Module Edge.
Inductive t := top | bottom | left | right | invalid.
End Edge.

(** Opaque handle of a block terminal ([odb::dbBTerm*]). *)
Definition BTerm := nat.

(** Modelled from the spec: class [IOPin] is declared in Netlist.h, which is
    not part of the sources at hand; the fields are the accessors the
    materializers call. *)
Record IOPin := mkIOPin {
  getName : string;
  getPos : Point;
  getLayer : Z;
  isPlaced : bool;
  isInGroup : bool;
  getBTerm : BTerm
}.

Definition setPos (p : IOPin) (q : Point) : IOPin :=
  mkIOPin (getName p) q (getLayer p) (isPlaced p) (isInGroup p) (getBTerm p).
Definition setLayer (p : IOPin) (l : Z) : IOPin :=
  mkIOPin (getName p) (getPos p) l (isPlaced p) (isInGroup p) (getBTerm p).
Definition setPlaced (p : IOPin) : IOPin :=
  mkIOPin (getName p) (getPos p) (getLayer p) true (isInGroup p) (getBTerm p).

Definition setUsed (s : Slot) : Slot := mkSlot (blocked s) true (pos s) (layer s).
Definition setBlocked (s : Slot) : Slot := mkSlot true (used s) (pos s) (layer s).

(** A pin group: its member pins and its [order] flag. *)
Definition PinGroup : Type := list Z * bool.

(** [struct Section]: the fields the constructor of [HungarianMatching]
    reads. *)
Record SectionRec := mkSection {
  pin_indices : list Z;
  pin_groups : list PinGroup;
  begin_slot : Z;
  end_slot : Z;
  num_slots : Z;
  edge : Edge.t
}.

Record HungarianMatching := mkHM {
  hungarian_matrix_ : list (list Z);
  assignment_ : list Z;
  pin_indices_ : list Z;
  pin_groups_ : list PinGroup;
  num_io_pins_ : Z;
  num_pin_groups_ : Z;
  begin_slot_ : Z;
  end_slot_ : Z;
  num_slots_ : Z;
  non_blocked_slots_ : Z;
  group_slots_ : Z;
  group_size_ : Z;
  edge_ : Edge.t
}.

(** The constructor; [numIOGroups] is [netlist_->numIOGroups()]. *)
Definition newHungarianMatching (section : SectionRec) (numIOGroups : Z)
  : HungarianMatching :=
  {| hungarian_matrix_ := [];
     assignment_ := [];
     pin_indices_ := pin_indices section;
     pin_groups_ := pin_groups section;
     num_io_pins_ := Z.of_nat (length (pin_indices section));
     num_pin_groups_ := numIOGroups;
     begin_slot_ := begin_slot section;
     end_slot_ := end_slot section;
     num_slots_ := end_slot section - begin_slot section;
     non_blocked_slots_ := num_slots section;
     group_slots_ := 0;
     group_size_ := -1;
     edge_ := edge section |}.

(** Events of [utl::Logger]. *)
Inductive LogEvent :=
| Warn33 (pin_name : string)
| Error82 (x y layer : Z).

(** The storage the matcher shares with its caller. *)
Record World := mkWorld {
  slots_ : list Slot;
  io_pins_ : list IOPin;
  assignment : list IOPin;
  logger_ : list LogEvent
}.

(** ** Outcomes *)

Inductive Fault :=
| SlotOutOfRange
| PinOutOfRange
| RowOutOfRange
| CellOutOfRange
| Diverges.

(** [Done]: normal return.  [Raise w]: [logger_->error] threw; [w] is the
    shared storage at that moment.  [Undefined f]: the run left the defined
    behaviour of the language. *)
Inductive Outcome (A : Type) : Type :=
| Done (a : A)
| Raise (w : World)
| Undefined (f : Fault).
Arguments Done {A} a.
Arguments Raise {A} w.
Arguments Undefined {A} f.

Global Instance Outcome_ret : MRet Outcome := λ A a, Done a.
Global Instance Outcome_bind : MBind Outcome := λ A B k m,
  match m with
  | Done a => k a
  | Raise w => Raise w
  | Undefined f => Undefined f
  end.

Definition orFault {A} (f : Fault) (o : option A) : Outcome A :=
  match o with Some a => Done a | None => Undefined f end.

(** [v[i]] for an [int] subscript. *)
Definition at_ {A} (v : list A) (i : Z) : option A :=
  if decide (0 ≤ i) then v !! Z.to_nat i else None.

(** [v[i] = x], used after [v[i]] has been read. *)
Definition upd {A} (v : list A) (i : Z) (x : A) : list A := <[Z.to_nat i := x]> v.

Definition getSlot (w : World) (i : Z) : Outcome Slot :=
  orFault SlotOutOfRange (at_ (slots_ w) i).
Definition getIoPin (w : World) (idx : Z) : Outcome IOPin :=
  orFault PinOutOfRange (at_ (io_pins_ w) idx).

Definition setSlot (w : World) (i : Z) (s : Slot) : World :=
  mkWorld (upd (slots_ w) i s) (io_pins_ w) (assignment w) (logger_ w).
Definition setIoPin (w : World) (idx : Z) (p : IOPin) : World :=
  mkWorld (slots_ w) (upd (io_pins_ w) idx p) (assignment w) (logger_ w).
Definition push_back (w : World) (p : IOPin) : World :=
  mkWorld (slots_ w) (io_pins_ w) (assignment w ++ [p]) (logger_ w).
Definition logEvent (w : World) (e : LogEvent) : World :=
  mkWorld (slots_ w) (io_pins_ w) (assignment w) (logger_ w ++ [e]).

(** ** The program *)

Section Program.

(** The collaborators that live outside this file: the cost oracle
    [Netlist::computeIONetHPWL], the mirror transform
    [Core::getMirroredPosition] and the handle-to-index table
    [Netlist::getIoPinIdx]. *)
Variable computeIONetHPWL : Z → Point → Z.
Variable getMirroredPosition : Point → Point.
Variable getIoPinIdx : BTerm → Z.

(** *** createMatrix *)

(** [for (int idx : pin_indices_)] inside [createMatrix]: fills the row of
    one slot, one cell per pin that is not in a group. *)
Fixpoint fillRow (w : World) (newPos : Point) (idxs : list Z)
    (pinIndex : nat) (row : list Z) : Outcome (list Z) :=
  match idxs with
  | [] => Done row
  | idx :: rest =>
      io_pin ← getIoPin w idx;
      if isInGroup io_pin then fillRow w newPos rest pinIndex row
      else
        let hpwl := computeIONetHPWL idx newPos in
        _ ← orFault CellOutOfRange (row !! pinIndex);
        fillRow w newPos rest (S pinIndex) (<[pinIndex := hpwl]> row)
  end.

(** [for (int i = begin_slot_; i <= end_slot_; ++i)]; [n] counts the
    iterations that remain. *)
Fixpoint createMatrixLoop (hm : HungarianMatching) (w : World) (n : nat)
    (i : Z) (slot_index : nat) (m : list (list Z)) : Outcome (list (list Z)) :=
  match n with
  | O => Done m
  | S n' =>
      s ← getSlot w i;
      let newPos := pos s in
      if blocked s then createMatrixLoop hm w n' (i + 1) slot_index m
      else
        old ← orFault RowOutOfRange (m !! slot_index);
        row ← fillRow w newPos (pin_indices_ hm) 0
                (resize (size_t_of_int (num_io_pins_ hm)) INT_MAX old);
        createMatrixLoop hm w n' (i + 1) (S slot_index) (<[slot_index := row]> m)
  end.

Definition createMatrix (hm : HungarianMatching) (w : World)
  : Outcome HungarianMatching :=
  let m0 := resize (size_t_of_int (non_blocked_slots_ hm)) [] (hungarian_matrix_ hm) in
  m ← createMatrixLoop hm w (Z.to_nat (end_slot_ hm - begin_slot_ hm + 1))
        (begin_slot_ hm) 0 m0;
  Done (mkHM m (assignment_ hm) (pin_indices_ hm) (pin_groups_ hm)
          (num_io_pins_ hm) (num_pin_groups_ hm) (begin_slot_ hm) (end_slot_ hm)
          (num_slots_ hm) (non_blocked_slots_ hm) (group_slots_ hm)
          (group_size_ hm) (edge_ hm)).

(** *** getSlotIdxByPosition *)

Fixpoint findSlot (l : list Slot) (i : Z) (position : Point) (lay : Z) : Z :=
  match l with
  | [] => -1
  | s :: l' =>
      if bool_decide (pos s = position) && (layer s =? lay) then i
      else findSlot l' (i + 1) position lay
  end.

Definition getSlotIdxByPosition (w : World) (position : Point) (lay : Z) : Z :=
  findSlot (slots_ w) 0 position lay.

(** *** getFinalAssignment *)

(** [while (slots_[slot_index].blocked && slot_index < slots_.size())
      slot_index += stride;]
    The subscript is evaluated before the range test, so the test can only
    succeed.  [fuel] bounds the iterations; with a positive stride the
    length of the slot vector is enough. *)
Fixpoint skipBlocked (fuel : nat) (stride : Z) (w : World) (slot_index : Z)
  : Outcome Z :=
  s ← getSlot w slot_index;
  if blocked s then
    match fuel with
    | O => Undefined Diverges
    | S fuel' => skipBlocked fuel' stride w (slot_index + stride)
    end
  else Done slot_index.

(** Lines 137-167: the placement of pin [idx] on slot [slot_index], and of
    its mirror partner when [partner] is given. *)
Definition placePin (partner : option BTerm) (idx slot_index : Z) (w : World)
  : Outcome World :=
  io_pin ← getIoPin w idx;
  s ← getSlot w slot_index;
  let io_pin := setPlaced (setLayer (setPos io_pin (pos s)) (layer s)) in
  let w := setIoPin w idx io_pin in
  let w := push_back w io_pin in
  let w := setSlot w slot_index (setUsed s) in
  match partner with
  | None => Done w
  | Some mirrored_term =>
      let mirrored_pin_idx := getIoPinIdx mirrored_term in
      mirrored_pin ← getIoPin w mirrored_pin_idx;
      io_pin ← getIoPin w idx;
      let mirrored_pos := getMirroredPosition (getPos io_pin) in
      s ← getSlot w slot_index;
      let mirrored_pin :=
        setPlaced (setLayer (setPos mirrored_pin mirrored_pos) (layer s)) in
      let w := setIoPin w mirrored_pin_idx mirrored_pin in
      let w := push_back w mirrored_pin in
      let slot_index := getSlotIdxByPosition w mirrored_pos (getLayer mirrored_pin) in
      if slot_index <? 0 then
        Raise (logEvent w (Error82 (getX mirrored_pos) (getY mirrored_pos)
                             (getLayer mirrored_pin)))
      else
        s ← getSlot w slot_index;
        Done (setSlot w slot_index (setUsed s))
  end.

(** The guard of lines 132-134:
    [(assign_mirrored && mirrored_pins.find(bterm) == mirrored_pins.end())
     || io_pin.isPlaced()]. *)
Definition skipPin (assign_mirrored : bool) (mirrored_pins : gmap BTerm BTerm)
    (io_pin : IOPin) : bool :=
  (assign_mirrored && bool_decide (mirrored_pins !! getBTerm io_pin = None))
  || isPlaced io_pin.

(** [for (size_t row = 0; row < rows; row++)] of [getFinalAssignment] for
    the pin [idx] of column [col]; [n] counts the rows that remain. *)
Fixpoint rowLoop (hm : HungarianMatching) (assign_mirrored : bool)
    (mirrored_pins : gmap BTerm BTerm) (idx : Z) (col : nat)
    (n : nat) (row : nat) (slot_index : Z) (w : World) : Outcome World :=
  match n with
  | O => Done w
  | S n' =>
      slot_index ← skipBlocked (length (slots_ w)) 1 w slot_index;
      a ← orFault RowOutOfRange (assignment_ hm !! row);
      if negb (a =? Z.of_nat col) then
        rowLoop hm assign_mirrored mirrored_pins idx col n' (S row) (slot_index + 1) w
      else
        cells ← orFault RowOutOfRange (hungarian_matrix_ hm !! row);
        cost ← orFault CellOutOfRange (cells !! col);
        io_pin ← getIoPin w idx;
        let w := if cost =? hungarian_fail
                 then logEvent w (Warn33 (getName io_pin)) else w in
        if skipPin assign_mirrored mirrored_pins io_pin then
          rowLoop hm assign_mirrored mirrored_pins idx col n' (S row) slot_index w
        else
          placePin (if assign_mirrored then mirrored_pins !! getBTerm io_pin else None)
            idx slot_index w
  end.

(** [for (int idx : pin_indices_)] of [getFinalAssignment]; the state of the
    loop is the column counter [col] and the shared storage. *)
Fixpoint pinLoop (hm : HungarianMatching) (assign_mirrored : bool)
    (mirrored_pins : gmap BTerm BTerm) (idxs : list Z) (st : nat * World)
  : Outcome (nat * World) :=
  match idxs with
  | [] => Done st
  | idx :: rest =>
      io_pin ← getIoPin st.2 idx;
      if isInGroup io_pin then pinLoop hm assign_mirrored mirrored_pins rest st
      else
        w ← rowLoop hm assign_mirrored mirrored_pins idx st.1
              (size_t_of_int (non_blocked_slots_ hm)) 0 (begin_slot_ hm) st.2;
        pinLoop hm assign_mirrored mirrored_pins rest (S st.1, w)
  end.

Definition getFinalAssignment (hm : HungarianMatching) (w : World)
    (mirrored_pins : gmap BTerm BTerm) (assign_mirrored : bool) : Outcome World :=
  st ← pinLoop hm assign_mirrored mirrored_pins (pin_indices_ hm) (0%nat, w);
  Done st.2.

(** *** createMatrixForGroups *)

Definition withGroupSize (hm : HungarianMatching) (gs : Z) : HungarianMatching :=
  mkHM (hungarian_matrix_ hm) (assignment_ hm) (pin_indices_ hm) (pin_groups_ hm)
    (num_io_pins_ hm) (num_pin_groups_ hm) (begin_slot_ hm) (end_slot_ hm)
    (num_slots_ hm) (non_blocked_slots_ hm) (group_slots_ hm) gs (edge_ hm).

Definition withGroupMatrix (hm : HungarianMatching) (group_slots : Z)
    (m : list (list Z)) : HungarianMatching :=
  mkHM m (assignment_ hm) (pin_indices_ hm) (pin_groups_ hm)
    (num_io_pins_ hm) (num_pin_groups_ hm) (begin_slot_ hm) (end_slot_ hm)
    (num_slots_ hm) (non_blocked_slots_ hm) group_slots (group_size_ hm) (edge_ hm).

(** [for (const auto& [pins, order] : pin_groups_)
      group_size_ = std::max(static_cast<int>(pins.size()), group_size_);] *)
Definition maxGroupSize (groups : list PinGroup) (group_size : Z) : Z :=
  fold_left (λ acc g, Z.max (Z.of_nat (length g.1)) acc) groups group_size.

(** [for (int pin_cnt = 0; pin_cnt < group_size_; pin_cnt++)
      if (slots_[i + pin_cnt].blocked) blocked = true;]
    Every slot of the block is read. *)
Fixpoint blockIsBlocked (w : World) (n : nat) (i : Z) (blocked_ : bool)
  : Outcome bool :=
  match n with
  | O => Done blocked_
  | S n' =>
      s ← getSlot w i;
      blockIsBlocked w n' (i + 1) (if blocked s then true else blocked_)
  end.

(** The first loop over candidate blocks: counts [group_slots_]. *)
Fixpoint countBlocks (hm : HungarianMatching) (w : World) (fuel : nat) (i : Z)
    (group_slots : Z) : Outcome Z :=
  match fuel with
  | O => Undefined Diverges
  | S fuel' =>
      if i <=? end_slot_ hm - group_size_ hm + 1 then
        b ← blockIsBlocked w (Z.to_nat (group_size_ hm)) i false;
        countBlocks hm w fuel' (i + group_size_ hm)
          (if (b : bool) then group_slots else group_slots + 1)
      else Done group_slots
  end.

(** [for (const int io_idx : pins)]: the cost of one group at one anchor. *)
Fixpoint groupHpwl (newPos : Point) (pins : list Z) (group_hpwl : Z) : Z :=
  match pins with
  | [] => group_hpwl
  | io_idx :: rest =>
      let pin_hpwl := computeIONetHPWL io_idx newPos in
      if pin_hpwl =? hungarian_fail then hungarian_fail
      else groupHpwl newPos rest (int_add group_hpwl pin_hpwl)
  end.

(** [for (const auto& [pins, order] : pin_groups_)] inside the second loop:
    one cell per group. *)
Fixpoint fillGroupRow (newPos : Point) (groups : list PinGroup)
    (groupIndex : nat) (row : list Z) : Outcome (list Z) :=
  match groups with
  | [] => Done row
  | g :: rest =>
      let group_hpwl := groupHpwl newPos g.1 0 in
      _ ← orFault CellOutOfRange (row !! groupIndex);
      fillGroupRow newPos rest (S groupIndex) (<[groupIndex := group_hpwl]> row)
  end.

(** The second loop over candidate blocks: one matrix row per block that
    holds no blocked slot. *)
Fixpoint fillBlocks (hm : HungarianMatching) (w : World) (fuel : nat) (i : Z)
    (slot_index : nat) (m : list (list Z)) : Outcome (list (list Z)) :=
  match fuel with
  | O => Undefined Diverges
  | S fuel' =>
      if i <=? end_slot_ hm - group_size_ hm + 1 then
        s ← getSlot w i;
        let newPos := pos s in
        b ← blockIsBlocked w (Z.to_nat (group_size_ hm)) i false;
        if (b : bool) then fillBlocks hm w fuel' (i + group_size_ hm) slot_index m
        else
          old ← orFault RowOutOfRange (m !! slot_index);
          row ← fillGroupRow newPos (pin_groups_ hm) 0
                  (resize (size_t_of_int (num_pin_groups_ hm)) INT_MAX old);
          fillBlocks hm w fuel' (i + group_size_ hm) (S slot_index)
            (<[slot_index := row]> m)
      else Done m
  end.

(** With a positive block size the loops over candidate blocks make at most
    [end_slot_ - begin_slot_ + 1] iterations and one more test. *)
Definition blockFuel (hm : HungarianMatching) : nat :=
  S (Z.to_nat (end_slot_ hm - begin_slot_ hm + 1)).

Definition createMatrixForGroups (hm : HungarianMatching) (w : World)
  : Outcome HungarianMatching :=
  let hm := withGroupSize hm (maxGroupSize (pin_groups_ hm) (group_size_ hm)) in
  if 0 <? group_size_ hm then
    group_slots ← countBlocks hm w (blockFuel hm) (begin_slot_ hm) (group_slots_ hm);
    let m0 := resize (size_t_of_int group_slots) [] (hungarian_matrix_ hm) in
    m ← fillBlocks hm w (blockFuel hm) (begin_slot_ hm) 0 m0;
    Done (withGroupMatrix hm group_slots m)
  else Done hm.

(** *** getAssignmentForGroups *)

(** [(edge_ == Edge::top || edge_ == Edge::left) && order] *)
Definition reversed (e : Edge.t) (order : bool) : bool :=
  match e with
  | Edge.top | Edge.left => order
  | _ => false
  end.

(** [for (int pin_idx : pins)] of [getAssignmentForGroups]: the members of
    one group on the block that starts at [slot_index].  The state is the
    counter [non_blocked_slots_] and the shared storage. *)
Fixpoint placeGroup (hm : HungarianMatching) (rev : bool) (pins : list Z)
    (slot_index pin_cnt : Z) (st : Z * World) : Outcome (Z * World) :=
  match pins with
  | [] => Done st
  | pin_idx :: rest =>
      let non_blocked_slots := st.1 in
      let w := st.2 in
      io_pin ← getIoPin w pin_idx;
      s ← getSlot w (slot_index + pin_cnt);
      let io_pin := setLayer (setPos io_pin (pos s)) (layer s) in
      let w := setIoPin w pin_idx io_pin in
      let w := push_back w io_pin in
      let w := setSlot w (slot_index + pin_cnt) (setBlocked (setUsed s)) in
      let non_blocked_slots :=
        if slot_index + pin_cnt <=? end_slot_ hm
        then non_blocked_slots - 1 else non_blocked_slots in
      placeGroup hm rev rest slot_index
        (if rev then pin_cnt - 1 else pin_cnt + 1) (non_blocked_slots, w)
  end.

(** [for (size_t row = 0; row < rows; row++)] of [getAssignmentForGroups]
    for the group of column [col]. *)
Fixpoint groupRowLoop (hm : HungarianMatching) (g : PinGroup) (col : nat)
    (n : nat) (row : nat) (slot_index : Z) (st : Z * World) : Outcome (Z * World) :=
  match n with
  | O => Done st
  | S n' =>
      slot_index ← skipBlocked (length (slots_ st.2)) (group_size_ hm) st.2 slot_index;
      a ← orFault RowOutOfRange (assignment_ hm !! row);
      if negb (a =? Z.of_nat col) then
        groupRowLoop hm g col n' (S row) (slot_index + group_size_ hm) st
      else
        let rev := reversed (edge_ hm) g.2 in
        let pin_cnt := if rev then Z.of_nat (length g.1) - 1 else 0 in
        placeGroup hm rev g.1 slot_index pin_cnt st
  end.

(** [for (const auto& [pins, order] : pin_groups_)] of
    [getAssignmentForGroups]; the state of the loop is the column counter,
    the counter [non_blocked_slots_] and the shared storage. *)
Fixpoint groupLoop (hm : HungarianMatching) (groups : list PinGroup)
    (col : nat) (st : Z * World) : Outcome (nat * (Z * World)) :=
  match groups with
  | [] => Done (col, st)
  | g :: rest =>
      st ← groupRowLoop hm g col (size_t_of_int (group_slots_ hm)) 0
             (begin_slot_ hm) st;
      groupLoop hm rest (S col) st
  end.

Definition getAssignmentForGroups (hm : HungarianMatching) (w : World)
  : Outcome (HungarianMatching * World) :=
  if bool_decide (hungarian_matrix_ hm = []) then Done (hm, w)
  else
    r ← groupLoop hm (pin_groups_ hm) 0 (non_blocked_slots_ hm, w);
    Done (mkHM [] [] (pin_indices_ hm) (pin_groups_ hm)
            (num_io_pins_ hm) (num_pin_groups_ hm) (begin_slot_ hm) (end_slot_ hm)
            (num_slots_ hm) r.2.1 (group_slots_ hm) (group_size_ hm) (edge_ hm),
          r.2.2).

End Program.

(** * Vocabulary of the specification *)

(** ** Candidate blocks of the grouped matrix *)

(** Start indices [begin, begin + gs, begin + 2 gs, ...] of the blocks of
    [gs] slots that lie inside [begin .. end]. *)
Definition candidateStarts (begin end_ gs : Z) : list Z :=
  (λ k : nat, begin + Z.of_nat k * gs) <$> seq 0 (Z.to_nat ((end_ - begin + 1) / gs)).

(** Slot [i] exists and is not blocked. *)
Definition isFree (slots : list Slot) (i : Z) : bool :=
  match at_ slots i with
  | Some s => negb (blocked s)
  | None => false
  end.

(** No slot of the block of [n] slots that starts at [i] is blocked. *)
Definition blockFree (slots : list Slot) (n : nat) (i : Z) : bool :=
  forallb (λ k : nat, isFree slots (i + Z.of_nat k)) (seq 0 n).

(** The unblocked slots among [begin .. end_], in ascending order. *)
Definition unblockedIn (slots : list Slot) (begin end_ : Z) : list Z :=
  filter (λ i, Is_true (isFree slots i)) (seqZ begin (end_ - begin + 1)).

(** The unblocked slots from [begin] to the end of the slot vector. *)
Definition unblockedFrom (slots : list Slot) (begin : Z) : list Z :=
  unblockedIn slots begin (Z.of_nat (length slots) - 1).

(** The pins of [idxs] that are not in a group, in input order. *)
Definition ungroupedOf (pins : list IOPin) (idxs : list Z) : list Z :=
  filter (λ idx, Is_true (match at_ pins idx with
                          | Some p => negb (isInGroup p)
                          | None => false
                          end)) idxs.

(** Position of slot [i] (the anchor of a block). *)
Definition slotPos (slots : list Slot) (i : Z) : Point :=
  match at_ slots i with
  | Some s => pos s
  | None => mkPoint 0 0
  end.


(** The row of the grouped matrix for the block anchored at [newPos]: one
    cell per group of the section, in input order, then the cells that
    [resize] filled with the sentinel. *)
Definition groupRow (computeIONetHPWL : Z → Point → Z) (newPos : Point)
    (groups : list PinGroup) (width : nat) : list Z :=
  ((λ g : PinGroup, groupHpwl computeIONetHPWL newPos g.1 0) <$> groups)
  ++ replicate (width - length groups) INT_MAX.

(** Sum of a list of integers. *)
Definition sumZ (l : list Z) : Z := foldr Z.add 0 l.

(** ** The ungrouped matrix *)

(** The cells of the pins that are not in a group, for a slot at [newPos]. *)
Definition ungroupedRow (computeIONetHPWL : Z → Point → Z) (newPos : Point)
    (pins : list IOPin) (idxs : list Z) : list Z :=
  (λ idx, computeIONetHPWL idx newPos) <$> ungroupedOf pins idxs.

(** The matrix as the specification words it: one row per unblocked slot of
    the section, one column per pin that is not in a group. *)
Definition ungroupedMatrix (computeIONetHPWL : Z → Point → Z) (w : World)
    (begin end_ : Z) (idxs : list Z) : list (list Z) :=
  (λ i, ungroupedRow computeIONetHPWL (slotPos (slots_ w) i) (io_pins_ w) idxs)
    <$> unblockedIn (slots_ w) begin end_.

(** The matrix with rows as wide as the pin list: the columns after the
    pins that are not in a group hold the sentinel. *)
Definition paddedMatrix (computeIONetHPWL : Z → Point → Z) (w : World)
    (begin end_ : Z) (idxs : list Z) : list (list Z) :=
  (λ i, ungroupedRow computeIONetHPWL (slotPos (slots_ w) i) (io_pins_ w) idxs
        ++ replicate (length idxs - length (ungroupedOf (io_pins_ w) idxs)) INT_MAX)
    <$> unblockedIn (slots_ w) begin end_.

(** ** Effects of a placement *)

(** The pin after [setPos], [setLayer] and [setPlaced] from slot [s]. *)
Definition placedPin (p : IOPin) (s : Slot) : IOPin :=
  setPlaced (setLayer (setPos p (pos s)) (layer s)).

(** The shared storage after pin [idx] (value [p]) took slot [i] (value [s]). *)
Definition afterPlace (w : World) (idx i : Z) (p : IOPin) (s : Slot) : World :=
  setSlot (push_back (setIoPin w idx (placedPin p s)) (placedPin p s)) i (setUsed s).

(** The mirror partner (value [pb]) after it was sent to [mirrored_pos] on the
    layer of slot [s]. *)
Definition mirroredPin (pb : IOPin) (mirrored_pos : Point) (s : Slot) : IOPin :=
  setPlaced (setLayer (setPos pb mirrored_pos) (layer s)).

(** The shared storage after the partner [b] was written back and pushed. *)
Definition afterMirror (w1 : World) (b : Z) (pb' : IOPin) : World :=
  push_back (setIoPin w1 b pb') pb'.

(** Two states of the shared storage that differ at most in the log. *)
Definition sameCore (w w' : World) : Prop :=
  slots_ w' = slots_ w ∧ io_pins_ w' = io_pins_ w ∧ assignment w' = assignment w.

(** ** Rows, columns and slots of a solved section *)

(** The first row that the solver assigned to column [col]. *)
Definition matchedRow (assignment_ : list Z) (col : nat) : option nat :=
  fst <$> list_find (λ a, a = Z.of_nat col) assignment_.

(** The slot of column [col]: the unblocked slot, counted from
    [begin_slot_], whose rank is the row assigned to the column. *)
Definition matchedSlot (hm : HungarianMatching) (slots : list Slot) (col : nat)
  : option Z :=
  r ← matchedRow (assignment_ hm) col;
  unblockedFrom slots (begin_slot_ hm) !! r.

(** The storage after the warning of line 123, when the cell is the
    sentinel. *)
Definition warned (w : World) (p : IOPin) (cost : Z) : World :=
  if cost =? hungarian_fail then logEvent w (Warn33 (getName p)) else w.

(** ** What the ungrouped materializer preserves *)

(** A pin keeps its handle and its group flag, and stays placed once it is. *)
Definition pinKept (p p' : IOPin) : Prop :=
  getBTerm p' = getBTerm p ∧ isInGroup p' = isInGroup p ∧
  (isPlaced p = true → isPlaced p' = true).

(** [w'] comes after [w]: the same slots up to their [used] flags and
    geometry kept, the same pins up to [pinKept]. *)
Definition evolves (w w' : World) : Prop :=
  blocked <$> slots_ w' = blocked <$> slots_ w ∧
  length (io_pins_ w') = length (io_pins_ w) ∧
  ∀ idx p, at_ (io_pins_ w) idx = Some p →
    ∃ p', at_ (io_pins_ w') idx = Some p' ∧ pinKept p p'.

(** [size_t rows = non_blocked_slots_]. *)
Definition rowsOf (hm : HungarianMatching) : nat :=
  size_t_of_int (non_blocked_slots_ hm).

(** Nothing is left to do for the pin [idx] of column [col] among the rows
    [row .. row + n - 1]: the guard skips the pin, or none of these rows is
    assigned to the column. *)
Definition settled (hm : HungarianMatching) (am : bool) (mp : gmap BTerm BTerm)
    (idx : Z) (col row n : nat) (w : World) : Prop :=
  (∃ p, at_ (io_pins_ w) idx = Some p ∧ skipPin am mp p = true) ∨
  (∀ r, (row ≤ r < row + n)%nat → assignment_ hm !! r ≠ Some (Z.of_nat col)).

(** Every pin of the list is settled, the columns being counted from [col]. *)
Fixpoint allSettled (hm : HungarianMatching) (am : bool) (mp : gmap BTerm BTerm)
    (idxs : list Z) (col : nat) (w : World) : Prop :=
  match idxs with
  | [] => True
  | idx :: rest =>
      ∃ p, at_ (io_pins_ w) idx = Some p ∧
        if isInGroup p then allSettled hm am mp rest col w
        else settled hm am mp idx col 0 (rowsOf hm) w
             ∧ allSettled hm am mp rest (S col) w
  end.

(** The slot vector holds an unblocked slot for every row, from
    [begin_slot_] on. *)
Definition scanReady (hm : HungarianMatching) (slots : list Slot) : Prop :=
  0 ≤ begin_slot_ hm ∧
  (rowsOf hm ≤ length (unblockedFrom slots (begin_slot_ hm)))%nat.

(** The solver's answer fits the matrix: one entry per row, and every entry
    that names a column addresses a cell of its row. *)
Definition solved (hm : HungarianMatching) : Prop :=
  (rowsOf hm ≤ length (assignment_ hm))%nat ∧
  ∀ r c, (r < rowsOf hm)%nat → assignment_ hm !! r = Some (Z.of_nat c) →
    ∃ cells cost, hungarian_matrix_ hm !! r = Some cells ∧ cells !! c = Some cost.

(** The matcher after [hungarian_solver_.solve(hungarian_matrix_, assignment_)]
    has stored the answer [a]. *)
Definition solvedAs (hm : HungarianMatching) (a : list Z) : HungarianMatching :=
  mkHM (hungarian_matrix_ hm) a (pin_indices_ hm) (pin_groups_ hm)
    (num_io_pins_ hm) (num_pin_groups_ hm) (begin_slot_ hm) (end_slot_ hm)
    (num_slots_ hm) (non_blocked_slots_ hm) (group_slots_ hm) (group_size_ hm)
    (edge_ hm).

(** ** The grouped materializer *)

(** The unblocked slots among [si, si + gs, si + 2 gs, ...] inside the slot
    vector: the positions at which the scan of [getAssignmentForGroups] can
    stop. *)
Definition freeStartsFrom (slots : list Slot) (gs si : Z) : list Z :=
  filter (λ i, Is_true (isFree slots i))
    (candidateStarts si (Z.of_nat (length slots) + gs - 2) gs).

(** Offset of member [k] of a group of [g] pins inside its block. *)
Definition memberOffset (rev : bool) (g k : nat) : Z :=
  if rev then Z.of_nat g - 1 - Z.of_nat k else Z.of_nat k.

(** [pin_cnt] after [k] members, counted from [c]. *)
Definition cntAfter (rev : bool) (c : Z) (k : nat) : Z :=
  if rev then c - Z.of_nat k else c + Z.of_nat k.

(** A member of a group after [setPos] and [setLayer] from slot [s]. *)
Definition groupPin (p : IOPin) (s : Slot) : IOPin :=
  setLayer (setPos p (pos s)) (layer s).

(** ** Used slots of a section *)

(** Slot [i] exists and carries the [used] flag. *)
Definition isUsed (slots : list Slot) (i : Z) : bool :=
  match at_ slots i with
  | Some s => used s
  | None => false
  end.

(** The slots of [begin .. end_] that are used in [slots'] and were not in
    [slots]. *)
Definition newlyUsed (slots slots' : list Slot) (begin end_ : Z) : list Z :=
  filter (λ i, Is_true (isUsed slots' i && negb (isUsed slots i)))
    (seqZ begin (end_ - begin + 1)).

(** ** What a materializer can change *)

(** The slots and the pins of [w'] are those of [w] up to [Rs] and [Rp],
    position by position; the output vector and the log have only grown. *)
Definition within (Rs : relation Slot) (Rp : relation IOPin) (w w' : World) : Prop :=
  Forall2 Rs (slots_ w) (slots_ w') ∧ Forall2 Rp (io_pins_ w) (io_pins_ w') ∧
  assignment w `prefix_of` assignment w' ∧ logger_ w `prefix_of` logger_ w'.

(** A slot that is as it was, or has had its [used] flag set. *)
Definition usedSet (s s' : Slot) : Prop := s' = s ∨ s' = setUsed s.

(** A pin that is as it was, or is now placed, with its name, handle and
    group flag as before. *)
Definition pinPlaced (p p' : IOPin) : Prop :=
  p' = p ∨
  (getName p' = getName p ∧ getBTerm p' = getBTerm p ∧ isInGroup p' = isInGroup p ∧
   isPlaced p' = true).

(** A slot that is as it was, or has had both its flags set. *)
Definition blockTaken (s s' : Slot) : Prop := s' = s ∨ s' = setBlocked (setUsed s).

(** A pin of which at most the position and the layer have changed. *)
Definition pinMoved (p p' : IOPin) : Prop :=
  getName p' = getName p ∧ getBTerm p' = getBTerm p ∧ isInGroup p' = isInGroup p ∧
  isPlaced p' = isPlaced p.

(** * The entry points that call the solver *)

Section Solver.

(** [HungarianAlgorithm::solve] lives outside these sources: [solve m] stands
    for the assignment vector the call
    [hungarian_solver_.solve(hungarian_matrix_, assignment_)] leaves in
    [assignment_] for the matrix [m]. *)
Variable computeIONetHPWL : Z → Point → Z.
Variable solve : list (list Z) → list Z.

(** Lines 67-72. *)
Definition findAssignment (hm : HungarianMatching) (w : World)
  : Outcome HungarianMatching :=
  hm ← createMatrix computeIONetHPWL hm w;
  if bool_decide (hungarian_matrix_ hm = []) then Done hm
  else Done (solvedAs hm (solve (hungarian_matrix_ hm))).

(** Lines 175-181. *)
Definition findAssignmentForGroups (hm : HungarianMatching) (w : World)
  : Outcome HungarianMatching :=
  hm ← createMatrixForGroups computeIONetHPWL hm w;
  if bool_decide (hungarian_matrix_ hm = []) then Done hm
  else Done (solvedAs hm (solve (hungarian_matrix_ hm))).

End Solver.

(** ** The rest of a run *)


(** * Concrete sections *)

Module Ex.

(** An unblocked, unused slot at [(x, 0)] on layer 1. *)
Definition slotAt (x : Z) : Slot := mkSlot false false (mkPoint x 0) 1.
(** A pin that is not yet placed. *)
Definition pin (n : string) (in_group : bool) (b : BTerm) : IOPin :=
  mkIOPin n (mkPoint (-1) (-1)) 0 false in_group b.
(** Handles are the indices of the pins. *)
Definition idxOf (b : BTerm) : Z := Z.of_nat b.
(** Reflection about the axis [x = 5]. *)
Definition mirror (p : Point) : Point := mkPoint (10 - getX p) (getY p).

(** ** One slot, one pin outside any group and one pin of a group *)

Definition mixedWorld : World :=
  mkWorld [slotAt 0] [pin "a" false 0%nat; pin "b" true 1%nat] [] [].
Definition mixedSection : SectionRec := mkSection [0; 1] [] 0 0 1 Edge.bottom.
Definition flatCost (idx : Z) (p : Point) : Z := 7.

(** ** Two groups of two pins on six slots; the section is slots 0..3 *)

Definition busWorld : World :=
  mkWorld (slotAt <$> [0; 10; 20; 30; 40; 50])
    [pin "a" true 0%nat; pin "b" true 1%nat; pin "c" true 2%nat; pin "d" true 3%nat] [] [].
Definition busSection : SectionRec :=
  mkSection [0; 1; 2; 3] [([0; 1], false); ([2; 3], false)] 0 3 4 Edge.bottom.
(** Pins 0 and 1 are drawn to [x = 0], pins 2 and 3 to [x = 20]. *)
Definition busCost (idx : Z) (p : Point) : Z := Z.abs (getX p - 20 * (idx / 2)).
(** The matcher of [busSection] after [createMatrixForGroups] under
    [busCost]. *)
Definition busMatrix : HungarianMatching :=
  mkHM [[0; 40]; [40; 0]] [] [0; 1; 2; 3] [([0; 1], false); ([2; 3], false)]
    4 2 0 3 3 4 2 2 Edge.bottom.
(** The same matcher with the optimal assignment: row 0 to group 0, row 1 to
    group 1. *)
Definition busSolved : HungarianMatching :=
  mkHM [[0; 40]; [40; 0]] [0; 1] [0; 1; 2; 3] [([0; 1], false); ([2; 3], false)]
    4 2 0 3 3 4 2 2 Edge.bottom.
(** [busWorld] after group 0 took slots 0 and 1. *)
Definition busAfter0 (slots : list Slot) : World :=
  mkWorld (mkSlot true true (mkPoint 0 0) 1 :: mkSlot true true (mkPoint 10 0) 1
           :: drop 2 slots)
    [mkIOPin "a" (mkPoint 0 0) 1 false true 0%nat;
     mkIOPin "b" (mkPoint 10 0) 1 false true 1%nat;
     pin "c" true 2%nat; pin "d" true 3%nat]
    [mkIOPin "a" (mkPoint 0 0) 1 false true 0%nat;
     mkIOPin "b" (mkPoint 10 0) 1 false true 1%nat] [].
(** The same section on a slot vector of five slots. *)
Definition shortBusWorld : World :=
  mkWorld (slotAt <$> [0; 10; 20; 30; 40])
    [pin "a" true 0%nat; pin "b" true 1%nat; pin "c" true 2%nat; pin "d" true 3%nat] [] [].
(** Every pin costs [2^30] everywhere. *)
Definition hugeCost (idx : Z) (p : Point) : Z := 1073741824.

(** ** Two slots that mirror each other, a pin and its partner *)

Definition pairWorld : World :=
  mkWorld [slotAt 0; slotAt 10] [pin "a" false 0%nat; pin "b" false 1%nat] [] [].
Definition pairMatcher (cell : Z) : HungarianMatching :=
  mkHM [[cell]] [0] [0] [] 1 0 0 0 0 1 0 (-1) Edge.bottom.
Definition pairMirrors : gmap BTerm BTerm := {[ 0%nat := 1%nat ]}.
(** [pairWorld] after pin 0 took slot 0 in non-mirror mode. *)
Definition pairAfter : World :=
  mkWorld [mkSlot false true (mkPoint 0 0) 1; slotAt 10]
    [mkIOPin "a" (mkPoint 0 0) 1 true false 0%nat; pin "b" false 1%nat]
    [mkIOPin "a" (mkPoint 0 0) 1 true false 0%nat] [].
(** One blocked slot. *)
Definition blockedWorld : World :=
  mkWorld [mkSlot true false (mkPoint 0 0) 1] [pin "a" false 0%nat] [] [].

(** ** Three slots and two pins: the scenario of the specification *)

Definition trioWorld : World :=
  mkWorld [slotAt 0; slotAt 10; slotAt 20] [pin "a" false 0%nat; pin "b" false 1%nat] [] [].
Definition trioMatcher : HungarianMatching :=
  mkHM [[5; INT_MAX]; [1; 9]; [INT_MAX; 2]] [-1; 0; 1] [0; 1] [] 2 0 0 2 2 3 0 (-1)
    Edge.bottom.

(** ** Two slots, a mirrored pair and a third pin

    The section lists pins 0 and 2; pin 1 is the mirror partner of pin 0. *)

Definition crowdWorld : World :=
  mkWorld [slotAt 0; slotAt 10]
    [pin "a" false 0%nat; pin "b" false 1%nat; pin "c" false 2%nat] [] [].
Definition crowdMatcher : HungarianMatching :=
  mkHM [[1; 9]; [9; 1]] [0; 1] [0; 2] [] 2 0 0 1 1 2 0 (-1) Edge.bottom.

(** ** A pin that an earlier mirror placement already put elsewhere *)


(** ** Sections for the entry points *)

(** The section of [mixedWorld] with a counter that is one too small. *)
Definition starvedSection : SectionRec := mkSection [0; 1] [] 0 0 0 Edge.bottom.
(** The section of [trioWorld], and a solver that leaves row 0 unmatched. *)
Definition trioSection : SectionRec := mkSection [0; 1] [] 0 2 3 Edge.bottom.
Definition trioSolve (m : list (list Z)) : list Z := [-1; 0; 1].
(** Slots 0..3 of [busWorld] with the single group of pins 0 and 1, and a
    solver that matches it to the second block. *)
Definition soloSection : SectionRec :=
  mkSection [0; 1] [([0; 1], false)] 0 3 4 Edge.bottom.
Definition soloSolve (m : list (list Z)) : list Z := [-1; 0].
(** The two slots of [pairWorld] with one group of two pins. *)
Definition duoSection : SectionRec :=
  mkSection [0; 1] [([0; 1], false)] 0 1 2 Edge.bottom.
(** The section of [blockedWorld]. *)
Definition blockedSection : SectionRec := mkSection [0] [] 0 0 0 Edge.bottom.

(** ** Four slots in two mirrored pairs, two pins and their partners

    The section lists pins 0 and 2; the solver gives pin 0 the slot at
    [x = 0] and pin 2 the slot at [x = 3], at the cost [cell]. *)



(** ** A partner that is already committed

    The slots at [x = 3] and [x = 7] mirror each other, the reflection of
    the slot at [x = 0] is missing, and pin 1 was committed to the slot at
    [x = 5], on layer 2, before the pass.  The section lists pins 2, 1 and
    0; the solver gives pin 2 the slot at [x = 3], pin 1 the slot at
    [x = 5] and pin 0 the slot at [x = 0]. *)


End Ex.
(** * Properties *)

(** ** Subscripts and outcomes *)

Lemma at_Some {A} (v : list A) (i : Z) (x : A) :
  at_ v i = Some x ↔ 0 ≤ i ∧ v !! Z.to_nat i = Some x.
Proof. unfold at_. case_decide; naive_solver. Qed.

Lemma at_lt {A} (v : list A) (i : Z) (x : A) :
  at_ v i = Some x → 0 ≤ i < Z.of_nat (length v).
Proof.
  intros [Hi Hx]%at_Some. apply lookup_lt_Some in Hx. lia.
Qed.

Lemma at_is_Some {A} (v : list A) (i : Z) :
  0 ≤ i < Z.of_nat (length v) → is_Some (at_ v i).
Proof.
  intros Hi. unfold at_. rewrite decide_True by lia.
  apply lookup_lt_is_Some. lia.
Qed.

Lemma at_None {A} (v : list A) (i : Z) :
  at_ v i = None ↔ i < 0 ∨ Z.of_nat (length v) ≤ i.
Proof.
  unfold at_. case_decide.
  - rewrite lookup_ge_None. lia.
  - split; [lia | done].
Qed.

Lemma at_of_nat {A} (v : list A) (n : nat) : at_ v (Z.of_nat n) = v !! n.
Proof. unfold at_. rewrite decide_True by lia. by rewrite Nat2Z.id. Qed.

Lemma length_upd {A} (v : list A) (i : Z) (x : A) : length (upd v i x) = length v.
Proof. apply length_insert. Qed.

Lemma at_upd_eq {A} (v : list A) (i : Z) (x y : A) :
  at_ v i = Some y → at_ (upd v i x) i = Some x.
Proof.
  intros [Hi Hy]%at_Some. apply at_Some. split; [done |].
  apply list_lookup_insert_eq. by eapply lookup_lt_Some.
Qed.

Lemma at_upd_ne {A} (v : list A) (i j : Z) (x : A) :
  0 ≤ i → i ≠ j → at_ (upd v i x) j = at_ v j.
Proof.
  intros Hi Hne. unfold at_, upd. case_decide; [| done].
  apply list_lookup_insert_ne. lia.
Qed.

Lemma at_upd {A} (v : list A) (i j : Z) (x y : A) :
  at_ v i = Some y →
  at_ (upd v i x) j = if decide (i = j) then Some x else at_ v j.
Proof.
  intros Hy. case_decide as Hij.
  - subst j. by eapply at_upd_eq.
  - apply at_upd_ne; [| done]. by apply at_lt in Hy as [? _].
Qed.

Lemma bind_Done {A B} (m : Outcome A) (k : A → Outcome B) (b : B) :
  m ≫= k = Done b ↔ ∃ a, m = Done a ∧ k a = Done b.
Proof. destruct m; simpl; naive_solver. Qed.

Lemma bind_Raise {A B} (m : Outcome A) (k : A → Outcome B) (w : World) :
  m ≫= k = Raise w ↔ m = Raise w ∨ ∃ a, m = Done a ∧ k a = Raise w.
Proof. destruct m; simpl; naive_solver. Qed.

Lemma Done_bind {A B} (a : A) (k : A → Outcome B) : Done a ≫= k = k a.
Proof. done. Qed.

Lemma orFault_Done {A} (f : Fault) (o : option A) (a : A) :
  orFault f o = Done a ↔ o = Some a.
Proof. destruct o; simpl; naive_solver. Qed.

Lemma getSlot_Done (w : World) (i : Z) (s : Slot) :
  getSlot w i = Done s ↔ at_ (slots_ w) i = Some s.
Proof. apply orFault_Done. Qed.

Lemma getIoPin_Done (w : World) (i : Z) (p : IOPin) :
  getIoPin w i = Done p ↔ at_ (io_pins_ w) i = Some p.
Proof. apply orFault_Done. Qed.

Lemma getIoPin_None (w : World) (i : Z) :
  at_ (io_pins_ w) i = None → getIoPin w i = Undefined PinOutOfRange.
Proof. intros H. unfold getIoPin. by rewrite H. Qed.

Lemma getSlot_None (w : World) (i : Z) :
  at_ (slots_ w) i = None → getSlot w i = Undefined SlotOutOfRange.
Proof. intros H. unfold getSlot. by rewrite H. Qed.

(** ** Machine integers *)

Lemma wrap_int_id (z : Z) : INT_MIN ≤ z ≤ INT_MAX → wrap_int z = z.
Proof.
  unfold INT_MIN, INT_MAX, wrap_int. intros Hz.
  rewrite Z.mod_small; lia.
Qed.

Lemma wrap_int_range (z : Z) : INT_MIN ≤ wrap_int z ≤ INT_MAX.
Proof.
  unfold INT_MIN, INT_MAX, wrap_int.
  pose proof (Z.mod_pos_bound (z + 2 ^ 31) (2 ^ 32)). lia.
Qed.

Lemma wrap_int_add_l (a b : Z) : wrap_int (wrap_int a + b) = wrap_int (a + b).
Proof.
  unfold wrap_int. f_equal.
  replace ((a + 2 ^ 31) mod 2 ^ 32 - 2 ^ 31 + b + 2 ^ 31)
    with ((a + 2 ^ 31) mod 2 ^ 32 + b) by lia.
  rewrite Zplus_mod_idemp_l. f_equal. lia.
Qed.

Lemma size_t_of_int_nat (n : nat) :
  Z.of_nat n < 2 ^ 64 → size_t_of_int (Z.of_nat n) = n.
Proof.
  intros Hn. unfold size_t_of_int. rewrite Z.mod_small by lia. apply Nat2Z.id.
Qed.


(** ** Candidate blocks *)

Lemma candidateStarts_nil (begin end_ gs : Z) :
  0 < gs → ¬ begin ≤ end_ - gs + 1 → candidateStarts begin end_ gs = [].
Proof.
  intros Hgs Hi. unfold candidateStarts.
  assert ((end_ - begin + 1) / gs ≤ 0) as Hq.
  { destruct (decide (0 ≤ end_ - begin + 1)).
    - rewrite Z.div_small; lia.
    - pose proof (Z.div_lt_upper_bound (end_ - begin + 1) gs 0 Hgs). lia. }
  replace (Z.to_nat ((end_ - begin + 1) / gs)) with 0%nat by lia. done.
Qed.

Lemma candidateStarts_cons (begin end_ gs : Z) :
  0 < gs → begin ≤ end_ - gs + 1 →
  candidateStarts begin end_ gs = begin :: candidateStarts (begin + gs) end_ gs.
Proof.
  intros Hgs Hi. unfold candidateStarts.
  assert ((end_ - begin + 1) / gs = (end_ - (begin + gs) + 1) / gs + 1) as Hq.
  { replace (end_ - begin + 1) with ((end_ - (begin + gs) + 1) + 1 * gs) by lia.
    rewrite Z.div_add by lia. done. }
  assert (0 ≤ (end_ - (begin + gs) + 1) / gs) as Hnn.
  { apply Z.div_pos; lia. }
  rewrite Hq, Z2Nat.inj_add by lia. simpl Z.to_nat.
  rewrite Nat.add_comm. simpl. f_equal; [lia |].
  rewrite <- fmap_S_seq, <- list_fmap_compose.
  apply list_fmap_ext. intros j k _. simpl. lia.
Qed.

Lemma length_candidateStarts_le (begin end_ gs : Z) :
  0 < gs →
  (length (candidateStarts begin end_ gs) ≤ Z.to_nat (end_ - begin + 1))%nat.
Proof.
  intros Hgs. unfold candidateStarts. rewrite length_fmap, length_seq.
  destruct (decide (0 ≤ end_ - begin + 1)).
  - apply Z2Nat.inj_le; [apply Z.div_pos; lia | lia |].
    apply Z.div_le_upper_bound; nia.
  - pose proof (Z.div_lt_upper_bound (end_ - begin + 1) gs 0 Hgs). lia.
Qed.

Lemma blockFree_S (slots : list Slot) (n : nat) (i : Z) :
  blockFree slots (S n) i = isFree slots i && blockFree slots n (i + 1).
Proof.
  unfold blockFree. rewrite <- cons_seq. cbn [forallb].
  rewrite Z.add_0_r. f_equal.
  rewrite <- fmap_S_seq. generalize (seq 0 n). intros l.
  induction l as [| k l IH]; [done |].
  rewrite fmap_cons. cbn [forallb]. rewrite IH.
  by replace (i + 1 + Z.of_nat k) with (i + Z.of_nat (S k)) by lia.
Qed.

Lemma blockIsBlocked_spec (w : World) (n : nat) (i : Z) (acc : bool) :
  0 ≤ i → i + Z.of_nat n ≤ Z.of_nat (length (slots_ w)) →
  blockIsBlocked w n i acc = Done (acc || negb (blockFree (slots_ w) n i)).
Proof.
  revert i acc. induction n as [| n IH]; intros i acc Hi Hn.
  - simpl. by rewrite orb_false_r.
  - cbn [blockIsBlocked]. rewrite blockFree_S.
    destruct (at_is_Some (slots_ w) i) as [s Hs]; [lia |].
    unfold getSlot, isFree. rewrite Hs. simpl. rewrite IH by lia.
    f_equal. destruct (blocked s), acc; simpl; try done.
Qed.

Section GroupMatrix.

Variable computeIONetHPWL : Z → Point → Z.
Variable hm : HungarianMatching.
Variable w : World.

Hypothesis gs_pos : 0 < group_size_ hm.
Hypothesis end_in : end_slot_ hm < Z.of_nat (length (slots_ w)).

Local Abbreviation gs := (group_size_ hm).
Local Abbreviation free := (λ i : Z, Is_true (blockFree (slots_ w) (Z.to_nat (group_size_ hm)) i)).

Lemma countBlocks_spec (fuel : nat) (i acc : Z) :
  0 ≤ i →
  (length (candidateStarts i (end_slot_ hm) gs) < fuel)%nat →
  countBlocks hm w fuel i acc =
  Done (acc + Z.of_nat (length (filter free (candidateStarts i (end_slot_ hm) gs)))).
Proof.
  revert i acc. induction fuel as [| fuel IH]; intros i acc Hi Hfuel; [lia |].
  cbn [countBlocks]. destruct (Z.leb_spec i (end_slot_ hm - group_size_ hm + 1)) as [Hle | Hgt].
  - rewrite (candidateStarts_cons i) in * by lia.
    rewrite blockIsBlocked_spec by lia. simpl.
    simpl in Hfuel. rewrite IH by lia.
    f_equal. destruct (decide (Is_true (blockFree (slots_ w) (Z.to_nat (group_size_ hm)) i))) as [Hfree | Hfree].
    + rewrite filter_cons_True by done.
      apply Is_true_true in Hfree.  rewrite Hfree.
      simpl. lia.
    + rewrite filter_cons_False by done.
      apply Is_true_false in Hfree.  rewrite Hfree. simpl. lia.
  - rewrite candidateStarts_nil by lia. simpl. f_equal. lia.
Qed.

Lemma fillGroupRow_spec (newPos : Point) (groups : list PinGroup)
    (pre suf : list Z) :
  (length groups ≤ length suf)%nat →
  fillGroupRow computeIONetHPWL newPos groups (length pre) (pre ++ suf) =
  Done (pre ++ ((λ g : PinGroup, groupHpwl computeIONetHPWL newPos g.1 0) <$> groups)
            ++ drop (length groups) suf).
Proof.
  revert pre suf. induction groups as [| g groups IH]; intros pre suf Hlen.
  - simpl. by rewrite drop_0.
  - destruct suf as [| x suf]; [simpl in Hlen; lia |].
    cbn [fillGroupRow]. rewrite list_lookup_middle by done. simpl.
    replace (<[length pre := groupHpwl computeIONetHPWL newPos g.1 0]> (pre ++ x :: suf))
      with ((pre ++ [groupHpwl computeIONetHPWL newPos g.1 0]) ++ suf).
    2:{ rewrite <- (Nat.add_0_r (length pre)), insert_app_r. simpl.
        by rewrite <- app_assoc. }
    replace (S (length pre)) with (length (pre ++ [groupHpwl computeIONetHPWL newPos g.1 0]))
      by (rewrite length_app; simpl; lia).
    rewrite IH by (simpl in Hlen; lia).
    by rewrite <- app_assoc.
Qed.

Lemma fillGroupRow_fresh (newPos : Point) (old : list Z) :
  old = [] →
  Z.of_nat (length (pin_groups_ hm)) ≤ num_pin_groups_ hm < 2 ^ 64 →
  fillGroupRow computeIONetHPWL newPos (pin_groups_ hm) 0
    (resize (size_t_of_int (num_pin_groups_ hm)) INT_MAX old) =
  Done (groupRow computeIONetHPWL newPos (pin_groups_ hm)
          (size_t_of_int (num_pin_groups_ hm))).
Proof.
  intros -> Hn. rewrite resize_nil.
  assert (length (pin_groups_ hm) ≤ size_t_of_int (num_pin_groups_ hm))%nat as Hle.
  { unfold size_t_of_int. rewrite Z.mod_small by lia. lia. }
  pose proof (fillGroupRow_spec newPos (pin_groups_ hm) []
                (replicate (size_t_of_int (num_pin_groups_ hm)) INT_MAX)) as H.
  simpl in H. rewrite H by (rewrite length_replicate; lia).
  by rewrite drop_replicate.
Qed.

Lemma fillBlocks_spec (fuel : nat) (i : Z) (pre : list (list Z)) (k : nat) :
  0 ≤ i →
  Z.of_nat (length (pin_groups_ hm)) ≤ num_pin_groups_ hm < 2 ^ 64 →
  (length (candidateStarts i (end_slot_ hm) gs) < fuel)%nat →
  (length (filter free (candidateStarts i (end_slot_ hm) gs)) ≤ k)%nat →
  fillBlocks computeIONetHPWL hm w fuel i (length pre) (pre ++ replicate k []) =
  Done (pre
        ++ ((λ j, groupRow computeIONetHPWL (slotPos (slots_ w) j) (pin_groups_ hm)
                    (size_t_of_int (num_pin_groups_ hm)))
              <$> filter free (candidateStarts i (end_slot_ hm) gs))
        ++ replicate (k - length (filter free (candidateStarts i (end_slot_ hm) gs))) []).
Proof.
  intros Hi Hn. revert i pre k Hi.
  induction fuel as [| fuel IH]; intros i pre k Hi Hfuel Hk; [lia |].
  cbn [fillBlocks]. destruct (Z.leb_spec i (end_slot_ hm - group_size_ hm + 1)) as [Hle | Hgt].
  - rewrite (candidateStarts_cons i) in * by lia.
    destruct (at_is_Some (slots_ w) i) as [s Hs]; [lia |].
    unfold getSlot at 1. rewrite Hs. simpl.
    rewrite blockIsBlocked_spec by lia. simpl.
    simpl in Hfuel. destruct (decide (Is_true (blockFree (slots_ w) (Z.to_nat (group_size_ hm)) i))) as [Hfree | Hfree].
    + rewrite filter_cons_True in * by done. simpl in Hk.
      apply Is_true_true in Hfree.  rewrite Hfree. simpl.
      destruct k as [| k]; [lia |]. simpl replicate.
      rewrite list_lookup_middle by done. simpl.
      rewrite fillGroupRow_fresh by done. simpl.
      set (row := groupRow _ _ _ _).
      replace (<[length pre := row]> (pre ++ [] :: replicate k []))
        with ((pre ++ [row]) ++ replicate k []).
      2:{ rewrite <- (Nat.add_0_r (length pre)), insert_app_r. simpl.
          by rewrite <- app_assoc. }
      replace (S (length pre)) with (length (pre ++ [row]))
        by (rewrite length_app; simpl; lia).
      rewrite IH by lia.
      rewrite <- app_assoc. simpl. unfold row, slotPos. rewrite Hs.
      do 3 f_equal.
    + rewrite filter_cons_False in * by done.
      apply Is_true_false in Hfree.  rewrite Hfree. simpl.
      rewrite IH by lia. done.
  - rewrite candidateStarts_nil by lia. simpl.
    by rewrite Nat.sub_0_r.
Qed.

End GroupMatrix.

Lemma elem_of_candidateStarts (begin end_ gs i : Z) :
  0 < gs →
  i ∈ candidateStarts begin end_ gs ↔
  ∃ k : nat, i = begin + Z.of_nat k * gs ∧ i + gs - 1 ≤ end_.
Proof.
  intros Hgs. unfold candidateStarts. rewrite list_elem_of_fmap. split.
  - intros (k & -> & Hk). exists k. split; [done |].
    apply elem_of_seq in Hk as [_ Hk]. simpl in Hk.
    assert (Z.of_nat k + 1 ≤ (end_ - begin + 1) / gs) as Hq by lia.
    assert (gs * (Z.of_nat k + 1) ≤ end_ - begin + 1); [| lia].
    etrans; [| apply (Z.mul_div_le _ gs); lia].
    apply Z.mul_le_mono_nonneg_l; lia.
  - intros (k & -> & Hk). exists k. split; [done |].
    apply elem_of_seq. split; [lia |]. simpl.
    assert (Z.of_nat k + 1 ≤ (end_ - begin + 1) / gs); [| lia].
    apply Z.div_le_lower_bound; lia.
Qed.

Lemma maxGroupSize_ge (groups : list PinGroup) (acc : Z) :
  acc ≤ maxGroupSize groups acc ∧
  Forall (λ g : PinGroup, Z.of_nat (length g.1) ≤ maxGroupSize groups acc) groups.
Proof.
  unfold maxGroupSize. revert acc.
  induction groups as [| g groups IH]; intros acc; simpl.
  - split; [lia | constructor].
  - destruct (IH (Z.max (Z.of_nat (length g.1)) acc)) as [H1 H2].
    split; [lia |]. constructor; [lia | done].
Qed.

Lemma maxGroupSize_attained (groups : list PinGroup) (acc : Z) :
  maxGroupSize groups acc = acc ∨
  Exists (λ g : PinGroup, Z.of_nat (length g.1) = maxGroupSize groups acc) groups.
Proof.
  unfold maxGroupSize. revert acc.
  induction groups as [| g groups IH]; intros acc; simpl; [by left |].
  destruct (IH (Z.max (Z.of_nat (length g.1)) acc)) as [H | H].
  - rewrite H. destruct (Z.max_spec (Z.of_nat (length g.1)) acc) as [[_ ->] | [_ ->]].
    + by left.
    + right. by constructor.
  - right. by constructor 2.
Qed.

Section GroupCost.

Variable computeIONetHPWL : Z → Point → Z.

Local Abbreviation costs newPos pins :=
  ((λ idx : Z, computeIONetHPWL idx newPos) <$> pins).

Lemma groupHpwl_finite (newPos : Point) (pins : list Z) (acc : Z) :
  INT_MIN ≤ acc ≤ INT_MAX →
  Forall (λ c, c ≠ hungarian_fail) (costs newPos pins) →
  groupHpwl computeIONetHPWL newPos pins acc = wrap_int (acc + sumZ (costs newPos pins)).
Proof.
  revert acc. induction pins as [| idx pins IH]; intros acc Hacc Hfin; simpl.
  - rewrite Z.add_0_r. by rewrite wrap_int_id.
  - rewrite fmap_cons in Hfin. apply Forall_cons in Hfin as [Hc Hfin].
    apply Z.eqb_neq in Hc. rewrite Hc.
    rewrite IH; [| apply wrap_int_range | done].
    unfold int_add. rewrite wrap_int_add_l. f_equal. unfold sumZ. simpl.
    rewrite Z.add_assoc. reflexivity.
Qed.

Lemma groupHpwl_infeasible (newPos : Point) (pre post : list Z) (p acc : Z) :
  Forall (λ c, c ≠ hungarian_fail) (costs newPos pre) →
  computeIONetHPWL p newPos = hungarian_fail →
  groupHpwl computeIONetHPWL newPos (pre ++ p :: post) acc = hungarian_fail.
Proof.
  revert acc. induction pre as [| idx pre IH]; intros acc Hfin Hp; simpl.
  - by rewrite Hp, Z.eqb_refl.
  - rewrite fmap_cons in Hfin. apply Forall_cons in Hfin as [Hc Hfin].
    apply Z.eqb_neq in Hc. rewrite Hc. by apply IH.
Qed.

(** [createMatrixForGroups] on a freshly constructed matcher. *)
Lemma createMatrixForGroups_spec (section : SectionRec) (numIOGroups : Z) (w : World) :
  pin_groups section ≠ [] →
  0 ≤ begin_slot section →
  end_slot section < Z.of_nat (length (slots_ w)) →
  end_slot section ≤ INT_MAX →
  Z.of_nat (length (pin_groups section)) ≤ numIOGroups ≤ INT_MAX →
  let hm := newHungarianMatching section numIOGroups in
  let gs := maxGroupSize (pin_groups section) (-1) in
  let blocks :=
    filter (λ i, Is_true (blockFree (slots_ w) (Z.to_nat gs) i))
      (candidateStarts (begin_slot section) (end_slot section) gs) in
  createMatrixForGroups computeIONetHPWL hm w =
  Done (withGroupMatrix (withGroupSize hm gs) (Z.of_nat (length blocks))
          ((λ i, groupRow computeIONetHPWL (slotPos (slots_ w) i) (pin_groups section)
                   (size_t_of_int numIOGroups)) <$> blocks)).
Proof.
  intros Hne Hb He Hei Hn hm gs blocks. unfold createMatrixForGroups.
  unfold INT_MAX in *.
  change (maxGroupSize (pin_groups_ hm) (group_size_ hm)) with gs.
  change (group_size_ (withGroupSize hm gs)) with gs.
  destruct (Z.ltb_spec 0 gs) as [Hgs | Hgs].
  - pose proof (length_candidateStarts_le (begin_slot section) (end_slot section) gs Hgs) as Hlen.
    rewrite (countBlocks_spec (withGroupSize hm gs) w Hgs He); [| done |].
    2:{ unfold blockFuel. simpl. lia. }
    rewrite Done_bind. cbv zeta.
    change (group_size_ (withGroupSize hm gs)) with gs.
    change (end_slot_ (withGroupSize hm gs)) with (end_slot section).
    change (begin_slot_ (withGroupSize hm gs)) with (begin_slot section).
    change (group_slots_ (withGroupSize hm gs)) with 0.
    change (hungarian_matrix_ (withGroupSize hm gs)) with (@nil (list Z)).
    fold blocks. rewrite Z.add_0_l, size_t_of_int_nat.
    2:{ pose proof (length_filter (λ i, Is_true (blockFree (slots_ w) (Z.to_nat gs) i))
                 (candidateStarts (begin_slot section) (end_slot section) gs)).
        fold blocks in H. lia. }
    rewrite resize_nil.
    pose proof (fillBlocks_spec computeIONetHPWL (withGroupSize hm gs) w Hgs He
                  (blockFuel (withGroupSize hm gs)) (begin_slot section) [] (length blocks)) as H.
    rewrite app_nil_l in H.
    change (length (@nil (list Z))) with 0%nat in H.
    change (group_size_ (withGroupSize hm gs)) with gs in H.
    change (end_slot_ (withGroupSize hm gs)) with (end_slot section) in H.
    change (pin_groups_ (withGroupSize hm gs)) with (pin_groups section) in H.
    change (num_pin_groups_ (withGroupSize hm gs)) with numIOGroups in H.
    fold blocks in H.
    rewrite H; [| done | lia | unfold blockFuel; simpl; lia | done].
    rewrite Done_bind. by rewrite Nat.sub_diag, app_nil_l, app_nil_r.
  - assert (blocks = []) as ->; [| done].
    unfold blocks, candidateStarts.
    assert ((end_slot section - begin_slot section + 1) / gs ≤ 0) as Hq.
    { assert (gs = 0) as ->; [| by rewrite Z.div_0_r].
      destruct (maxGroupSize_ge (pin_groups section) (-1)) as [_ Hall].
      destruct (pin_groups section) as [| g groups]; [done |].
      apply Forall_cons in Hall as [Hg _]. fold gs in Hg. lia. }
    by replace (Z.to_nat ((end_slot section - begin_slot section + 1) / gs)) with 0%nat by lia.
Qed.

End GroupCost.

Lemma filter_all {A} (P : A → Prop) `{!∀ x, Decision (P x)} (l : list A) :
  Forall P l → filter P l = l.
Proof.
  induction 1 as [| x l Hx Hl IH]; [done |].
  by rewrite filter_cons_True, IH.
Qed.

Lemma StronglySorted_seq (j n : nat) : StronglySorted lt (seq j n).
Proof.
  revert j. induction n as [| n IH]; intros j; simpl; constructor; [done |].
  apply Forall_seq. intros k Hk. lia.
Qed.

Lemma StronglySorted_filter {A} (R : relation A) (P : A → Prop)
    `{!∀ x, Decision (P x)} (l : list A) :
  StronglySorted R l → StronglySorted R (filter P l).
Proof.
  induction 1 as [| x l Hl IH Hx]; [constructor |].
  rewrite filter_cons. case_decide; [| done].
  constructor; [done |].
  rewrite Forall_forall in Hx |- *. intros y [_ Hy]%list_elem_of_filter. auto.
Qed.

Lemma candidateStarts_sorted (begin end_ gs : Z) :
  0 < gs → StronglySorted Z.lt (candidateStarts begin end_ gs).
Proof.
  intros Hgs. unfold candidateStarts.
  apply (StronglySorted_fmap _ lt); [| apply StronglySorted_seq].
  intros x y Hxy. nia.
Qed.

(** ** The grouped matrix *)

(** C6.  On a freshly constructed matcher of a section with at least one pin
    group, [createMatrixForGroups] returns; [group_size_] is the largest pin
    count of the section's groups; the matrix has one row per block that
    starts at [begin_slot + k * group_size_], lies inside the section and
    holds no blocked slot, in ascending order of the start index; a block
    with a blocked slot has no row. *)
Theorem createMatrixForGroups_blocks (computeIONetHPWL : Z → Point → Z)
    (section : SectionRec) (numIOGroups : Z) (w : World) :
  pin_groups section ≠ [] →
  0 ≤ begin_slot section →
  end_slot section < Z.of_nat (length (slots_ w)) →
  end_slot section ≤ INT_MAX →
  Z.of_nat (length (pin_groups section)) ≤ numIOGroups ≤ INT_MAX →
  ∃ hm' blocks,
    createMatrixForGroups computeIONetHPWL
      (newHungarianMatching section numIOGroups) w = Done hm' ∧
    Forall (λ g : PinGroup, Z.of_nat (length g.1) ≤ group_size_ hm') (pin_groups section) ∧
    Exists (λ g : PinGroup, Z.of_nat (length g.1) = group_size_ hm') (pin_groups section) ∧
    StronglySorted Z.lt blocks ∧
    (∀ i, i ∈ blocks ↔
       0 < group_size_ hm' ∧
       (∃ k : nat, i = begin_slot section + Z.of_nat k * group_size_ hm'
                   ∧ i + group_size_ hm' - 1 ≤ end_slot section) ∧
       blockFree (slots_ w) (Z.to_nat (group_size_ hm')) i = true) ∧
    group_slots_ hm' = Z.of_nat (length blocks) ∧
    hungarian_matrix_ hm' =
      (λ i, groupRow computeIONetHPWL (slotPos (slots_ w) i) (pin_groups section)
              (size_t_of_int numIOGroups)) <$> blocks.
Proof.
  intros Hne Hb He Hei Hn.
  pose proof (createMatrixForGroups_spec computeIONetHPWL section numIOGroups w
                Hne Hb He Hei Hn) as Hrun.
  cbv zeta in Hrun.
  destruct (maxGroupSize_ge (pin_groups section) (-1)) as [Hge Hall].
  pose proof (maxGroupSize_attained (pin_groups section) (-1)) as Hatt.
  remember (maxGroupSize (pin_groups section) (-1)) as gs eqn:Hgsdef.
  eexists _, _. split; [exact Hrun |].
  cbn [group_size_ group_slots_ hungarian_matrix_ withGroupMatrix withGroupSize].
  assert (0 ≤ gs) as Hgs0.
  { destruct (pin_groups section) as [| g groups]; [done |].
    apply Forall_cons in Hall as [Hg _]. lia. }
  split_and!; try done.
  - destruct Hatt as [Heq | Hex]; [lia | done].
  - destruct (decide (0 < gs)) as [Hgs | Hgs].
    + by apply StronglySorted_filter, candidateStarts_sorted.
    + replace gs with 0 by lia. unfold candidateStarts. rewrite Z.div_0_r. simpl. constructor.
  - intros i. rewrite list_elem_of_filter. destruct (decide (0 < gs)) as [Hgs | Hgs].
    + rewrite elem_of_candidateStarts by done. rewrite Is_true_true. naive_solver.
    + replace gs with 0 by lia. unfold candidateStarts. rewrite Z.div_0_r. simpl.
      rewrite elem_of_nil. split; [tauto | lia].
Qed.

(** C7, as far as the program goes.  In the matrix that
    [createMatrixForGroups] returns, the cell of block [i] (row [r]) and group
    [g] (column [c]) is the sentinel as soon as one member of [g] costs the
    sentinel at the anchor of the block, whatever the members after it cost;
    when no member costs the sentinel the cell is the sum of the member
    costs reduced to 32 bits, hence the sum itself whenever the sum is an
    [int]. *)
Theorem groupCell_cost (computeIONetHPWL : Z → Point → Z)
    (section : SectionRec) (numIOGroups : Z) (w : World)
    (hm' : HungarianMatching) (r c : nat) (i : Z) (g : PinGroup) :
  pin_groups section ≠ [] →
  0 ≤ begin_slot section →
  end_slot section < Z.of_nat (length (slots_ w)) →
  end_slot section ≤ INT_MAX →
  Z.of_nat (length (pin_groups section)) ≤ numIOGroups ≤ INT_MAX →
  createMatrixForGroups computeIONetHPWL
    (newHungarianMatching section numIOGroups) w = Done hm' →
  filter (λ i, Is_true (blockFree (slots_ w) (Z.to_nat (group_size_ hm')) i))
    (candidateStarts (begin_slot section) (end_slot section) (group_size_ hm')) !! r
    = Some i →
  pin_groups section !! c = Some g →
  let cost idx := computeIONetHPWL idx (slotPos (slots_ w) i) in
  ∃ row cell,
    hungarian_matrix_ hm' !! r = Some row ∧ row !! c = Some cell ∧
    (Forall (λ idx, cost idx ≠ hungarian_fail) g.1 →
       cell = wrap_int (sumZ (cost <$> g.1)) ∧
       (INT_MIN ≤ sumZ (cost <$> g.1) ≤ INT_MAX → cell = sumZ (cost <$> g.1))) ∧
    (∀ pre p post, g.1 = pre ++ p :: post →
       Forall (λ idx, cost idx ≠ hungarian_fail) pre →
       cost p = hungarian_fail → cell = hungarian_fail).
Proof.
  intros Hne Hb He Hei Hn Hrun Hr Hc cost.
  rewrite createMatrixForGroups_spec in Hrun by done. cbv zeta in Hrun.
  injection Hrun as <-.
  cbn [group_size_ hungarian_matrix_ withGroupMatrix withGroupSize] in *.
  eexists _, (groupHpwl computeIONetHPWL (slotPos (slots_ w) i) g.1 0).
  split; [by rewrite list_lookup_fmap, Hr |].
  split.
  { unfold groupRow. rewrite lookup_app_l.
    - by rewrite list_lookup_fmap, Hc.
    - rewrite length_fmap. by eapply lookup_lt_Some. }
  split.
  - intros Hfin.
    assert (groupHpwl computeIONetHPWL (slotPos (slots_ w) i) g.1 0
            = wrap_int (sumZ (cost <$> g.1))) as Heq.
    { rewrite groupHpwl_finite; [done | unfold INT_MIN, INT_MAX; lia |].
      by rewrite Forall_fmap. }
    split; [done |]. intros Hrange. by rewrite Heq, wrap_int_id.
  - intros pre p post -> Hpre Hp.
    apply groupHpwl_infeasible; [| done]. by rewrite Forall_fmap.
Qed.

(** ** Unblocked slots *)

Lemma unblockedIn_nil (slots : list Slot) (begin end_ : Z) :
  end_ < begin → unblockedIn slots begin end_ = [].
Proof.
  intros H. unfold unblockedIn, seqZ.
  by replace (Z.to_nat (end_ - begin + 1)) with 0%nat by lia.
Qed.

Lemma unblockedIn_cons (slots : list Slot) (begin end_ : Z) :
  begin ≤ end_ →
  unblockedIn slots begin end_ =
  (if isFree slots begin then [begin] else []) ++ unblockedIn slots (begin + 1) end_.
Proof.
  intros H. unfold unblockedIn. rewrite seqZ_cons by lia.
  replace (Z.pred (end_ - begin + 1)) with (end_ - (begin + 1) + 1) by lia.
  replace (Z.succ begin) with (begin + 1) by lia.
  destruct (isFree slots begin) eqn:Hfree.
  - rewrite filter_cons_True; [done |]. rewrite Hfree. exact I.
  - rewrite filter_cons_False; [done |]. rewrite Hfree. exact id.
Qed.

Lemma unblockedIn_sorted (slots : list Slot) (begin end_ : Z) :
  StronglySorted Z.lt (unblockedIn slots begin end_).
Proof.
  unfold unblockedIn, seqZ. apply StronglySorted_filter.
  apply (StronglySorted_fmap _ lt); [| apply StronglySorted_seq].
  intros x y Hxy. lia.
Qed.

Lemma NoDup_unblockedIn (slots : list Slot) (begin end_ : Z) :
  NoDup (unblockedIn slots begin end_).
Proof. apply NoDup_filter, NoDup_seqZ. Qed.

Lemma elem_of_unblockedIn (slots : list Slot) (begin end_ i : Z) :
  i ∈ unblockedIn slots begin end_ ↔
  begin ≤ i ≤ end_ ∧ ∃ s, at_ slots i = Some s ∧ blocked s = false.
Proof.
  unfold unblockedIn. rewrite list_elem_of_filter, elem_of_seqZ, Is_true_true.
  unfold isFree. destruct (at_ slots i) as [s |].
  - rewrite negb_true_iff. split.
    + intros [? ?]. split; [lia | eauto].
    + intros [? (s' & [= <-] & ?)]. split; [done | lia].
  - split; [intros [[=] _] | intros [_ (s & [=] & _)]].
Qed.

Lemma length_unblockedIn_le (slots : list Slot) (begin end_ : Z) :
  (length (unblockedIn slots begin end_) ≤ Z.to_nat (end_ - begin + 1))%nat.
Proof.
  unfold unblockedIn. etrans; [apply length_filter |]. by rewrite length_seqZ.
Qed.

(** ** createMatrix *)

Section UngroupedMatrix.

Variable computeIONetHPWL : Z → Point → Z.
Variable w : World.

Lemma fillRow_spec (newPos : Point) (idxs : list Z) (pre suf : list Z) :
  Forall (λ idx, is_Some (at_ (io_pins_ w) idx)) idxs →
  (length (ungroupedOf (io_pins_ w) idxs) ≤ length suf)%nat →
  fillRow computeIONetHPWL w newPos idxs (length pre) (pre ++ suf) =
  Done (pre ++ ungroupedRow computeIONetHPWL newPos (io_pins_ w) idxs
            ++ drop (length (ungroupedOf (io_pins_ w) idxs)) suf).
Proof.
  unfold ungroupedRow, ungroupedOf.
  revert pre suf. induction idxs as [| idx idxs IH]; intros pre suf Hval Hlen.
  - simpl. by rewrite drop_0.
  - apply Forall_cons in Hval as [[p Hp] Hval].
    cbn [fillRow]. rewrite (proj2 (getIoPin_Done _ _ _) Hp), Done_bind.
    destruct (isInGroup p) eqn:Hgrp.
    + rewrite filter_cons_False in * by (rewrite Hp, Hgrp; exact id). by apply IH.
    + rewrite filter_cons_True in * by (rewrite Hp, Hgrp; exact I).
      destruct suf as [| x suf]; [simpl in Hlen; lia |].
      rewrite list_lookup_middle by done. simpl orFault. rewrite Done_bind.
      replace (<[length pre := computeIONetHPWL idx newPos]> (pre ++ x :: suf))
        with ((pre ++ [computeIONetHPWL idx newPos]) ++ suf).
      2:{ rewrite <- (Nat.add_0_r (length pre)), insert_app_r. simpl.
          by rewrite <- app_assoc. }
      replace (S (length pre)) with (length (pre ++ [computeIONetHPWL idx newPos]))
        by (rewrite length_app; simpl; lia).
      rewrite IH by (simpl in Hlen; done || lia).
      rewrite <- app_assoc. by rewrite fmap_cons.
Qed.

Variable hm : HungarianMatching.

Hypothesis pins_valid :
  Forall (λ idx, is_Some (at_ (io_pins_ w) idx)) (pin_indices_ hm).
Hypothesis width :
  size_t_of_int (num_io_pins_ hm) = length (pin_indices_ hm).

Lemma createMatrixLoop_spec (n : nat) (i : Z) (pre : list (list Z)) (k : nat) :
  0 ≤ i → i + Z.of_nat n ≤ Z.of_nat (length (slots_ w)) →
  (length (unblockedIn (slots_ w) i (i + Z.of_nat n - 1)) ≤ k)%nat →
  createMatrixLoop computeIONetHPWL hm w n i (length pre) (pre ++ replicate k []) =
  Done (pre ++ paddedMatrix computeIONetHPWL w i (i + Z.of_nat n - 1) (pin_indices_ hm)
            ++ replicate (k - length (unblockedIn (slots_ w) i (i + Z.of_nat n - 1))) []).
Proof.
  unfold paddedMatrix.
  revert i pre k. induction n as [| n IH]; intros i pre k Hi Hn Hk.
  - rewrite unblockedIn_nil by lia. simpl. by rewrite Nat.sub_0_r.
  - cbn [createMatrixLoop].
    destruct (at_is_Some (slots_ w) i) as [s Hs]; [lia |].
    rewrite (proj2 (getSlot_Done _ _ _) Hs), Done_bind.
    rewrite (unblockedIn_cons _ i) in * by lia.
    replace (i + Z.of_nat (S n) - 1) with (i + 1 + Z.of_nat n - 1) in * by lia.
    unfold isFree in *. rewrite Hs in *.
    destruct (blocked s); simpl negb in *; cbv iota in *.
    + rewrite app_nil_l in *. by apply IH; [lia | lia |].
    + simpl in Hk. destruct k as [| k]; [lia |]. simpl replicate.
      rewrite list_lookup_middle by done. simpl orFault. rewrite Done_bind.
      rewrite resize_nil, width.
      pose proof (fillRow_spec (pos s) (pin_indices_ hm) []
                    (replicate (length (pin_indices_ hm)) INT_MAX) pins_valid) as Hrow.
      simpl in Hrow. rewrite Hrow, Done_bind.
      2:{ rewrite length_replicate. apply length_filter. }
      rewrite drop_replicate.
      set (row := ungroupedRow _ _ _ _ ++ _).
      replace (<[length pre := row]> (pre ++ [] :: replicate k []))
        with ((pre ++ [row]) ++ replicate k []).
      2:{ rewrite <- (Nat.add_0_r (length pre)), insert_app_r. simpl.
          by rewrite <- app_assoc. }
      replace (S (length pre)) with (length (pre ++ [row]))
        by (rewrite length_app; simpl; lia).
      rewrite IH by lia.
      rewrite <- app_assoc. simpl. unfold row, slotPos. rewrite Hs.
      do 3 f_equal.
Qed.

End UngroupedMatrix.

Lemma createMatrix_spec (computeIONetHPWL : Z → Point → Z)
    (section : SectionRec) (numIOGroups : Z) (w : World) :
  0 ≤ begin_slot section →
  end_slot section < Z.of_nat (length (slots_ w)) →
  end_slot section ≤ INT_MAX →
  Z.of_nat (length (pin_indices section)) ≤ INT_MAX →
  Forall (λ idx, is_Some (at_ (io_pins_ w) idx)) (pin_indices section) →
  num_slots section =
    Z.of_nat (length (unblockedIn (slots_ w) (begin_slot section) (end_slot section))) →
  let hm := newHungarianMatching section numIOGroups in
  createMatrix computeIONetHPWL hm w =
  Done (mkHM (paddedMatrix computeIONetHPWL w (begin_slot section) (end_slot section)
                (pin_indices section))
          (assignment_ hm) (pin_indices_ hm) (pin_groups_ hm)
          (num_io_pins_ hm) (num_pin_groups_ hm) (begin_slot_ hm) (end_slot_ hm)
          (num_slots_ hm) (non_blocked_slots_ hm) (group_slots_ hm)
          (group_size_ hm) (edge_ hm)).
Proof.
  intros Hb He Hei Hpi Hval Hcount hm. unfold INT_MAX in *.
  unfold createMatrix.
  change (non_blocked_slots_ hm) with (num_slots section).
  change (hungarian_matrix_ hm) with (@nil (list Z)).
  change (end_slot_ hm) with (end_slot section).
  change (begin_slot_ hm) with (begin_slot section).
  pose proof (length_unblockedIn_le (slots_ w) (begin_slot section) (end_slot section)) as Hle.
  rewrite Hcount, size_t_of_int_nat, resize_nil by lia.
  set (U := unblockedIn (slots_ w) (begin_slot section) (end_slot section)) in *.
  pose proof (createMatrixLoop_spec computeIONetHPWL w hm) as Hloop.
  specialize (Hloop Hval).
  assert (size_t_of_int (num_io_pins_ hm) = length (pin_indices_ hm)) as Hw.
  { simpl. apply size_t_of_int_nat. lia. }
  specialize (Hloop Hw (Z.to_nat (end_slot section - begin_slot section + 1))
                (begin_slot section) [] (length U) Hb).
  rewrite app_nil_l in Hloop. change (length (@nil (list Z))) with 0%nat in Hloop.
  destruct (decide (begin_slot section ≤ end_slot section + 1)) as [Hord | Hord].
  - replace (begin_slot section
             + Z.of_nat (Z.to_nat (end_slot section - begin_slot section + 1)) - 1)
      with (end_slot section) in Hloop by lia.
    fold U in Hloop. rewrite Hloop by lia. rewrite Done_bind.
    by rewrite Nat.sub_diag, app_nil_l, app_nil_r.
  - replace (Z.to_nat (end_slot section - begin_slot section + 1)) with 0%nat in * by lia.
    assert (U = []) as HU by (apply unblockedIn_nil; lia).
    simpl. unfold paddedMatrix. fold U. by rewrite HU.
Qed.

(** C2, as far as the program goes.  On a freshly constructed matcher whose
    section counts its unblocked slots, [createMatrix] returns a matrix with
    one row per unblocked slot of the section, in ascending slot order, and
    no row for a blocked slot.  A row has one column per pin of the
    section's pin list: column [j] holds the cost of the [j]-th pin that is
    not in a group at the position of the slot, and the columns after these
    hold the sentinel.  When no pin of the list is in a group this is the
    matrix with one column per pin. *)
Theorem createMatrix_rows (computeIONetHPWL : Z → Point → Z)
    (section : SectionRec) (numIOGroups : Z) (w : World) :
  0 ≤ begin_slot section →
  end_slot section < Z.of_nat (length (slots_ w)) →
  end_slot section ≤ INT_MAX →
  Z.of_nat (length (pin_indices section)) ≤ INT_MAX →
  Forall (λ idx, is_Some (at_ (io_pins_ w) idx)) (pin_indices section) →
  num_slots section =
    Z.of_nat (length (unblockedIn (slots_ w) (begin_slot section) (end_slot section))) →
  ∃ hm',
    createMatrix computeIONetHPWL (newHungarianMatching section numIOGroups) w = Done hm' ∧
    hungarian_matrix_ hm' =
      paddedMatrix computeIONetHPWL w (begin_slot section) (end_slot section)
        (pin_indices section) ∧
    length (hungarian_matrix_ hm') =
      length (unblockedIn (slots_ w) (begin_slot section) (end_slot section)) ∧
    (∀ r i, unblockedIn (slots_ w) (begin_slot section) (end_slot section) !! r = Some i →
       ∃ row, hungarian_matrix_ hm' !! r = Some row ∧
         length row = length (pin_indices section) ∧
         (∀ c idx, ungroupedOf (io_pins_ w) (pin_indices section) !! c = Some idx →
            row !! c = Some (computeIONetHPWL idx (slotPos (slots_ w) i))) ∧
         (∀ c, (length (ungroupedOf (io_pins_ w) (pin_indices section)) ≤ c
                < length (pin_indices section))%nat →
            row !! c = Some INT_MAX)) ∧
    (ungroupedOf (io_pins_ w) (pin_indices section) = pin_indices section →
       hungarian_matrix_ hm' =
         ungroupedMatrix computeIONetHPWL w (begin_slot section) (end_slot section)
           (pin_indices section)).
Proof.
  intros Hb He Hei Hpi Hval Hcount.
  eexists. split; [by apply createMatrix_spec |].
  cbn [hungarian_matrix_].
  pose proof (length_filter
    (λ idx, Is_true (match at_ (io_pins_ w) idx with
                     | Some p => negb (isInGroup p) | None => false end))
    (pin_indices section)) as Hung.
  fold (ungroupedOf (io_pins_ w) (pin_indices section)) in Hung.
  split_and!.
  - done.
  - unfold paddedMatrix. by rewrite length_fmap.
  - intros r i Hr. eexists. split.
    { unfold paddedMatrix. by rewrite list_lookup_fmap, Hr. }
    split_and!.
    + unfold ungroupedRow. rewrite length_app, length_fmap, length_replicate. lia.
    + intros c idx Hc. rewrite lookup_app_l.
      * unfold ungroupedRow. by rewrite list_lookup_fmap, Hc.
      * unfold ungroupedRow. rewrite length_fmap. by eapply lookup_lt_Some.
    + intros c Hc. rewrite lookup_app_r.
      * apply lookup_replicate_2. unfold ungroupedRow. rewrite length_fmap. lia.
      * unfold ungroupedRow. rewrite length_fmap. lia.
  - intros Hall. unfold paddedMatrix, ungroupedMatrix.
    apply list_fmap_ext. intros _ i _. simpl.
    by rewrite Hall, Nat.sub_diag, app_nil_r.
Qed.

(** ** Scanning for the slot of a row *)

Lemma unblockedFrom_ge (slots : list Slot) (si : Z) :
  Z.of_nat (length slots) ≤ si → unblockedFrom slots si = [].
Proof. intros H. apply unblockedIn_nil. lia. Qed.

Lemma unblockedFrom_step (slots : list Slot) (si : Z) :
  unblockedFrom slots si =
  (if isFree slots si then [si] else []) ++ unblockedFrom slots (si + 1).
Proof.
  destruct (decide (si < Z.of_nat (length slots))) as [Hlt | Hge].
  - unfold unblockedFrom. apply unblockedIn_cons. lia.
  - rewrite !unblockedFrom_ge by lia.
    assert (isFree slots si = false) as ->; [| done].
    unfold isFree. by rewrite (proj2 (at_None slots si)) by lia.
Qed.

Lemma unblockedFrom_head (slots : list Slot) (si i : Z) (rest : list Z) :
  unblockedFrom slots si = i :: rest →
  si ≤ i ∧ isFree slots i = true ∧
  unblockedFrom slots i = i :: rest ∧ unblockedFrom slots (i + 1) = rest.
Proof.
  intros Hu.
  assert (i ∈ unblockedFrom slots si) as Hin by (rewrite Hu; left).
  apply elem_of_unblockedIn in Hin as [[Hsi Hlen] (s & Hs & Hb)].
  assert (isFree slots i = true) as Hfree by (unfold isFree; by rewrite Hs, Hb).
  assert (∀ k : nat, ∀ si, i - si = Z.of_nat k → unblockedFrom slots si = i :: rest →
            unblockedFrom slots i = i :: rest) as Hind.
  { induction k as [| k IH]; intros si' Hk Hu'.
    - by assert (si' = i) as -> by lia.
    - rewrite unblockedFrom_step in Hu'.
      destruct (isFree slots si') eqn:Hf; simpl in Hu'.
      + injection Hu' as ? _. lia.
      + apply (IH (si' + 1)); [lia | done]. }
  assert (unblockedFrom slots i = i :: rest) as Hi
    by (apply (Hind (Z.to_nat (i - si)) si); [lia | done]).
  split_and!; try done.
  rewrite unblockedFrom_step, Hfree in Hi. simpl in Hi. by injection Hi.
Qed.

Lemma skipBlocked_one (w : World) (fuel : nat) (si : Z) :
  0 ≤ si → Z.of_nat (length (slots_ w)) - si ≤ Z.of_nat fuel →
  skipBlocked fuel 1 w si =
  match unblockedFrom (slots_ w) si with
  | i :: _ => Done i
  | [] => Undefined SlotOutOfRange
  end.
Proof.
  revert si. induction fuel as [| fuel IH]; intros si Hsi Hfuel.
  - rewrite unblockedFrom_ge by lia.
    cbn [skipBlocked]. unfold getSlot.
    by rewrite (proj2 (at_None (slots_ w) si)) by lia.
  - cbn [skipBlocked]. rewrite unblockedFrom_step. unfold isFree.
    destruct (at_ (slots_ w) si) as [s |] eqn:Hs.
    + rewrite (proj2 (getSlot_Done _ _ _) Hs), Done_bind.
      destruct (blocked s); simpl; [| done]. apply IH; lia.
    + unfold getSlot. rewrite Hs. simpl.
      apply at_None in Hs. rewrite unblockedFrom_ge by lia. done.
Qed.

Lemma unblockedFrom_same_blocked (slots slots' : list Slot) (si : Z) :
  blocked <$> slots' = blocked <$> slots →
  unblockedFrom slots' si = unblockedFrom slots si.
Proof.
  intros Hb. unfold unblockedFrom, unblockedIn.
  assert (length slots' = length slots) as ->.
  { by rewrite <- (length_fmap blocked slots'), Hb, length_fmap. }
  apply list_filter_iff. intros i. unfold isFree, at_.
  case_decide; [| done].
  assert (blocked <$> (slots' !! Z.to_nat i) = blocked <$> (slots !! Z.to_nat i)) as Hi
    by (by rewrite <- !list_lookup_fmap, Hb).
  destruct (slots' !! Z.to_nat i), (slots !! Z.to_nat i); simpl in Hi; try done.
  injection Hi as ->. done.
Qed.

(** ** getSlotIdxByPosition *)

Lemma findSlot_spec (l : list Slot) (k : Z) (position : Point) (lay : Z) :
  0 ≤ k →
  (findSlot l k position lay = -1 ∧
   Forall (λ s, ¬ (pos s = position ∧ layer s = lay)) l) ∨
  (∃ s, let j := findSlot l k position lay in
        k ≤ j < k + Z.of_nat (length l) ∧ l !! Z.to_nat (j - k) = Some s ∧
        pos s = position ∧ layer s = lay).
Proof.
  revert k. induction l as [| s l IH]; intros k Hk; simpl.
  - left. split; [done | constructor].
  - destruct (bool_decide (pos s = position)) eqn:Hp;
      destruct (layer s =? lay) eqn:Hl; simpl.
    + right. exists s. apply bool_decide_eq_true in Hp. apply Z.eqb_eq in Hl.
      replace (Z.to_nat (k - k)) with 0%nat by lia. split_and!; (done || lia).
    + apply Z.eqb_neq in Hl.
      destruct (IH (k + 1)) as [[Hn Hall] | (s' & Hj & Hs' & Hps & Hls)]; [lia | |].
      * left. split; [done |]. constructor; [tauto | done].
      * right. exists s'. split_and!; try done; try lia.
        replace (Z.to_nat (findSlot l (k + 1) position lay - k))
          with (S (Z.to_nat (findSlot l (k + 1) position lay - (k + 1)))) by lia.
        done.
    + apply bool_decide_eq_false in Hp.
      destruct (IH (k + 1)) as [[Hn Hall] | (s' & Hj & Hs' & Hps & Hls)]; [lia | |].
      * left. split; [done |]. constructor; [tauto | done].
      * right. exists s'. split_and!; try done; try lia.
        replace (Z.to_nat (findSlot l (k + 1) position lay - k))
          with (S (Z.to_nat (findSlot l (k + 1) position lay - (k + 1)))) by lia.
        done.
    + apply bool_decide_eq_false in Hp.
      destruct (IH (k + 1)) as [[Hn Hall] | (s' & Hj & Hs' & Hps & Hls)]; [lia | |].
      * left. split; [done |]. constructor; [tauto | done].
      * right. exists s'. split_and!; try done; try lia.
        replace (Z.to_nat (findSlot l (k + 1) position lay - k))
          with (S (Z.to_nat (findSlot l (k + 1) position lay - (k + 1)))) by lia.
        done.
Qed.

Lemma getSlotIdxByPosition_spec (w : World) (position : Point) (lay : Z) :
  (getSlotIdxByPosition w position lay = -1 ∧
   Forall (λ s, ¬ (pos s = position ∧ layer s = lay)) (slots_ w)) ∨
  (∃ s, 0 ≤ getSlotIdxByPosition w position lay ∧
        at_ (slots_ w) (getSlotIdxByPosition w position lay) = Some s ∧
        pos s = position ∧ layer s = lay).
Proof.
  unfold getSlotIdxByPosition.
  destruct (findSlot_spec (slots_ w) 0 position lay) as [H | (s & Hj & Hs & Hp & Hl)];
    [done | by left |].
  right. exists s. split_and!; try done; try lia.
  apply at_Some. split; [lia |]. by rewrite Z.sub_0_r in Hs.
Qed.


(** ** placePin *)

Section Placement.

Variable mirror : Point → Point.
Variable idxOf : BTerm → Z.

Lemma placePin_None (idx i : Z) (w : World) (p : IOPin) (s : Slot) :
  at_ (io_pins_ w) idx = Some p → at_ (slots_ w) i = Some s →
  placePin mirror idxOf None idx i w = Done (afterPlace w idx i p s).
Proof.
  intros Hp Hs. unfold placePin.
  rewrite (proj2 (getIoPin_Done _ _ _) Hp), Done_bind.
  rewrite (proj2 (getSlot_Done _ _ _) Hs), Done_bind. done.
Qed.

Lemma afterPlace_pin (idx i : Z) (w : World) (p : IOPin) (s : Slot) :
  at_ (io_pins_ w) idx = Some p →
  at_ (io_pins_ (afterPlace w idx i p s)) idx = Some (placedPin p s).
Proof. intros Hp. simpl. by eapply at_upd_eq. Qed.

Lemma afterPlace_slot (idx i : Z) (w : World) (p : IOPin) (s : Slot) :
  at_ (slots_ w) i = Some s →
  at_ (slots_ (afterPlace w idx i p s)) i = Some (setUsed s).
Proof. intros Hs. simpl. by eapply at_upd_eq. Qed.

Lemma placePin_Some (m : BTerm) (idx i : Z) (w : World) (p pb : IOPin) (s : Slot) :
  at_ (io_pins_ w) idx = Some p → at_ (slots_ w) i = Some s →
  at_ (io_pins_ (afterPlace w idx i p s)) (idxOf m) = Some pb →
  placePin mirror idxOf (Some m) idx i w =
  let w1 := afterPlace w idx i p s in
  let mirrored_pos := mirror (pos s) in
  let pb' := mirroredPin pb mirrored_pos s in
  let w2 := afterMirror w1 (idxOf m) pb' in
  let j := getSlotIdxByPosition w2 mirrored_pos (layer s) in
  if j <? 0 then
    Raise (logEvent w2 (Error82 (getX mirrored_pos) (getY mirrored_pos) (layer s)))
  else
    s_j ← getSlot w2 j; Done (setSlot w2 j (setUsed s_j)).
Proof.
  intros Hp Hs Hpb. unfold placePin.
  rewrite (proj2 (getIoPin_Done _ _ _) Hp), Done_bind.
  rewrite (proj2 (getSlot_Done _ _ _) Hs), Done_bind.
  fold (placedPin p s). fold (afterPlace w idx i p s).
  rewrite (proj2 (getIoPin_Done _ _ _) Hpb), Done_bind.
  rewrite (proj2 (getIoPin_Done _ _ _) (afterPlace_pin idx i w p s Hp)), Done_bind.
  rewrite (proj2 (getSlot_Done _ _ _) (afterPlace_slot idx i w p s Hs)), Done_bind.
  done.
Qed.

Lemma skipBlocked_Done (fuel : nat) (stride : Z) (w : World) (si i : Z) :
  skipBlocked fuel stride w si = Done i →
  ∃ s, at_ (slots_ w) i = Some s ∧ blocked s = false.
Proof.
  revert si. induction fuel as [| fuel IH]; intros si; cbn [skipBlocked];
    intros (s & Hs & H)%bind_Done; apply getSlot_Done in Hs;
    destruct (blocked s) eqn:Hb; try done.
  - injection H as <-. eauto.
  - by eapply IH.
  - injection H as <-. eauto.
Qed.

Lemma skipBlocked_no_Raise (fuel : nat) (stride : Z) (w : World) (si : Z) (w' : World) :
  skipBlocked fuel stride w si ≠ Raise w'.
Proof.
  revert si. induction fuel as [| fuel IH]; intros si; cbn [skipBlocked];
    unfold getSlot; destruct (at_ (slots_ w) si) as [s |]; simpl; try done;
    destruct (blocked s); try done.
Qed.

Lemma sameCore_refl (w : World) : sameCore w w.
Proof. done. Qed.

Lemma sameCore_trans (w1 w2 w3 : World) :
  sameCore w1 w2 → sameCore w2 w3 → sameCore w1 w3.
Proof. unfold sameCore. intros (-> & -> & ->) (-> & -> & ->). done. Qed.

Lemma sameCore_warned (w : World) (p : IOPin) (cost : Z) : sameCore w (warned w p cost).
Proof. unfold warned. by destruct (cost =? hungarian_fail). Qed.

(** Every run of the row loop either leaves pins, slots and output as they
    are (the pin is skipped by the guard, or no row is assigned to its
    column), or leaves the defined behaviour, or ends in the placement of
    the pin on an unblocked slot, after the warning of the matched row. *)
Lemma rowLoop_cases (hm : HungarianMatching) (am : bool) (mp : gmap BTerm BTerm)
    (idx : Z) (col n row : nat) (si : Z) (w : World) :
  (∃ w', rowLoop mirror idxOf hm am mp idx col n row si w = Done w' ∧ sameCore w w' ∧
     ((∃ p, at_ (io_pins_ w) idx = Some p ∧ skipPin am mp p = true) ∨
      (∀ r, (row ≤ r < row + n)%nat → assignment_ hm !! r ≠ Some (Z.of_nat col)))) ∨
  (∃ f, rowLoop mirror idxOf hm am mp idx col n row si w = Undefined f) ∨
  (∃ i w1 p s r cells cost,
     sameCore w w1 ∧ at_ (io_pins_ w) idx = Some p ∧ skipPin am mp p = false ∧
     at_ (slots_ w) i = Some s ∧ blocked s = false ∧
     (row ≤ r < row + n)%nat ∧
     assignment_ hm !! r = Some (Z.of_nat col) ∧
     hungarian_matrix_ hm !! r = Some cells ∧ cells !! col = Some cost ∧
     rowLoop mirror idxOf hm am mp idx col n row si w =
       placePin mirror idxOf (if am then mp !! getBTerm p else None) idx i
         (warned w1 p cost)).
Proof.
  revert row si w. induction n as [| n IH]; intros row si w.
  { left. eexists. split_and!; [done | apply sameCore_refl |]. right. intros r. lia. }
  cbn [rowLoop].
  destruct (skipBlocked (length (slots_ w)) 1 w si) as [i | wr | f] eqn:Hskip;
    [| by apply skipBlocked_no_Raise in Hskip | right; left; by eexists].
  rewrite Done_bind. apply skipBlocked_Done in Hskip as (s & Hs & Hb).
  destruct (assignment_ hm !! row) as [a |] eqn:Ha; [| right; left; by eexists].
  simpl orFault. rewrite Done_bind.
  destruct (Z.eqb_spec a (Z.of_nat col)) as [-> | Hne]; simpl negb; cbv iota.
  2:{ destruct (IH (S row) (i + 1) w)
        as [(w' & -> & Hsame & Hwhy) | [(f & ->) |
            (i' & w1 & p' & s' & r' & cells' & c' & Hsame & Hp' & Hsk' & Hs' & Hb' & Hr' & Ha' & Hm' & Hc' & ->)]].
      - left. eexists. split_and!; try done.
        destruct Hwhy as [Hskp | Hnone]; [by left | right].
        intros r Hr. destruct (decide (r = row)) as [-> | Hrr].
        + rewrite Ha. congruence.
        + apply Hnone. lia.
      - right; left. by eexists.
      - right; right. exists i', w1, p', s', r', cells', c'. split_and!; try done; lia. }
  destruct (hungarian_matrix_ hm !! row) as [cells |] eqn:Hcells;
    [| right; left; by eexists].
  simpl orFault. rewrite Done_bind.
  destruct (cells !! col) as [cost |] eqn:Hcost; [| right; left; by eexists].
  simpl orFault. rewrite Done_bind.
  destruct (at_ (io_pins_ w) idx) as [p |] eqn:Hp.
  2:{ right; left. rewrite (getIoPin_None _ _ Hp). by eexists. }
  rewrite (proj2 (getIoPin_Done _ _ _) Hp), Done_bind.
  fold (warned w p cost).
  destruct (skipPin am mp p) eqn:Hskp.
  - destruct (sameCore_warned w p cost) as (Hsl & Hpi & Has).
    destruct (IH (S row) i (warned w p cost))
      as [(w' & -> & Hsame & _) | [(f & ->) |
          (i' & w1 & p' & s' & r' & cells' & c' & Hsame & Hp' & Hsk' & Hs' & Hb' & Hr' & Ha' & Hm' & Hc' & ->)]].
    + left. eexists. split_and!; [done | | left; eauto].
      eapply sameCore_trans; [apply sameCore_warned | done].
    + right; left. by eexists.
    + rewrite Hpi, Hp in Hp'. injection Hp' as <-. congruence.
  - right; right. exists i, w, p, s, row, cells, cost.
    split_and!; try done; lia.
Qed.

(** The row loop of a pin that is not skipped reaches the first row
    assigned to its column, on the unblocked slot of that rank, and places
    the pin there. *)
Lemma rowLoop_place (hm : HungarianMatching) (am : bool) (mp : gmap BTerm BTerm)
    (idx : Z) (col n row : nat) (si : Z) (w : World)
    (r : nat) (i : Z) (p : IOPin) (cells : list Z) (cost : Z) :
  0 ≤ si →
  (row ≤ r < row + n)%nat →
  (∀ r' a, (row ≤ r' < r)%nat → assignment_ hm !! r' = Some a → a ≠ Z.of_nat col) →
  assignment_ hm !! r = Some (Z.of_nat col) →
  unblockedFrom (slots_ w) si !! (r - row)%nat = Some i →
  hungarian_matrix_ hm !! r = Some cells → cells !! col = Some cost →
  at_ (io_pins_ w) idx = Some p → skipPin am mp p = false →
  rowLoop mirror idxOf hm am mp idx col n row si w =
    placePin mirror idxOf (if am then mp !! getBTerm p else None) idx i
      (warned w p cost).
Proof.
  intros Hsi Hr Hbefore Hmatch Hi Hcells Hcost Hp Hskip.
  revert row si Hsi Hr Hbefore Hi. induction n as [| n IH]; intros row si Hsi Hr Hbefore Hi;
    [lia |].
  cbn [rowLoop]. rewrite skipBlocked_one by lia.
  destruct (unblockedFrom (slots_ w) si) as [| i0 rest] eqn:Hu; [done |].
  apply unblockedFrom_head in Hu as (Hle & Hfree & Hu0 & Hrest).
  rewrite Done_bind.
  destruct (decide (r = row)) as [-> | Hne].
  - rewrite Nat.sub_diag in Hi. injection Hi as ->.
    rewrite Hmatch. simpl orFault. rewrite Done_bind, Z.eqb_refl. simpl negb. cbv iota.
    rewrite Hcells. simpl orFault. rewrite Done_bind.
    rewrite Hcost. simpl orFault. rewrite Done_bind.
    rewrite (proj2 (getIoPin_Done _ _ _) Hp), Done_bind.
    fold (warned w p cost). by rewrite Hskip.
  - assert (is_Some (assignment_ hm !! row)) as [a Ha].
    { apply lookup_lt_is_Some. apply lookup_lt_Some in Hmatch. lia. }
    rewrite Ha. simpl orFault. rewrite Done_bind.
    assert (a ≠ Z.of_nat col) as Hacol by (eapply Hbefore; [| done]; lia).
    apply Z.eqb_neq in Hacol. rewrite Hacol. simpl negb. cbv iota.
    apply IH; [lia | lia | |].
    + intros r' a' Hr'. apply Hbefore. lia.
    + rewrite Hrest. replace (r - row)%nat with (S (r - S row)) in Hi by lia. done.
Qed.

End Placement.

(** ** The ungrouped materializer *)

Lemma matchedRow_Some (l : list Z) (col r : nat) :
  matchedRow l col = Some r ↔
  l !! r = Some (Z.of_nat col) ∧
  ∀ r' a, (r' < r)%nat → l !! r' = Some a → a ≠ Z.of_nat col.
Proof.
  unfold matchedRow. split.
  - intros ([r0 a] & Hfind & [= <-])%fmap_Some.
    apply list_find_Some in Hfind as (Hr & -> & Hbefore). naive_solver.
  - intros [Hr Hbefore]. apply fmap_Some. exists (r, Z.of_nat col). split; [| done].
    apply list_find_Some. naive_solver.
Qed.


Lemma blocked_setUsed (slots : list Slot) (i : Z) (s : Slot) :
  at_ slots i = Some s →
  blocked <$> upd slots i (setUsed s) = blocked <$> slots.
Proof.
  intros [Hi Hs]%at_Some. unfold upd. rewrite list_fmap_insert.
  apply list_insert_id. by rewrite list_lookup_fmap, Hs.
Qed.

Section Materializer.

Variable mirror : Point → Point.
Variable idxOf : BTerm → Z.


Lemma placePin_Some_None (m : BTerm) (idx i : Z) (w : World) (p : IOPin) (s : Slot) :
  at_ (io_pins_ w) idx = Some p → at_ (slots_ w) i = Some s →
  at_ (io_pins_ (afterPlace w idx i p s)) (idxOf m) = None →
  placePin mirror idxOf (Some m) idx i w = Undefined PinOutOfRange.
Proof.
  intros Hp Hs Hpb. unfold placePin.
  rewrite (proj2 (getIoPin_Done _ _ _) Hp), Done_bind.
  rewrite (proj2 (getSlot_Done _ _ _) Hs), Done_bind.
  fold (placedPin p s). fold (afterPlace w idx i p s).
  by rewrite (getIoPin_None _ _ Hpb).
Qed.

(** The placement of a pin and its partner, when it returns. *)
Lemma placePin_Some_Done (m : BTerm) (idx i : Z) (w w' : World) (p : IOPin) (s : Slot) :
  at_ (io_pins_ w) idx = Some p → at_ (slots_ w) i = Some s →
  placePin mirror idxOf (Some m) idx i w = Done w' →
  ∃ pb sj j,
    at_ (io_pins_ (afterPlace w idx i p s)) (idxOf m) = Some pb ∧
    let w2 := afterMirror (afterPlace w idx i p s) (idxOf m)
                (mirroredPin pb (mirror (pos s)) s) in
    j = getSlotIdxByPosition w2 (mirror (pos s)) (layer s) ∧
    at_ (slots_ w2) j = Some sj ∧ pos sj = mirror (pos s) ∧ layer sj = layer s ∧
    w' = setSlot w2 j (setUsed sj).
Proof.
  intros Hp Hs Hrun.
  destruct (at_ (io_pins_ (afterPlace w idx i p s)) (idxOf m)) as [pb |] eqn:Hpb.
  2:{ by rewrite (placePin_Some_None m idx i w p s) in Hrun. }
  rewrite (placePin_Some mirror idxOf m idx i w p pb s) in Hrun by done. cbv zeta in Hrun.
  set (w2 := afterMirror _ _ _) in *.
  destruct (getSlotIdxByPosition_spec w2 (mirror (pos s)) (layer s))
    as [[Hj _] | (sj & Hj & Hsj & Hps & Hls)].
  - by rewrite Hj in Hrun.
  - destruct (Z.ltb_spec (getSlotIdxByPosition w2 (mirror (pos s)) (layer s)) 0); [lia |].
    rewrite (proj2 (getSlot_Done _ _ _) Hsj), Done_bind in Hrun.
    injection Hrun as <-. by exists pb, sj, (getSlotIdxByPosition w2 (mirror (pos s)) (layer s)).
Qed.

(** The placement of a pin and its partner, when the logger throws. *)
Lemma placePin_Some_Raise (m : BTerm) (idx i : Z) (w w' : World) (p : IOPin) (s : Slot) :
  at_ (io_pins_ w) idx = Some p → at_ (slots_ w) i = Some s →
  placePin mirror idxOf (Some m) idx i w = Raise w' →
  ∃ pb,
    at_ (io_pins_ (afterPlace w idx i p s)) (idxOf m) = Some pb ∧
    let w2 := afterMirror (afterPlace w idx i p s) (idxOf m)
                (mirroredPin pb (mirror (pos s)) s) in
    Forall (λ s', ¬ (pos s' = mirror (pos s) ∧ layer s' = layer s)) (slots_ w2) ∧
    w' = logEvent w2 (Error82 (getX (mirror (pos s))) (getY (mirror (pos s))) (layer s)).
Proof.
  intros Hp Hs Hrun.
  destruct (at_ (io_pins_ (afterPlace w idx i p s)) (idxOf m)) as [pb |] eqn:Hpb.
  2:{ by rewrite (placePin_Some_None m idx i w p s) in Hrun. }
  rewrite (placePin_Some mirror idxOf m idx i w p pb s) in Hrun by done. cbv zeta in Hrun.
  set (w2 := afterMirror _ _ _) in *.
  destruct (getSlotIdxByPosition_spec w2 (mirror (pos s)) (layer s))
    as [[Hj Hall] | (sj & Hj & Hsj & Hps & Hls)].
  - rewrite Hj in Hrun. simpl in Hrun. injection Hrun as <-. by exists pb.
  - destruct (Z.ltb_spec (getSlotIdxByPosition w2 (mirror (pos s)) (layer s)) 0); [lia |].
    by rewrite (proj2 (getSlot_Done _ _ _) Hsj), Done_bind in Hrun.
Qed.

End Materializer.

Section UngroupedPass.

Variable mirror : Point → Point.
Variable idxOf : BTerm → Z.

(** The row loop as [getFinalAssignment] calls it, for a pin that is not
    skipped and whose column the solver assigned to row [r]. *)
Lemma rowLoop_matched (hm : HungarianMatching) (am : bool) (mp : gmap BTerm BTerm)
    (idx : Z) (col : nat) (w : World) (r : nat) (i : Z) (p : IOPin)
    (cells : list Z) (cost : Z) :
  0 ≤ begin_slot_ hm →
  (r < size_t_of_int (non_blocked_slots_ hm))%nat →
  matchedRow (assignment_ hm) col = Some r →
  unblockedFrom (slots_ w) (begin_slot_ hm) !! r = Some i →
  hungarian_matrix_ hm !! r = Some cells → cells !! col = Some cost →
  at_ (io_pins_ w) idx = Some p → skipPin am mp p = false →
  rowLoop mirror idxOf hm am mp idx col (size_t_of_int (non_blocked_slots_ hm)) 0
    (begin_slot_ hm) w =
  placePin mirror idxOf (if am then mp !! getBTerm p else None) idx i (warned w p cost).
Proof.
  intros Hb Hr [Hmatch Hbefore]%matchedRow_Some Hi Hcells Hcost Hp Hskip.
  eapply rowLoop_place; try done.
  - lia.
  - intros r' a [_ Hr']. by apply Hbefore.
  - by rewrite Nat.sub_0_r.
Qed.


Lemma findSlot_none (l : list Slot) (k : Z) (position : Point) (lay : Z) :
  Forall (λ s, ¬ (pos s = position ∧ layer s = lay)) l →
  findSlot l k position lay = -1.
Proof.
  revert k. induction l as [| s l IH]; intros k Hall; [done |].
  apply Forall_cons in Hall as [Hs Hall]. simpl.
  destruct (bool_decide (pos s = position)) eqn:Hp;
    destruct (layer s =? lay) eqn:Hl; simpl; try by apply IH.
  apply bool_decide_eq_true in Hp. apply Z.eqb_eq in Hl. tauto.
Qed.


End UngroupedPass.

(** ** What a run preserves *)

Lemma pinKept_refl (p : IOPin) : pinKept p p.
Proof. done. Qed.

Lemma pinKept_trans (p1 p2 p3 : IOPin) : pinKept p1 p2 → pinKept p2 p3 → pinKept p1 p3.
Proof. unfold pinKept. intros (-> & -> & ?) (-> & -> & ?). auto. Qed.

Lemma evolves_refl (w : World) : evolves w w.
Proof. split_and!; try done. intros idx p Hp. exists p. split; [done | apply pinKept_refl]. Qed.

Lemma evolves_trans (w1 w2 w3 : World) : evolves w1 w2 → evolves w2 w3 → evolves w1 w3.
Proof.
  intros (Hb1 & Hl1 & Hp1) (Hb2 & Hl2 & Hp2). split_and!; try congruence.
  intros idx p Hp. destruct (Hp1 idx p Hp) as (p' & Hp' & Hk).
  destruct (Hp2 idx p' Hp') as (p'' & Hp'' & Hk'). exists p''.
  split; [done |]. by eapply pinKept_trans.
Qed.

Lemma sameCore_evolves (w w' : World) : sameCore w w' → evolves w w'.
Proof.
  intros (Hs & Hp & _). unfold evolves. rewrite Hs, Hp. apply evolves_refl.
Qed.

Lemma evolves_setIoPin (w : World) (idx : Z) (p p' : IOPin) :
  at_ (io_pins_ w) idx = Some p → pinKept p p' → evolves w (setIoPin w idx p').
Proof.
  intros Hp Hk. split_and!; [done | apply length_upd |].
  intros j q Hq. simpl. rewrite (at_upd _ idx j p' p Hp).
  case_decide as Hij.
  - subst j. rewrite Hp in Hq. injection Hq as <-. eauto.
  - exists q. split; [done | apply pinKept_refl].
Qed.

Lemma evolves_setUsed (w : World) (i : Z) (s : Slot) :
  at_ (slots_ w) i = Some s → evolves w (setSlot w i (setUsed s)).
Proof.
  intros Hs. split_and!; [by apply blocked_setUsed | done |].
  intros j q Hq. exists q. split; [done | apply pinKept_refl].
Qed.

Lemma evolves_push_back (w : World) (p : IOPin) : evolves w (push_back w p).
Proof.
  split_and!; try done. intros j q Hq. exists q. split; [done | apply pinKept_refl].
Qed.

Lemma evolves_afterPlace (w : World) (idx i : Z) (p : IOPin) (s : Slot) :
  at_ (io_pins_ w) idx = Some p → at_ (slots_ w) i = Some s →
  evolves w (afterPlace w idx i p s).
Proof.
  intros Hp Hs. unfold afterPlace.
  eapply evolves_trans; [by apply (evolves_setIoPin w idx p (placedPin p s)) |].
  eapply evolves_trans; [apply evolves_push_back |].
  by apply evolves_setUsed.
Qed.

Section Preservation.

Variable mirror : Point → Point.
Variable idxOf : BTerm → Z.

Lemma placePin_evolves (partner : option BTerm) (idx i : Z) (w w' : World)
    (p : IOPin) (s : Slot) :
  at_ (io_pins_ w) idx = Some p → at_ (slots_ w) i = Some s →
  placePin mirror idxOf partner idx i w = Done w' → evolves w w'.
Proof.
  intros Hp Hs Hrun. destruct partner as [m |].
  - apply (placePin_Some_Done mirror idxOf m idx i w w' p s Hp Hs) in Hrun
      as (pb & sj & j & Hpb & Hj & Hsj & _ & _ & ->).
    eapply evolves_trans; [by apply evolves_afterPlace |].
    eapply evolves_trans.
    { apply (evolves_setIoPin _ (idxOf m) pb (mirroredPin pb (mirror (pos s)) s));
        [done | by split_and!]. }
    eapply evolves_trans; [apply evolves_push_back |].
    by apply evolves_setUsed.
  - rewrite (placePin_None mirror idxOf idx i w p s Hp Hs) in Hrun.
    injection Hrun as <-. by apply evolves_afterPlace.
Qed.

Lemma placePin_placed (partner : option BTerm) (idx i : Z) (w w' : World)
    (p : IOPin) (s : Slot) :
  at_ (io_pins_ w) idx = Some p → at_ (slots_ w) i = Some s →
  placePin mirror idxOf partner idx i w = Done w' →
  ∃ p', at_ (io_pins_ w') idx = Some p' ∧ isPlaced p' = true.
Proof.
  intros Hp Hs Hrun. destruct partner as [m |].
  - apply (placePin_Some_Done mirror idxOf m idx i w w' p s Hp Hs) in Hrun
      as (pb & sj & j & Hpb & Hj & Hsj & _ & _ & ->).
    simpl. rewrite (at_upd _ (idxOf m) idx _ pb Hpb). case_decide.
    + eauto.
    + exists (placedPin p s). split; [| done]. by eapply at_upd_eq.
  - rewrite (placePin_None mirror idxOf idx i w p s Hp Hs) in Hrun.
    injection Hrun as <-. exists (placedPin p s). split; [| done].
    simpl. by eapply at_upd_eq.
Qed.

Lemma rowLoop_evolves (hm : HungarianMatching) (am : bool) (mp : gmap BTerm BTerm)
    (idx : Z) (col n row : nat) (si : Z) (w w' : World) :
  rowLoop mirror idxOf hm am mp idx col n row si w = Done w' → evolves w w'.
Proof.
  intros Hrun.
  destruct (rowLoop_cases mirror idxOf hm am mp idx col n row si w)
    as [(w'' & Hrun' & Hsame & _) | [(f & Hrun') |
        (i & w1 & p & s & r & cells & cost & Hsame & Hp & Hskip & Hs & Hb & _ & Ha & Hcells & Hcost & Hrun')]];
    rewrite Hrun in Hrun'; try done.
  - injection Hrun' as <-. by apply sameCore_evolves.
  - pose proof (sameCore_trans _ _ _ Hsame (sameCore_warned w1 p cost)) as Hsame'.
    eapply evolves_trans; [by apply sameCore_evolves |].
    destruct Hsame' as (Hsl & Hpi & _).
    eapply placePin_evolves; [| | by symmetry]; [by rewrite Hpi | by rewrite Hsl].
Qed.

Lemma skipPin_kept (am : bool) (mp : gmap BTerm BTerm) (p p' : IOPin) :
  pinKept p p' → skipPin am mp p = true → skipPin am mp p' = true.
Proof.
  intros (Hb & _ & Hpl). unfold skipPin. rewrite Hb.
  destruct (am && bool_decide (mp !! getBTerm p = None)); [done |]. simpl. auto.
Qed.

Lemma settled_evolves (hm : HungarianMatching) (am : bool) (mp : gmap BTerm BTerm)
    (idx : Z) (col row n : nat) (w w' : World) :
  evolves w w' → settled hm am mp idx col row n w → settled hm am mp idx col row n w'.
Proof.
  intros (_ & _ & Hpins) [(p & Hp & Hskip) | Hnone]; [left | by right].
  destruct (Hpins idx p Hp) as (p' & Hp' & Hk). exists p'.
  split; [done |]. by eapply skipPin_kept.
Qed.

Lemma allSettled_evolves (hm : HungarianMatching) (am : bool) (mp : gmap BTerm BTerm)
    (idxs : list Z) (col : nat) (w w' : World) :
  evolves w w' → allSettled hm am mp idxs col w → allSettled hm am mp idxs col w'.
Proof.
  intros Hev. revert col. induction idxs as [| idx idxs IH]; intros col; [done |].
  simpl. intros (p & Hp & H).
  destruct Hev as (Hb & Hl & Hpins). destruct (Hpins idx p Hp) as (p' & Hp' & Hk).
  exists p'. split; [done |]. destruct Hk as (_ & -> & _).
  destruct (isInGroup p).
  - by apply IH.
  - destruct H as [Hs Hrest]. split; [| by apply IH].
    eapply settled_evolves; [| done]. by split_and!.
Qed.

(** After its own row loop a pin is settled. *)
Lemma rowLoop_settles (hm : HungarianMatching) (am : bool) (mp : gmap BTerm BTerm)
    (idx : Z) (col n row : nat) (si : Z) (w w' : World) :
  rowLoop mirror idxOf hm am mp idx col n row si w = Done w' →
  settled hm am mp idx col row n w'.
Proof.
  intros Hrun.
  destruct (rowLoop_cases mirror idxOf hm am mp idx col n row si w)
    as [(w'' & Hrun' & Hsame & Hwhy) | [(f & Hrun') |
        (i & w1 & p & s & r & cells & cost & Hsame & Hp & Hskip & Hs & Hb & _ & Ha & Hcells & Hcost & Hrun')]];
    rewrite Hrun in Hrun'; try done.
  - injection Hrun' as <-. destruct Hsame as (_ & Hpi & _).
    destruct Hwhy as [Hskp | Hnone]; [left | by right]. by rewrite Hpi.
  - left. destruct (sameCore_trans _ _ _ Hsame (sameCore_warned w1 p cost)) as (Hsl & Hpi & _).
    symmetry in Hrun'.
    apply (placePin_placed _ idx i _ w' p s) in Hrun' as (p' & Hp' & Hpl);
      [| by rewrite Hpi | by rewrite Hsl].
    exists p'. split; [done |]. unfold skipPin. rewrite Hpl. apply orb_true_r.
Qed.

Lemma pinLoop_settles (hm : HungarianMatching) (am : bool) (mp : gmap BTerm BTerm)
    (idxs : list Z) (col col' : nat) (w w' : World) :
  pinLoop mirror idxOf hm am mp idxs (col, w) = Done (col', w') →
  evolves w w' ∧ allSettled hm am mp idxs col w'.
Proof.
  revert col w. induction idxs as [| idx idxs IH]; intros col w Hrun.
  - injection Hrun as <- <-. split; [apply evolves_refl | done].
  - cbn [pinLoop] in Hrun. simpl fst in Hrun. simpl snd in Hrun.
    apply bind_Done in Hrun as (p & Hp & Hrun). apply getIoPin_Done in Hp.
    destruct (isInGroup p) eqn:Hgrp.
    + destruct (IH _ _ Hrun) as [Hev Hall]. split; [done |].
      destruct Hev as (Hb & Hl & Hpins). destruct (Hpins idx p Hp) as (p' & Hp' & Hk).
      simpl. exists p'. split; [done |]. destruct Hk as (_ & -> & _). by rewrite Hgrp.
    + apply bind_Done in Hrun as (wa & Hrow & Hrun).
      destruct (IH _ _ Hrun) as [Hev Hall].
      pose proof (rowLoop_evolves _ _ _ _ _ _ _ _ _ _ Hrow) as Hev1.
      split; [by eapply evolves_trans |].
      destruct (evolves_trans _ _ _ Hev1 Hev) as (Hb & Hl & Hpins).
      destruct (Hpins idx p Hp) as (p' & Hp' & Hk).
      simpl. exists p'. split; [done |]. destruct Hk as (_ & -> & _). rewrite Hgrp.
      split; [| done]. eapply settled_evolves; [exact Hev |].
      by eapply rowLoop_settles.
Qed.

End Preservation.

(** ** Running the materializer again *)

Section Rerun.

Variable mirror : Point → Point.
Variable idxOf : BTerm → Z.

(** The row loop of a settled pin returns and changes nothing but the log. *)
Lemma rowLoop_settled_run (hm : HungarianMatching) (am : bool) (mp : gmap BTerm BTerm)
    (idx : Z) (col n row : nat) (si : Z) (w : World) :
  settled hm am mp idx col row n w →
  0 ≤ si → (n ≤ length (unblockedFrom (slots_ w) si))%nat →
  (row + n ≤ length (assignment_ hm))%nat →
  (∀ r, (row ≤ r < row + n)%nat → assignment_ hm !! r = Some (Z.of_nat col) →
     ∃ cells cost, hungarian_matrix_ hm !! r = Some cells ∧ cells !! col = Some cost) →
  ∃ w', rowLoop mirror idxOf hm am mp idx col n row si w = Done w' ∧ sameCore w w'.
Proof.
  revert row si w. induction n as [| n IH]; intros row si w Hset Hsi Hn Hrows Hcells.
  { exists w. split; [done | apply sameCore_refl]. }
  cbn [rowLoop]. rewrite skipBlocked_one by lia.
  destruct (unblockedFrom (slots_ w) si) as [| i0 rest] eqn:Hu; [simpl in Hn; lia |].
  apply unblockedFrom_head in Hu as (Hle & Hfree & Hu0 & Hrest).
  rewrite Done_bind.
  assert (is_Some (assignment_ hm !! row)) as [a Ha]
    by (apply lookup_lt_is_Some; lia).
  rewrite Ha. simpl orFault. rewrite Done_bind.
  destruct (Z.eqb_spec a (Z.of_nat col)) as [-> | Hne]; simpl negb; cbv iota.
  - destruct Hset as [(p & Hp & Hskip) | Hnone]; [| by destruct (Hnone row); [lia |]].
    destruct (Hcells row) as (cells & cost & Hc1 & Hc2); [lia | done |].
    rewrite Hc1. simpl orFault. rewrite Done_bind.
    rewrite Hc2. simpl orFault. rewrite Done_bind.
    rewrite (proj2 (getIoPin_Done _ _ _) Hp), Done_bind.
    fold (warned w p cost). rewrite Hskip.
    destruct (sameCore_warned w p cost) as (Hsl & Hpi & Has).
    destruct (IH (S row) i0 (warned w p cost)) as (w' & Hrun & Hsame).
    + left. exists p. by rewrite Hpi.
    + lia.
    + rewrite Hsl, Hu0. simpl in *. lia.
    + lia.
    + intros r Hr. apply Hcells. lia.
    + exists w'. split; [done |].
      eapply sameCore_trans; [apply sameCore_warned | done].
  - apply IH.
    + destruct Hset as [Hskp | Hnone]; [by left | right].
      intros r Hr. apply Hnone. lia.
    + lia.
    + rewrite Hrest. simpl in Hn. lia.
    + lia.
    + intros r Hr. apply Hcells. lia.
Qed.

Lemma pinLoop_settled_run (hm : HungarianMatching) (am : bool) (mp : gmap BTerm BTerm)
    (idxs : list Z) (col : nat) (w : World) :
  allSettled hm am mp idxs col w → scanReady hm (slots_ w) → solved hm →
  ∃ col' w', pinLoop mirror idxOf hm am mp idxs (col, w) = Done (col', w')
             ∧ sameCore w w'.
Proof.
  intros Hall [Hb Hscan] [Hlen Hcells].
  revert col w Hall Hscan. induction idxs as [| idx idxs IH]; intros col w Hall Hscan.
  { exists col, w. split; [done | apply sameCore_refl]. }
  simpl in Hall. destruct Hall as (p & Hp & Hall).
  cbn [pinLoop]. simpl fst. simpl snd.
  rewrite (proj2 (getIoPin_Done _ _ _) Hp), Done_bind.
  destruct (isInGroup p); [by apply IH |].
  destruct Hall as [Hset Hall].
  destruct (rowLoop_settled_run hm am mp idx col (rowsOf hm) 0 (begin_slot_ hm) w)
    as (wa & Hrow & Hsame); try done.
  { intros r Hr. apply Hcells. lia. }
  unfold rowsOf in Hrow. rewrite Hrow, Done_bind.
  destruct Hsame as (Hsl & Hpi & Has).
  destruct (IH (S col) wa) as (col' & w' & Hrun & Hsame').
  - eapply allSettled_evolves; [| done]. apply sameCore_evolves. by split_and!.
  - by rewrite Hsl.
  - exists col', w'. split; [done |].
    eapply sameCore_trans; [| done]. by split_and!.
Qed.

(** C9.  When a run of [getFinalAssignment] has returned, a second run in
    the same mode over the same matrix and assignment returns as well and
    leaves every pin, every slot and the output vector as the first run left
    them: each pin keeps the slot it was given.  In any run, the row loop of
    a pin that is already placed, or that has no mirror partner in mirror
    mode, changes neither pins nor slots nor the output vector, and never
    ends in the fatal error. *)
Theorem rerun_idempotent (hm : HungarianMatching) (mp : gmap BTerm BTerm)
    (am : bool) (w w1 : World) :
  scanReady hm (slots_ w) → solved hm →
  getFinalAssignment mirror idxOf hm w mp am = Done w1 →
  (∃ w2, getFinalAssignment mirror idxOf hm w1 mp am = Done w2 ∧
         io_pins_ w2 = io_pins_ w1 ∧ slots_ w2 = slots_ w1 ∧
         assignment w2 = assignment w1) ∧
  (∀ idx col n row si w0 p,
     at_ (io_pins_ w0) idx = Some p →
     isPlaced p = true ∨ (am = true ∧ mp !! getBTerm p = None) →
     (∀ w', rowLoop mirror idxOf hm am mp idx col n row si w0 = Done w' →
        io_pins_ w' = io_pins_ w0 ∧ slots_ w' = slots_ w0 ∧
        assignment w' = assignment w0) ∧
     (∀ w', rowLoop mirror idxOf hm am mp idx col n row si w0 ≠ Raise w')).
Proof.
  intros Hscan Hsolved Hrun. split.
  - unfold getFinalAssignment in Hrun.
    apply bind_Done in Hrun as ([col1 w1'] & Hloop & [= <-]).
    apply pinLoop_settles in Hloop as [Hev Hall].
    destruct (pinLoop_settled_run hm am mp (pin_indices_ hm) 0 w1')
      as (col2 & w2 & Hloop2 & Hsl & Hpi & Has); try done.
    { destruct Hscan as [Hb Hrows]. split; [done |].
      destruct Hev as (Hbl & _ & _).
      by rewrite (unblockedFrom_same_blocked (slots_ w) (slots_ w1')). }
    exists w2. unfold getFinalAssignment. rewrite Hloop2. by split_and!.
  - intros idx col n row si w0 p Hp Hwhy.
    assert (skipPin am mp p = true) as Hskip.
    { unfold skipPin. destruct Hwhy as [-> | [-> ->]]; [apply orb_true_r | done]. }
    destruct (rowLoop_cases mirror idxOf hm am mp idx col n row si w0)
      as [(w'' & Hrun' & Hsame & _) | [(f & Hrun') |
          (i & w3 & p' & s & r & cells & cost & Hsame & Hp' & Hskip' & _)]].
    + split; intros w' Hw'; rewrite Hrun' in Hw'; [| done].
      injection Hw' as <-. destruct Hsame as (? & ? & ?). by split_and!.
    + split; intros w' Hw'; by rewrite Hrun' in Hw'.
    + rewrite Hp in Hp'. injection Hp' as <-. congruence.
Qed.

End Rerun.

(** ** Subscripts of the slot vector in the ungrouped materializer *)

Section UngroupedBounds.

Variable mirror : Point → Point.
Variable idxOf : BTerm → Z.

Lemma placePin_defined (partner : option BTerm) (idx i : Z) (w : World)
    (p : IOPin) (s : Slot) (f : Fault) :
  at_ (io_pins_ w) idx = Some p → at_ (slots_ w) i = Some s →
  placePin mirror idxOf partner idx i w = Undefined f → f = PinOutOfRange.
Proof.
  intros Hp Hs Hrun. destruct partner as [m |].
  - destruct (at_ (io_pins_ (afterPlace w idx i p s)) (idxOf m)) as [pb |] eqn:Hpb.
    + rewrite (placePin_Some mirror idxOf m idx i w p pb s Hp Hs Hpb) in Hrun.
      cbv zeta in Hrun.
      set (w2 := afterMirror _ _ _) in *.
      destruct (getSlotIdxByPosition_spec w2 (mirror (pos s)) (layer s))
        as [[Hj _] | (sj & Hj & Hsj & _)].
      * by rewrite Hj in Hrun.
      * destruct (Z.ltb_spec (getSlotIdxByPosition w2 (mirror (pos s)) (layer s)) 0);
          [lia |].
        by rewrite (proj2 (getSlot_Done _ _ _) Hsj), Done_bind in Hrun.
    + rewrite (placePin_Some_None mirror idxOf m idx i w p s Hp Hs Hpb) in Hrun.
      by injection Hrun.
  - by rewrite (placePin_None mirror idxOf idx i w p s Hp Hs) in Hrun.
Qed.

Lemma rowLoop_slots_ok (hm : HungarianMatching) (am : bool) (mp : gmap BTerm BTerm)
    (idx : Z) (col n row : nat) (si : Z) (w : World) (f : Fault) :
  0 ≤ si → (n ≤ length (unblockedFrom (slots_ w) si))%nat →
  rowLoop mirror idxOf hm am mp idx col n row si w = Undefined f →
  f ≠ SlotOutOfRange ∧ f ≠ Diverges.
Proof.
  revert row si w. induction n as [| n IH]; intros row si w Hsi Hn; [done |].
  cbn [rowLoop]. rewrite skipBlocked_one by lia.
  destruct (unblockedFrom (slots_ w) si) as [| i0 rest] eqn:Hu; [simpl in Hn; lia |].
  apply unblockedFrom_head in Hu as (Hle & Hfree & Hu0 & Hrest).
  rewrite Done_bind.
  destruct (assignment_ hm !! row) as [a |]; [| by intros [= <-]].
  simpl orFault. rewrite Done_bind.
  destruct (negb (a =? Z.of_nat col)).
  { apply IH; [lia |]. rewrite Hrest. simpl in Hn. lia. }
  destruct (hungarian_matrix_ hm !! row) as [cells |]; [| by intros [= <-]].
  simpl orFault. rewrite Done_bind.
  destruct (cells !! col) as [cost |]; [| by intros [= <-]].
  simpl orFault. rewrite Done_bind.
  destruct (at_ (io_pins_ w) idx) as [p |] eqn:Hp.
  2:{ rewrite (getIoPin_None _ _ Hp). by intros [= <-]. }
  rewrite (proj2 (getIoPin_Done _ _ _) Hp), Done_bind.
  fold (warned w p cost).
  destruct (sameCore_warned w p cost) as (Hsl & Hpi & Has).
  destruct (skipPin am mp p).
  - apply IH; [lia |]. rewrite Hsl, Hu0. simpl in *. lia.
  - intros Hrun. unfold isFree in Hfree.
    destruct (at_ (slots_ w) i0) as [s |] eqn:Hs; [| done].
    apply (placePin_defined _ idx i0 _ p s) in Hrun as ->;
      [done | by rewrite Hpi | by rewrite Hsl].
Qed.

Lemma scanReady_evolves (hm : HungarianMatching) (w w' : World) :
  evolves w w' → scanReady hm (slots_ w) → scanReady hm (slots_ w').
Proof.
  intros (Hb & _ & _) [H0 Hrows]. split; [done |].
  by rewrite (unblockedFrom_same_blocked (slots_ w) (slots_ w')).
Qed.

Lemma pinLoop_slots_ok (hm : HungarianMatching) (am : bool) (mp : gmap BTerm BTerm)
    (idxs : list Z) (col : nat) (w : World) (f : Fault) :
  scanReady hm (slots_ w) →
  pinLoop mirror idxOf hm am mp idxs (col, w) = Undefined f →
  f ≠ SlotOutOfRange ∧ f ≠ Diverges.
Proof.
  revert col w. induction idxs as [| idx idxs IH]; intros col w Hscan; [done |].
  cbn [pinLoop]. simpl fst. simpl snd.
  destruct (at_ (io_pins_ w) idx) as [p |] eqn:Hp.
  2:{ rewrite (getIoPin_None _ _ Hp). by intros [= <-]. }
  rewrite (proj2 (getIoPin_Done _ _ _) Hp), Done_bind.
  destruct (isInGroup p); [by apply IH |].
  destruct (rowLoop mirror idxOf hm am mp idx col (size_t_of_int (non_blocked_slots_ hm))
              0 (begin_slot_ hm) w) as [wa | wr | f'] eqn:Hrow; [| done |].
  - rewrite Done_bind. apply IH.
    eapply scanReady_evolves; [| done]. by eapply rowLoop_evolves.
  - intros [= <-]. destruct Hscan as [Hb Hrows].
    by eapply rowLoop_slots_ok.
Qed.

(** With no unblocked slot from [begin_slot_] to the end of the vector, the
    scan of the first pin outside a group runs past the end. *)
Lemma pinLoop_scan_overrun (hm : HungarianMatching) (am : bool) (mp : gmap BTerm BTerm)
    (idxs : list Z) (col : nat) (w : World) :
  Forall (λ idx, is_Some (at_ (io_pins_ w) idx)) idxs →
  ungroupedOf (io_pins_ w) idxs ≠ [] →
  (0 < rowsOf hm)%nat → 0 ≤ begin_slot_ hm →
  unblockedFrom (slots_ w) (begin_slot_ hm) = [] →
  pinLoop mirror idxOf hm am mp idxs (col, w) = Undefined SlotOutOfRange.
Proof.
  intros Hval Hung Hrows Hb Hnone. unfold ungroupedOf in Hung.
  induction idxs as [| idx idxs IH]; [done |].
  apply Forall_cons in Hval as [[p Hp] Hval].
  cbn [pinLoop]. simpl fst. simpl snd.
  rewrite (proj2 (getIoPin_Done _ _ _) Hp), Done_bind.
  destruct (isInGroup p) eqn:Hgrp.
  - apply IH; [done |]. rewrite filter_cons_False in Hung; [done |].
    rewrite Hp, Hgrp. exact id.
  - unfold rowsOf in Hrows.
    destruct (size_t_of_int (non_blocked_slots_ hm)) as [| n]; [lia |].
    cbn [rowLoop]. rewrite skipBlocked_one by lia. by rewrite Hnone.
Qed.

End UngroupedBounds.

(** ** The grouped materializer *)

Lemma freeStartsFrom_step (slots : list Slot) (gs si : Z) :
  0 < gs →
  freeStartsFrom slots gs si =
  (if isFree slots si then [si] else []) ++ freeStartsFrom slots gs (si + gs).
Proof.
  intros Hgs. unfold freeStartsFrom.
  destruct (decide (si ≤ Z.of_nat (length slots) - 1)) as [Hin | Hout].
  - rewrite (candidateStarts_cons si) by lia.
    destruct (isFree slots si) eqn:Hfree.
    + rewrite filter_cons_True; [done |]. rewrite Hfree. exact I.
    + rewrite filter_cons_False; [done |]. rewrite Hfree. exact id.
  - rewrite (candidateStarts_nil si), (candidateStarts_nil (si + gs)) by lia.
    assert (isFree slots si = false) as ->; [| done].
    unfold isFree. by rewrite (proj2 (at_None slots si)) by lia.
Qed.

Lemma freeStartsFrom_head (slots : list Slot) (gs si i : Z) (rest : list Z) :
  0 < gs →
  freeStartsFrom slots gs si = i :: rest →
  si ≤ i ∧ isFree slots i = true ∧
  freeStartsFrom slots gs i = i :: rest ∧ freeStartsFrom slots gs (i + gs) = rest.
Proof.
  intros Hgs Hu.
  assert (i ∈ freeStartsFrom slots gs si) as Hin by (rewrite Hu; left).
  apply list_elem_of_filter in Hin as [Hfree Hin]. apply Is_true_true in Hfree.
  apply elem_of_candidateStarts in Hin as (k & Hk & _); [| done].
  assert (∀ k : nat, ∀ si, i = si + Z.of_nat k * gs →
            freeStartsFrom slots gs si = i :: rest →
            freeStartsFrom slots gs i = i :: rest) as Hind.
  { clear k Hk Hu. induction k as [| k IH]; intros si' Hk Hu'.
    - by assert (si' = i) as -> by lia.
    - rewrite freeStartsFrom_step in Hu' by done.
      destruct (isFree slots si') eqn:Hf; simpl in Hu'.
      + injection Hu' as ? _. nia.
      + apply (IH (si' + gs)); [lia | done]. }
  assert (freeStartsFrom slots gs i = i :: rest) as Hi by (by apply (Hind k si)).
  split_and!; try done; [nia |].
  rewrite freeStartsFrom_step, Hfree in Hi by done. simpl in Hi. by injection Hi.
Qed.

Lemma skipBlocked_stride (w : World) (fuel : nat) (gs si : Z) :
  0 < gs → 0 ≤ si → Z.of_nat (length (slots_ w)) - si ≤ Z.of_nat fuel →
  skipBlocked fuel gs w si =
  match freeStartsFrom (slots_ w) gs si with
  | i :: _ => Done i
  | [] => Undefined SlotOutOfRange
  end.
Proof.
  intros Hgs. revert si. induction fuel as [| fuel IH]; intros si Hsi Hfuel.
  - cbn [skipBlocked]. rewrite (getSlot_None w si) by (apply at_None; lia).
    unfold freeStartsFrom. by rewrite candidateStarts_nil by lia.
  - cbn [skipBlocked]. rewrite freeStartsFrom_step by done. unfold isFree.
    destruct (at_ (slots_ w) si) as [s |] eqn:Hs.
    + rewrite (proj2 (getSlot_Done _ _ _) Hs), Done_bind.
      destruct (blocked s); simpl; [| done]. apply IH; lia.
    + rewrite (getSlot_None w si Hs). simpl.
      apply at_None in Hs. unfold freeStartsFrom.
      by rewrite candidateStarts_nil by lia.
Qed.

Section GroupPlacement.

Variable hm : HungarianMatching.

(** The members of a group on their block. *)
Lemma placeGroup_gen (rev : bool) (pins : list Z) (s c nb : Z) (w : World) :
  NoDup pins →
  Forall (λ idx, is_Some (at_ (io_pins_ w) idx)) pins →
  (∀ k, (k < length pins)%nat →
     0 ≤ s + cntAfter rev c k < Z.of_nat (length (slots_ w))) →
  ∃ nb' w',
    placeGroup hm rev pins s c (nb, w) = Done (nb', w') ∧
    length (slots_ w') = length (slots_ w) ∧
    length (io_pins_ w') = length (io_pins_ w) ∧
    (∀ k idx, pins !! k = Some idx →
       ∃ p sl, at_ (io_pins_ w) idx = Some p ∧
               at_ (slots_ w) (s + cntAfter rev c k) = Some sl ∧
               at_ (io_pins_ w') idx = Some (groupPin p sl)) ∧
    (∀ k sl, (k < length pins)%nat →
       at_ (slots_ w) (s + cntAfter rev c k) = Some sl →
       at_ (slots_ w') (s + cntAfter rev c k) = Some (setBlocked (setUsed sl))) ∧
    (∀ j, (∀ k, (k < length pins)%nat → j ≠ s + cntAfter rev c k) →
       at_ (slots_ w') j = at_ (slots_ w) j) ∧
    (∀ idx, idx ∉ pins → at_ (io_pins_ w') idx = at_ (io_pins_ w) idx) ∧
    nb' = nb - Z.of_nat (length (filter (λ k, s + cntAfter rev c k ≤ end_slot_ hm)
                                   (seq 0 (length pins)))).
Proof.
  revert c nb w. induction pins as [| pin_idx rest IH]; intros c nb w Hnd Hval Hrange.
  { exists nb, w. split_and!; try done.
    - intros k sl Hk. simpl in Hk. lia.
    - simpl. lia. }
  apply NoDup_cons in Hnd as [Hnotin Hnd].
  apply Forall_cons in Hval as [[p Hp] Hval].
  assert (cntAfter rev c 0 = c) as Hc0 by (unfold cntAfter; destruct rev; lia).
  destruct (at_is_Some (slots_ w) (s + c)) as [sl Hsl].
  { rewrite <- Hc0. apply Hrange. simpl. lia. }
  cbn [placeGroup]. simpl fst. simpl snd.
  rewrite (proj2 (getIoPin_Done _ _ _) Hp), Done_bind.
  rewrite (proj2 (getSlot_Done _ _ _) Hsl), Done_bind.
  fold (groupPin p sl).
  set (w1 := setSlot (push_back (setIoPin w pin_idx (groupPin p sl)) (groupPin p sl))
               (s + c) (setBlocked (setUsed sl))).
  set (c' := if rev then c - 1 else c + 1).
  set (nb1 := if s + c <=? end_slot_ hm then nb - 1 else nb).
  assert (∀ k, cntAfter rev c' k = cntAfter rev c (S k)) as Hshift.
  { intros k. unfold cntAfter, c'. destruct rev; lia. }
  assert (0 ≤ pin_idx) as Hpin0 by (by apply at_lt in Hp as [? _]).
  assert (0 ≤ s + c) as Hsc0 by (by apply at_lt in Hsl as [? _]).
  destruct (IH c' nb1 w1) as (nb' & w' & Hrun & Hls & Hlp & Hmem & Hblk & Hoth & Hopin & Hnb).
  - done.
  - eapply Forall_impl; [exact Hval |]. intros idx [q Hq]. simpl.
    apply at_is_Some. rewrite length_upd. by apply at_lt in Hq.
  - intros k Hk. rewrite Hshift. simpl. rewrite length_upd. apply Hrange. simpl. lia.
  - assert (∀ k, s + cntAfter rev c (S k) ≠ s + c) as Hdist.
    { intros k. unfold cntAfter. destruct rev; lia. }
    exists nb', w'. split_and!.
    + exact Hrun.
    + rewrite Hls. simpl. apply length_upd.
    + rewrite Hlp. simpl. apply length_upd.
    + intros [| k] idx Hk; simpl in Hk.
      * injection Hk as <-. exists p, sl. rewrite Hc0. split_and!; try done.
        rewrite Hopin by done. simpl. by eapply at_upd_eq.
      * destruct (Hmem k idx Hk) as (q & sq & Hq & Hsq & Hfin).
        assert (idx ≠ pin_idx) as Hne.
        { intros ->. apply Hnotin. by eapply list_elem_of_lookup_2. }
        simpl in Hq. rewrite at_upd_ne in Hq by done.
        rewrite Hshift in Hsq. simpl in Hsq. rewrite at_upd_ne in Hsq by (done || apply not_eq_sym, Hdist).
        exists q, sq. by split_and!.
    + intros [| k] sq Hk Hsq.
      * rewrite Hc0 in *. rewrite Hsl in Hsq. injection Hsq as <-.
        rewrite Hoth.
        -- simpl. by eapply at_upd_eq.
        -- intros k Hk'. rewrite Hshift. apply not_eq_sym, Hdist.
      * rewrite <- Hshift. apply Hblk; [simpl in Hk; lia |].
        rewrite Hshift. simpl. rewrite at_upd_ne by (done || apply not_eq_sym, Hdist). done.
    + intros j Hj. rewrite Hoth.
      * simpl. apply at_upd_ne; [done |]. rewrite <- Hc0. apply not_eq_sym, Hj. simpl. lia.
      * intros k Hk. rewrite Hshift. apply Hj. simpl. lia.
    + intros idx Hidx. apply not_elem_of_cons in Hidx as [Hne Hidx].
      rewrite Hopin by done. simpl. by apply at_upd_ne.
    + rewrite Hnb. unfold nb1. change (length (pin_idx :: rest)) with (S (length rest)).
      rewrite <- cons_seq, <- fmap_S_seq.
      rewrite filter_cons, Hc0.
      assert (length (filter (λ k, s + cntAfter rev c' k ≤ end_slot_ hm) (seq 0 (length rest)))
              = length (filter (λ k, s + cntAfter rev c k ≤ end_slot_ hm)
                          (S <$> seq 0 (length rest)))) as ->.
      { generalize (seq 0 (length rest)). intros l.
        induction l as [| x l IHl]; [done |].
        rewrite fmap_cons, !filter_cons, Hshift.
        case_decide; simpl; by rewrite IHl. }
      destruct (Z.leb_spec (s + c) (end_slot_ hm)).
      * rewrite decide_True by done. simpl length. lia.
      * rewrite decide_False by lia. lia.
Qed.

End GroupPlacement.

Section GroupScan.

Variable hm : HungarianMatching.

Lemma placeGroup_slots_ok (rev : bool) (pins : list Z) (s c nb : Z) (w : World)
    (f : Fault) :
  (∀ k, (k < length pins)%nat →
     0 ≤ s + cntAfter rev c k < Z.of_nat (length (slots_ w))) →
  placeGroup hm rev pins s c (nb, w) = Undefined f → f = PinOutOfRange.
Proof.
  revert c nb w. induction pins as [| pin_idx rest IH]; intros c nb w Hrange; [done |].
  assert (cntAfter rev c 0 = c) as Hc0 by (unfold cntAfter; destruct rev; lia).
  destruct (at_is_Some (slots_ w) (s + c)) as [sl Hsl].
  { rewrite <- Hc0. apply Hrange. simpl. lia. }
  cbn [placeGroup]. simpl fst. simpl snd.
  destruct (at_ (io_pins_ w) pin_idx) as [p |] eqn:Hp.
  2:{ rewrite (getIoPin_None _ _ Hp). by intros [= <-]. }
  rewrite (proj2 (getIoPin_Done _ _ _) Hp), Done_bind.
  rewrite (proj2 (getSlot_Done _ _ _) Hsl), Done_bind.
  apply IH. intros k Hk. simpl. rewrite length_upd.
  replace (cntAfter rev (if rev then c - 1 else c + 1) k) with (cntAfter rev c (S k))
    by (unfold cntAfter; destruct rev; lia).
  apply Hrange. simpl. lia.
Qed.

(** The row loop of a group reaches the first row assigned to its column,
    on the unblocked start of that rank, and places the group there. *)
Lemma groupRowLoop_place (g : PinGroup) (col n row : nat) (si nb : Z) (w : World)
    (r : nat) (s : Z) :
  0 < group_size_ hm → 0 ≤ si →
  (row ≤ r < row + n)%nat →
  (∀ r' a, (row ≤ r' < r)%nat → assignment_ hm !! r' = Some a → a ≠ Z.of_nat col) →
  assignment_ hm !! r = Some (Z.of_nat col) →
  freeStartsFrom (slots_ w) (group_size_ hm) si !! (r - row)%nat = Some s →
  groupRowLoop hm g col n row si (nb, w) =
  placeGroup hm (reversed (edge_ hm) g.2) g.1 s
    (if reversed (edge_ hm) g.2 then Z.of_nat (length g.1) - 1 else 0) (nb, w).
Proof.
  intros Hgs Hsi Hr Hbefore Hmatch Hs.
  revert row si Hsi Hr Hbefore Hs. induction n as [| n IH]; intros row si Hsi Hr Hbefore Hs;
    [lia |].
  cbn [groupRowLoop]. simpl snd. rewrite skipBlocked_stride by (done || lia).
  destruct (freeStartsFrom (slots_ w) (group_size_ hm) si) as [| i0 rest] eqn:Hu; [done |].
  apply freeStartsFrom_head in Hu as (Hle & Hfree & Hu0 & Hrest); [| done].
  rewrite Done_bind.
  destruct (decide (r = row)) as [-> | Hne].
  - rewrite Nat.sub_diag in Hs. injection Hs as ->.
    rewrite Hmatch. simpl orFault. rewrite Done_bind, Z.eqb_refl. done.
  - assert (is_Some (assignment_ hm !! row)) as [a Ha].
    { apply lookup_lt_is_Some. apply lookup_lt_Some in Hmatch. lia. }
    rewrite Ha. simpl orFault. rewrite Done_bind.
    assert (a ≠ Z.of_nat col) as Hacol by (eapply Hbefore; [| done]; lia).
    apply Z.eqb_neq in Hacol. rewrite Hacol. simpl negb. cbv iota.
    apply IH; [lia | lia | |].
    + intros r' a' Hr'. apply Hbefore. lia.
    + rewrite Hrest. replace (r - row)%nat with (S (r - S row)) in Hs by lia. done.
Qed.

Lemma groupRowLoop_slots_ok (g : PinGroup) (col n row : nat) (si nb : Z) (w : World)
    (f : Fault) :
  0 < group_size_ hm → 0 ≤ si →
  (n ≤ length (freeStartsFrom (slots_ w) (group_size_ hm) si))%nat →
  (∀ j, j ∈ freeStartsFrom (slots_ w) (group_size_ hm) si →
     j + Z.of_nat (length g.1) ≤ Z.of_nat (length (slots_ w))) →
  groupRowLoop hm g col n row si (nb, w) = Undefined f →
  f ≠ SlotOutOfRange ∧ f ≠ Diverges.
Proof.
  intros Hgs. revert row si. induction n as [| n IH]; intros row si Hsi Hn Hfit; [done |].
  cbn [groupRowLoop]. simpl snd. rewrite skipBlocked_stride by (done || lia).
  destruct (freeStartsFrom (slots_ w) (group_size_ hm) si) as [| i0 rest] eqn:Hu;
    [simpl in Hn; lia |].
  pose proof Hu as Hu'.
  apply freeStartsFrom_head in Hu as (Hle & Hfree & Hu0 & Hrest); [| done].
  rewrite Done_bind.
  destruct (assignment_ hm !! row) as [a |]; [| by intros [= <-]].
  simpl orFault. rewrite Done_bind.
  destruct (negb (a =? Z.of_nat col)).
  - apply IH; [lia | rewrite Hrest; simpl in Hn; lia |].
    intros j Hj. apply Hfit. rewrite Hrest in Hj. by right.
  - intros Hrun. apply placeGroup_slots_ok in Hrun as ->; [done |].
    intros k Hk. specialize (Hfit i0 ltac:(left)).
    unfold cntAfter. destruct (reversed (edge_ hm) g.2); lia.
Qed.

(** With no unblocked start from [begin_slot_] to the end of the vector, the
    scan of the first group runs past the end. *)
Lemma groupLoop_scan_overrun (g : PinGroup) (groups : list PinGroup) (col : nat)
    (nb : Z) (w : World) :
  0 < group_size_ hm → 0 ≤ begin_slot_ hm →
  (0 < size_t_of_int (group_slots_ hm))%nat →
  freeStartsFrom (slots_ w) (group_size_ hm) (begin_slot_ hm) = [] →
  groupLoop hm (g :: groups) col (nb, w) = Undefined SlotOutOfRange.
Proof.
  intros Hgs Hb Hrows Hnone. cbn [groupLoop].
  destruct (size_t_of_int (group_slots_ hm)) as [| n]; [lia |].
  cbn [groupRowLoop]. simpl snd. rewrite skipBlocked_stride by (done || lia).
  by rewrite Hnone.
Qed.

End GroupScan.

(** X19.  The row loop of a group, from the slot where its scan stops.  When
    the scan of [getAssignmentForGroups] stops for a group of [g] pins at the
    start slot [s] and the block [s .. s + g - 1] lies inside the slot
    vector, the row loop returns; member [k] of the group takes the position and layer of
    slot [s + g - 1 - k] when the edge is top or left and the [order] flag is
    set, and of slot [s + k] otherwise; every slot of the block becomes used
    and blocked and no other slot changes; the counter of unblocked slots
    drops by one for each slot of the block that lies at or before
    [end_slot_], hence by [g] when the block lies inside the section. *)
Theorem group_block_placed (hm : HungarianMatching) (g : PinGroup) (col r : nat)
    (s nb : Z) (w : World) :
  0 < group_size_ hm → 0 ≤ begin_slot_ hm →
  (r < size_t_of_int (group_slots_ hm))%nat →
  matchedRow (assignment_ hm) col = Some r →
  freeStartsFrom (slots_ w) (group_size_ hm) (begin_slot_ hm) !! r = Some s →
  s + Z.of_nat (length g.1) ≤ Z.of_nat (length (slots_ w)) →
  NoDup g.1 →
  Forall (λ idx, is_Some (at_ (io_pins_ w) idx)) g.1 →
  let rev := reversed (edge_ hm) g.2 in
  ∃ nb' w',
    groupRowLoop hm g col (size_t_of_int (group_slots_ hm)) 0 (begin_slot_ hm) (nb, w)
      = Done (nb', w') ∧
    (rev = true ↔ (edge_ hm = Edge.top ∨ edge_ hm = Edge.left) ∧ g.2 = true) ∧
    (∀ k idx, g.1 !! k = Some idx →
       ∃ p sl, at_ (io_pins_ w) idx = Some p ∧
               at_ (slots_ w) (s + memberOffset rev (length g.1) k) = Some sl ∧
               at_ (io_pins_ w') idx = Some (groupPin p sl)) ∧
    (∀ j sl, s ≤ j < s + Z.of_nat (length g.1) → at_ (slots_ w) j = Some sl →
       at_ (slots_ w') j = Some (setBlocked (setUsed sl))) ∧
    (∀ j, ¬ (s ≤ j < s + Z.of_nat (length g.1)) →
       at_ (slots_ w') j = at_ (slots_ w) j) ∧
    nb' = nb - Z.of_nat (length (filter
            (λ k, s + memberOffset rev (length g.1) k ≤ end_slot_ hm)
            (seq 0 (length g.1)))) ∧
    (s + Z.of_nat (length g.1) - 1 ≤ end_slot_ hm → nb' = nb - Z.of_nat (length g.1)).
Proof.
  intros Hgs Hb Hr [Hmatch Hbefore]%matchedRow_Some Hs Hfit Hnd Hval rev.
  assert (s ∈ freeStartsFrom (slots_ w) (group_size_ hm) (begin_slot_ hm)) as Hin
    by (by eapply list_elem_of_lookup_2).
  apply list_elem_of_filter in Hin as [_ Hin].
  apply elem_of_candidateStarts in Hin as (k0 & Hk0 & _); [| done].
  assert (0 ≤ s) as Hs0 by nia.
  set (c0 := if rev then Z.of_nat (length g.1) - 1 else 0).
  assert (∀ k, cntAfter rev c0 k = memberOffset rev (length g.1) k) as Hoff.
  { intros k. unfold cntAfter, memberOffset, c0. destruct rev; lia. }
  destruct (placeGroup_gen hm rev g.1 s c0 nb w Hnd Hval)
    as (nb' & w' & Hrun & _ & _ & Hmem & Hblk & Hoth & _ & Hnb).
  { intros k Hk. rewrite Hoff. unfold memberOffset. destruct rev; lia. }
  exists nb', w'. split_and!.
  - rewrite (groupRowLoop_place hm g col _ 0 (begin_slot_ hm) nb w r s); try done.
    + lia.
    + intros r' a [_ Hr']. by apply Hbefore.
    + by rewrite Nat.sub_0_r.
  - unfold rev, reversed. destruct (edge_ hm), g.2; naive_solver.
  - intros k idx Hk. destruct (Hmem k idx Hk) as (p & sl & Hp & Hsl & Hfin).
    exists p, sl. by rewrite <- Hoff.
  - intros j sl Hj Hsl.
    assert (∃ k, (k < length g.1)%nat ∧ j = s + cntAfter rev c0 k) as (k & Hk & Hjk).
    { exists (if rev then Z.to_nat (s + Z.of_nat (length g.1) - 1 - j)
              else Z.to_nat (j - s)).
      rewrite Hoff. unfold memberOffset. destruct rev; lia. }
    rewrite Hjk in Hsl |- *. by apply Hblk.
  - intros j Hj. apply Hoth. intros k Hk. rewrite Hoff.
    unfold memberOffset. destruct rev; lia.
  - rewrite Hnb. do 3 f_equal. apply list_filter_iff. intros k. by rewrite Hoff.
  - intros Hin. rewrite Hnb.
    assert (filter (λ k, s + cntAfter rev c0 k ≤ end_slot_ hm) (seq 0 (length g.1))
            = seq 0 (length g.1)) as ->; [| by rewrite length_seq].
    apply filter_all. apply Forall_seq. intros k Hk. rewrite Hoff.
    unfold memberOffset. destruct rev; lia.
Qed.

(** C10, as far as the program goes.  The skip loop of both materializers
    reads [slots_[slot_index]] before it tests [slot_index] against the size
    of the vector.
    (a) When the slot vector holds, from [begin_slot_] on, an unblocked slot
        for every row, no run of [getFinalAssignment] reads or writes a slot
        outside the vector.
    (b) When every slot from [begin_slot_] to the end of the vector is
        blocked, the scan of the first pin outside a group reads past the
        end.
    (c) When the slot vector holds, at stride [group_size_] from
        [begin_slot_], an unblocked start for every row, and the block of the
        group fits the vector at each of these starts, the row loop of a
        group reads and writes no slot outside the vector.
    (d) When every start from [begin_slot_] to the end of the vector is
        blocked, the scan of the first group reads past the end. *)
Theorem slot_subscripts (mirror : Point → Point) (idxOf : BTerm → Z) :
  (∀ hm w mp am f,
     scanReady hm (slots_ w) →
     getFinalAssignment mirror idxOf hm w mp am = Undefined f →
     f ≠ SlotOutOfRange ∧ f ≠ Diverges) ∧
  (∀ hm w mp am,
     Forall (λ idx, is_Some (at_ (io_pins_ w) idx)) (pin_indices_ hm) →
     ungroupedOf (io_pins_ w) (pin_indices_ hm) ≠ [] →
     (0 < rowsOf hm)%nat → 0 ≤ begin_slot_ hm →
     unblockedFrom (slots_ w) (begin_slot_ hm) = [] →
     getFinalAssignment mirror idxOf hm w mp am = Undefined SlotOutOfRange) ∧
  (∀ hm (g : PinGroup) col nb w f,
     0 < group_size_ hm → 0 ≤ begin_slot_ hm →
     (size_t_of_int (group_slots_ hm)
        ≤ length (freeStartsFrom (slots_ w) (group_size_ hm) (begin_slot_ hm)))%nat →
     (∀ j, j ∈ freeStartsFrom (slots_ w) (group_size_ hm) (begin_slot_ hm) →
        j + Z.of_nat (length g.1) ≤ Z.of_nat (length (slots_ w))) →
     groupRowLoop hm g col (size_t_of_int (group_slots_ hm)) 0 (begin_slot_ hm) (nb, w)
       = Undefined f →
     f ≠ SlotOutOfRange ∧ f ≠ Diverges) ∧
  (∀ hm w,
     hungarian_matrix_ hm ≠ [] → pin_groups_ hm ≠ [] →
     0 < group_size_ hm → 0 ≤ begin_slot_ hm →
     (0 < size_t_of_int (group_slots_ hm))%nat →
     freeStartsFrom (slots_ w) (group_size_ hm) (begin_slot_ hm) = [] →
     getAssignmentForGroups hm w = Undefined SlotOutOfRange).
Proof.
  split_and!.
  - intros hm w mp am f Hscan Hrun. unfold getFinalAssignment in Hrun.
    destruct (pinLoop mirror idxOf hm am mp (pin_indices_ hm) (0%nat, w))
      as [st | wr | f'] eqn:Hloop; try done.
    injection Hrun as <-. by eapply pinLoop_slots_ok.
  - intros hm w mp am Hval Hung Hrows Hb Hnone. unfold getFinalAssignment.
    by rewrite (pinLoop_scan_overrun mirror idxOf hm am mp).
  - intros hm g col nb w f Hgs Hb Hrows Hfit Hrun.
    by eapply groupRowLoop_slots_ok.
  - intros hm w Hm Hg Hgs Hb Hrows Hnone. unfold getAssignmentForGroups.
    rewrite bool_decide_eq_false_2 by done.
    destruct (pin_groups_ hm) as [| g groups]; [done |].
    by rewrite groupLoop_scan_overrun.
Qed.

(** ** A fresh section in non-mirror mode *)

Lemma unblockedIn_app (slots : list Slot) (a b c : Z) :
  a ≤ b + 1 → b ≤ c →
  unblockedIn slots a c = unblockedIn slots a b ++ unblockedIn slots (b + 1) c.
Proof.
  intros Hab Hbc. unfold unblockedIn.
  replace (c - a + 1) with ((b - a + 1) + (c - (b + 1) + 1)) by lia.
  rewrite seqZ_app by lia. rewrite filter_app. do 3 f_equal. lia.
Qed.

Lemma unblockedFrom_section (slots : list Slot) (begin end_ : Z) (r : nat) :
  begin ≤ end_ + 1 → end_ < Z.of_nat (length slots) →
  (r < length (unblockedIn slots begin end_))%nat →
  unblockedFrom slots begin !! r = unblockedIn slots begin end_ !! r.
Proof.
  intros Hbe He Hr. unfold unblockedFrom.
  rewrite (unblockedIn_app slots begin end_) by lia.
  by apply lookup_app_l.
Qed.

Lemma ungroupedOf_same_groups (pins pins' : list IOPin) (idxs : list Z) :
  (∀ idx, isInGroup <$> at_ pins' idx = isInGroup <$> at_ pins idx) →
  ungroupedOf pins' idxs = ungroupedOf pins idxs.
Proof.
  intros Hsame. unfold ungroupedOf. apply list_filter_iff. intros idx.
  specialize (Hsame idx).
  destruct (at_ pins' idx), (at_ pins idx); simpl in Hsame; try done.
  by injection Hsame as ->.
Qed.

Lemma setUsed_idemp (s : Slot) : setUsed (setUsed s) = setUsed s.
Proof. done. Qed.

Section FreshSection.

Variable mirror : Point → Point.
Variable idxOf : BTerm → Z.
Variable hm : HungarianMatching.
Variable mp : gmap BTerm BTerm.

Hypothesis begin_nonneg : 0 ≤ begin_slot_ hm.

(** The pin loop over pins that are all still to be placed. *)
Lemma pinLoop_fresh (idxs : list Z) (col : nat) (wc : World) :
  Forall (λ idx, is_Some (at_ (io_pins_ wc) idx)) idxs →
  NoDup (ungroupedOf (io_pins_ wc) idxs) →
  (∀ idx p, idx ∈ ungroupedOf (io_pins_ wc) idxs →
     at_ (io_pins_ wc) idx = Some p → isPlaced p = false) →
  (∀ c, (col ≤ c < col + length (ungroupedOf (io_pins_ wc) idxs))%nat →
     ∃ r i cells cost,
       (r < rowsOf hm)%nat ∧ matchedRow (assignment_ hm) c = Some r ∧
       unblockedFrom (slots_ wc) (begin_slot_ hm) !! r = Some i ∧
       hungarian_matrix_ hm !! r = Some cells ∧ cells !! c = Some cost) →
  ∃ w' tgt,
    pinLoop mirror idxOf hm false mp idxs (col, wc) =
      Done ((col + length (ungroupedOf (io_pins_ wc) idxs))%nat, w') ∧
    Forall2 (λ c i, matchedSlot hm (slots_ wc) c = Some i)
      (seq col (length (ungroupedOf (io_pins_ wc) idxs))) tgt ∧
    (∀ k idx i, ungroupedOf (io_pins_ wc) idxs !! k = Some idx → tgt !! k = Some i →
       ∃ p s, at_ (io_pins_ wc) idx = Some p ∧ at_ (slots_ wc) i = Some s ∧
              at_ (io_pins_ w') idx = Some (placedPin p s)) ∧
    (∀ idx, idx ∉ ungroupedOf (io_pins_ wc) idxs →
       at_ (io_pins_ w') idx = at_ (io_pins_ wc) idx) ∧
    (∀ i s, at_ (slots_ wc) i = Some s →
       at_ (slots_ w') i = Some (if decide (i ∈ tgt) then setUsed s else s)) ∧
    length (slots_ w') = length (slots_ wc).
Proof.
  revert col wc. induction idxs as [| idx idxs IH]; intros col wc Hval Hnd Hunpl Hmatch.
  { exists wc, []. simpl. rewrite Nat.add_0_r. by split_and!. }
  apply Forall_cons in Hval as [[p Hp] Hval].
  cbn [pinLoop]. simpl fst. simpl snd.
  rewrite (proj2 (getIoPin_Done _ _ _) Hp), Done_bind.
  destruct (isInGroup p) eqn:Hgrp.
  - assert (ungroupedOf (io_pins_ wc) (idx :: idxs) = ungroupedOf (io_pins_ wc) idxs) as Hung.
    { unfold ungroupedOf. rewrite filter_cons_False; [done |]. rewrite Hp, Hgrp. exact id. }
    rewrite Hung in *. by apply IH.
  - assert (ungroupedOf (io_pins_ wc) (idx :: idxs) = idx :: ungroupedOf (io_pins_ wc) idxs)
      as Hung.
    { unfold ungroupedOf. rewrite filter_cons_True; [done |]. rewrite Hp, Hgrp. exact I. }
    rewrite Hung in *. apply NoDup_cons in Hnd as [Hnotin Hnd].
    destruct (Hmatch col) as (r & i & cells & cost & Hr & Hrow & Hi & Hcells & Hcost);
      [simpl; lia |].
    assert (i ∈ unblockedFrom (slots_ wc) (begin_slot_ hm)) as Hin
      by (by eapply list_elem_of_lookup_2).
    apply elem_of_unblockedIn in Hin as [_ (s & Hs & Hbl)].
    assert (isPlaced p = false) as Hpl by (eapply Hunpl; [left | done]).
    rewrite (rowLoop_matched mirror idxOf hm false mp idx col wc r i p cells cost);
      try done.
    set (w0 := warned wc p cost).
    destruct (sameCore_warned wc p cost) as (Hsl0 & Hpi0 & _). fold w0 in Hsl0, Hpi0.
    rewrite (placePin_None mirror idxOf idx i w0 p s); [| by rewrite Hpi0 | by rewrite Hsl0].
    rewrite Done_bind.
    set (wa := afterPlace w0 idx i p s).
    assert (0 ≤ idx) as Hidx0 by (by apply at_lt in Hp as [? _]).
    assert (0 ≤ i) as Hi0 by (by apply at_lt in Hs as [? _]).
    assert (∀ j, j ≠ idx → at_ (io_pins_ wa) j = at_ (io_pins_ wc) j) as Hpa.
    { intros j Hj. simpl. rewrite Hpi0.
      destruct (decide (0 ≤ j)); [by apply at_upd_ne |].
      unfold at_. by rewrite !decide_False. }
    assert (at_ (io_pins_ wa) idx = Some (placedPin p s)) as Hpaidx.
    { simpl. eapply at_upd_eq. by rewrite Hpi0. }
    assert (ungroupedOf (io_pins_ wa) idxs = ungroupedOf (io_pins_ wc) idxs) as Hung'.
    { apply ungroupedOf_same_groups. intros j.
      destruct (decide (j = idx)) as [-> | Hj]; [| by rewrite Hpa].
      by rewrite Hpaidx, Hp. }
    assert (blocked <$> slots_ wa = blocked <$> slots_ wc) as Hbla.
    { simpl. rewrite Hsl0. by apply blocked_setUsed. }
    assert (unblockedFrom (slots_ wa) (begin_slot_ hm)
            = unblockedFrom (slots_ wc) (begin_slot_ hm)) as Hua
      by (by apply unblockedFrom_same_blocked).
    destruct (IH (S col) wa) as (w' & tgt & Hrun & Htgt & Hpins & Hoth & Hslots & Hlen).
    + eapply Forall_impl; [exact Hval |]. intros j [q Hq].
      apply at_is_Some. simpl. rewrite length_upd, Hpi0. by apply at_lt in Hq.
    + by rewrite Hung'.
    + rewrite Hung'. intros j q Hj Hq. rewrite Hpa in Hq by (by intros ->).
      eapply Hunpl; [by right | done].
    + rewrite Hung'. intros c Hc. rewrite Hua. apply Hmatch. simpl. lia.
    + rewrite Hung' in *. exists w', (i :: tgt). split_and!.
      * rewrite Hrun. f_equal. f_equal. simpl. lia.
      * simpl. constructor.
        -- unfold matchedSlot. by rewrite Hrow.
        -- eapply Forall2_impl; [exact Htgt |]. intros c j. unfold matchedSlot.
           by rewrite Hua.
      * intros [| k] j j' Hk Hk'; simpl in Hk, Hk'.
        -- injection Hk as <-. injection Hk' as <-. exists p, s.
           split_and!; try done. rewrite Hoth by done. done.
        -- destruct (Hpins k j j' Hk Hk') as (q & sq & Hq & Hsq & Hfin).
           assert (j ≠ idx) as Hne.
           { intros ->. apply Hnotin. by eapply list_elem_of_lookup_2. }
           rewrite Hpa in Hq by done.
           simpl in Hsq. rewrite Hsl0 in Hsq. rewrite (at_upd _ i j' _ s Hs) in Hsq.
           case_decide as Hij.
           ++ subst j'. injection Hsq as <-. exists q, s. split_and!; try done.
           ++ exists q, sq. by split_and!.
      * intros j Hj. apply not_elem_of_cons in Hj as [Hne Hj].
        rewrite Hoth by done. by apply Hpa.
      * intros j sj Hsj.
        assert (at_ (slots_ wa) j = Some (if decide (i = j) then setUsed s else sj)) as Hja.
        { simpl. rewrite Hsl0, (at_upd _ i j _ s Hs). by case_decide. }
        rewrite (Hslots j _ Hja).
        destruct (decide (i = j)) as [-> | Hij].
        -- rewrite Hs in Hsj. injection Hsj as <-.
           rewrite (decide_True (P := j ∈ j :: tgt)) by left.
           by case_decide.
        -- destruct (decide (j ∈ tgt)) as [Hjt | Hjt].
           ++ by rewrite (decide_True (P := j ∈ i :: tgt)) by (by right).
           ++ rewrite (decide_False (P := j ∈ i :: tgt)); [done |].
              apply not_elem_of_cons. by split.
      * rewrite Hlen. simpl. by rewrite length_upd, Hsl0.
Qed.

End FreshSection.

(** C1, as far as the program goes.  Take a section that counts its [U]
    unblocked slots, all of them unused, with [P] distinct pins outside any
    group, none of them placed yet, and a solver answer with one entry per
    row that assigns a row to each of the [P] columns.  Then
    [getFinalAssignment] in non-mirror mode returns; each of the [P] pins
    takes the position and layer of the slot of its column and is marked
    placed; these [P] slots are pairwise distinct, lie in the section and
    were not blocked; they are exactly the slots of the section that become
    used, and no other slot changes. *)
Theorem fresh_section_placed (mirror : Point → Point) (idxOf : BTerm → Z)
    (hm : HungarianMatching) (mp : gmap BTerm BTerm) (w : World) :
  let U := unblockedIn (slots_ w) (begin_slot_ hm) (end_slot_ hm) in
  let ung := ungroupedOf (io_pins_ w) (pin_indices_ hm) in
  0 ≤ begin_slot_ hm →
  end_slot_ hm < Z.of_nat (length (slots_ w)) →
  end_slot_ hm ≤ INT_MAX →
  non_blocked_slots_ hm = Z.of_nat (length U) →
  (∀ i s, i ∈ U → at_ (slots_ w) i = Some s → used s = false) →
  Forall (λ idx, is_Some (at_ (io_pins_ w) idx)) (pin_indices_ hm) →
  NoDup ung →
  (∀ idx p, idx ∈ ung → at_ (io_pins_ w) idx = Some p → isPlaced p = false) →
  length (assignment_ hm) = length U →
  (∀ c, (c < length ung)%nat → is_Some (matchedRow (assignment_ hm) c)) →
  (∀ r c, assignment_ hm !! r = Some (Z.of_nat c) → (c < length ung)%nat →
     ∃ cells cost, hungarian_matrix_ hm !! r = Some cells ∧ cells !! c = Some cost) →
  ∃ w' tgt,
    getFinalAssignment mirror idxOf hm w mp false = Done w' ∧
    Forall2 (λ c i, matchedSlot hm (slots_ w) c = Some i) (seq 0 (length ung)) tgt ∧
    length tgt = length ung ∧ NoDup tgt ∧
    (∀ i, i ∈ tgt → i ∈ U) ∧
    (∀ k idx i, ung !! k = Some idx → tgt !! k = Some i →
       ∃ p s, at_ (io_pins_ w) idx = Some p ∧ at_ (slots_ w) i = Some s ∧
              blocked s = false ∧
              at_ (io_pins_ w') idx = Some (placedPin p s)) ∧
    (∀ i s, at_ (slots_ w) i = Some s →
       at_ (slots_ w') i = Some (if decide (i ∈ tgt) then setUsed s else s)) ∧
    newlyUsed (slots_ w) (slots_ w') (begin_slot_ hm) (end_slot_ hm) ≡ₚ tgt ∧
    length (newlyUsed (slots_ w) (slots_ w') (begin_slot_ hm) (end_slot_ hm))
      = length ung.
Proof.
  intros U ung Hb He Hei Hcount Hunused Hval Hnd Hunpl Hlen Hcols Hcells.
  assert (rowsOf hm = length U) as Hrows.
  { unfold rowsOf. rewrite Hcount. apply size_t_of_int_nat.
    pose proof (length_unblockedIn_le (slots_ w) (begin_slot_ hm) (end_slot_ hm)).
    fold U in H. unfold INT_MAX in Hei. lia. }
  assert (∀ r, (r < length U)%nat →
            unblockedFrom (slots_ w) (begin_slot_ hm) !! r = U !! r) as Hpre.
  { intros r Hr. apply unblockedFrom_section; [| done | done].
    destruct (decide (begin_slot_ hm ≤ end_slot_ hm + 1)); [done |].
    unfold U in Hr. rewrite unblockedIn_nil in Hr by lia. simpl in Hr. lia. }
  assert (∀ c i, matchedSlot hm (slots_ w) c = Some i →
            ∃ r, assignment_ hm !! r = Some (Z.of_nat c) ∧ U !! r = Some i) as Hslot.
  { intros c i Hc. unfold matchedSlot in Hc.
    destruct (matchedRow (assignment_ hm) c) as [r |] eqn:Hr; [| done]. simpl in Hc.
    apply matchedRow_Some in Hr as [Hr _]. exists r. split; [done |].
    rewrite <- Hpre; [done |]. rewrite <- Hlen. by eapply lookup_lt_Some. }
  destruct (pinLoop_fresh mirror idxOf hm mp Hb (pin_indices_ hm) 0 w Hval Hnd Hunpl)
    as (w' & tgt & Hrun & Htgt & Hpins & Hoth & Hslots & Hlens).
  { intros c Hc. fold ung in Hc. destruct (Hcols c) as [r Hr]; [lia |].
    pose proof Hr as [Hrc _]%matchedRow_Some.
    assert (r < length U)%nat as HrU by (rewrite <- Hlen; by eapply lookup_lt_Some).
    destruct (lookup_lt_is_Some_2 U r HrU) as [i Hi].
    destruct (Hcells r c Hrc) as (cells & cost & Hc1 & Hc2); [lia |].
    exists r, i, cells, cost. split_and!; try done; [lia |].
    by rewrite Hpre. }
  fold ung in Hrun, Htgt, Hpins, Hoth.
  assert (∀ i, i ∈ tgt → i ∈ U) as HtgtU.
  { intros i [k Hk]%list_elem_of_lookup_1.
    destruct (Forall2_lookup_r _ _ _ _ _ Htgt Hk) as (c & _ & Hc).
    destruct (Hslot c i Hc) as (r & _ & Hr). by eapply list_elem_of_lookup_2. }
  assert (NoDup tgt) as Hndt.
  { apply NoDup_alt. intros k1 k2 i Hk1 Hk2.
    destruct (Forall2_lookup_r _ _ _ _ _ Htgt Hk1) as (c1 & Hc1 & Hm1).
    destruct (Forall2_lookup_r _ _ _ _ _ Htgt Hk2) as (c2 & Hc2 & Hm2).
    apply lookup_seq in Hc1 as [-> _]. apply lookup_seq in Hc2 as [-> _].
    destruct (Hslot _ i Hm1) as (r1 & Ha1 & Hr1).
    destruct (Hslot _ i Hm2) as (r2 & Ha2 & Hr2).
    assert (r1 = r2) as ->.
    { eapply NoDup_alt; [apply (NoDup_unblockedIn (slots_ w) (begin_slot_ hm) (end_slot_ hm))
                        | exact Hr1 | exact Hr2]. }
    rewrite Ha1 in Ha2. injection Ha2. lia. }
  assert (∀ i, i ∈ newlyUsed (slots_ w) (slots_ w') (begin_slot_ hm) (end_slot_ hm)
               ↔ i ∈ tgt) as Hnew.
  { intros i. unfold newlyUsed. rewrite list_elem_of_filter, elem_of_seqZ. split.
    - intros [Hused Hi].
      destruct (at_is_Some (slots_ w) i) as [s Hs]; [lia |].
      pose proof (Hslots i s Hs) as Hs'. unfold isUsed in Hused. rewrite Hs, Hs' in Hused.
      destruct (decide (i ∈ tgt)); [done |]. by destruct (used s).
    - intros Hi. pose proof (HtgtU i Hi) as HiU.
      apply elem_of_unblockedIn in HiU as [Hrange (s & Hs & Hbl)].
      split; [| lia]. unfold isUsed. rewrite Hs, (Hslots i s Hs).
      rewrite decide_True by done. simpl. by rewrite (Hunused i s (HtgtU i Hi) Hs). }
  assert (newlyUsed (slots_ w) (slots_ w') (begin_slot_ hm) (end_slot_ hm) ≡ₚ tgt) as Hperm.
  { apply NoDup_Permutation; [apply NoDup_filter, NoDup_seqZ | done | done]. }
  exists w', tgt. split_and!; try done.
  - unfold getFinalAssignment. by rewrite Hrun.
  - rewrite <- (Forall2_length _ _ _ Htgt). by rewrite length_seq.
  - intros k idx i Hk Hi. destruct (Hpins k idx i Hk Hi) as (p & s & Hp & Hs & Hfin).
    exists p, s. split_and!; try done.
    assert (i ∈ U) as HiU by (apply HtgtU; by eapply list_elem_of_lookup_2).
    apply elem_of_unblockedIn in HiU as [_ (s' & Hs' & Hbl)]. congruence.
  - rewrite Hperm. rewrite <- (Forall2_length _ _ _ Htgt). by rewrite length_seq.
Qed.

(** * The properties at concrete sections *)

(** The matrix of C2 at a section whose pin list holds a pin of a group. *)
Lemma createMatrix_rows_witness :
  ∃ hm',
    createMatrix Ex.flatCost (newHungarianMatching Ex.mixedSection 0) Ex.mixedWorld
      = Done hm' ∧
    hungarian_matrix_ hm' =
      paddedMatrix Ex.flatCost Ex.mixedWorld 0 0 (pin_indices Ex.mixedSection) ∧
    length (hungarian_matrix_ hm') = length (unblockedIn (slots_ Ex.mixedWorld) 0 0) ∧
    (∀ r i, unblockedIn (slots_ Ex.mixedWorld) 0 0 !! r = Some i →
       ∃ row, hungarian_matrix_ hm' !! r = Some row ∧
         length row = length (pin_indices Ex.mixedSection) ∧
         (∀ c idx, ungroupedOf (io_pins_ Ex.mixedWorld) (pin_indices Ex.mixedSection) !! c = Some idx →
            row !! c = Some (Ex.flatCost idx (slotPos (slots_ Ex.mixedWorld) i))) ∧
         (∀ c, (length (ungroupedOf (io_pins_ Ex.mixedWorld) (pin_indices Ex.mixedSection)) ≤ c
                < length (pin_indices Ex.mixedSection))%nat →
            row !! c = Some INT_MAX)) ∧
    (ungroupedOf (io_pins_ Ex.mixedWorld) (pin_indices Ex.mixedSection) = (pin_indices Ex.mixedSection) →
       hungarian_matrix_ hm' =
         ungroupedMatrix Ex.flatCost Ex.mixedWorld 0 0 (pin_indices Ex.mixedSection)).
Proof.
  apply (createMatrix_rows Ex.flatCost Ex.mixedSection 0 Ex.mixedWorld).
  - simpl. lia.
  - simpl. lia.
  - vm_compute. discriminate.
  - vm_compute. discriminate.
  - repeat constructor; eexists; reflexivity.
  - reflexivity.
Defined.

(** C2 as stated fails: with a pin of a group in the pin list the rows have
    two columns, not one per pin outside a group. *)
Lemma createMatrix_columns_counterexample :
  ∃ hm',
    createMatrix Ex.flatCost (newHungarianMatching Ex.mixedSection 0) Ex.mixedWorld
      = Done hm' ∧
    hungarian_matrix_ hm' = [[7; INT_MAX]] ∧
    ungroupedMatrix Ex.flatCost Ex.mixedWorld 0 0 (pin_indices Ex.mixedSection) = [[7]] ∧
    hungarian_matrix_ hm' ≠ ungroupedMatrix Ex.flatCost Ex.mixedWorld 0 0 (pin_indices Ex.mixedSection).
Proof.
  eexists. split; [vm_compute; reflexivity |].
  split; [reflexivity |]. split; [reflexivity |]. vm_compute. discriminate.
Qed.


(** C6 at two groups of two pins on the section 0..3. *)
Lemma createMatrixForGroups_blocks_witness :
  ∃ hm' blocks,
    createMatrixForGroups Ex.busCost (newHungarianMatching Ex.busSection 2) Ex.busWorld
      = Done hm' ∧
    Forall (λ g : PinGroup, Z.of_nat (length g.1) ≤ group_size_ hm')
      (pin_groups Ex.busSection) ∧
    Exists (λ g : PinGroup, Z.of_nat (length g.1) = group_size_ hm')
      (pin_groups Ex.busSection) ∧
    StronglySorted Z.lt blocks ∧
    (∀ i, i ∈ blocks ↔
       0 < group_size_ hm' ∧
       (∃ k : nat, i = begin_slot Ex.busSection + Z.of_nat k * group_size_ hm'
                   ∧ i + group_size_ hm' - 1 ≤ end_slot Ex.busSection) ∧
       blockFree (slots_ Ex.busWorld) (Z.to_nat (group_size_ hm')) i = true) ∧
    group_slots_ hm' = Z.of_nat (length blocks) ∧
    hungarian_matrix_ hm' =
      (λ i, groupRow Ex.busCost (slotPos (slots_ Ex.busWorld) i)
              (pin_groups Ex.busSection) (size_t_of_int 2)) <$> blocks.
Proof.
  apply (createMatrixForGroups_blocks Ex.busCost Ex.busSection 2 Ex.busWorld).
  - discriminate.
  - simpl. lia.
  - simpl. lia.
  - vm_compute. discriminate.
  - vm_compute. split; discriminate.
Defined.

(** C7 at the second block and the second group of the same section. *)
Lemma groupCell_cost_witness :
  let cost idx := Ex.busCost idx (slotPos (slots_ Ex.busWorld) 2) in
  ∃ row cell,
    hungarian_matrix_ Ex.busMatrix !! 1%nat = Some row ∧ row !! 1%nat = Some cell ∧
    (Forall (λ idx, cost idx ≠ hungarian_fail) [2; 3] →
       cell = wrap_int (sumZ (cost <$> [2; 3])) ∧
       (INT_MIN ≤ sumZ (cost <$> [2; 3]) ≤ INT_MAX → cell = sumZ (cost <$> [2; 3]))) ∧
    (∀ pre p post, [2; 3] = pre ++ p :: post →
       Forall (λ idx, cost idx ≠ hungarian_fail) pre →
       cost p = hungarian_fail → cell = hungarian_fail).
Proof.
  apply (groupCell_cost Ex.busCost Ex.busSection 2 Ex.busWorld Ex.busMatrix
           1 1 2 ([2; 3], false)).
  - discriminate.
  - simpl. lia.
  - simpl. lia.
  - vm_compute. discriminate.
  - vm_compute. split; discriminate.
  - vm_compute. reflexivity.
  - vm_compute. reflexivity.
  - reflexivity.
Defined.

(** C7 as stated fails: two members that each cost [2^30], neither the
    sentinel, give the cell [-2^31], not their sum [2^31]. *)
Lemma groupCell_overflow_counterexample :
  ∃ hm' row cell,
    createMatrixForGroups Ex.hugeCost (newHungarianMatching Ex.busSection 2) Ex.busWorld
      = Done hm' ∧
    hungarian_matrix_ hm' !! 0%nat = Some row ∧ row !! 0%nat = Some cell ∧
    Forall (λ idx, Ex.hugeCost idx (slotPos (slots_ Ex.busWorld) 0) ≠ hungarian_fail)
      [0; 1] ∧
    sumZ ((λ idx, Ex.hugeCost idx (slotPos (slots_ Ex.busWorld) 0)) <$> [0; 1])
      = 2147483648 ∧
    cell = -2147483648.
Proof.
  eexists _, _, _. split; [vm_compute; reflexivity |].
  split; [reflexivity |]. split; [reflexivity |].
  split; [repeat constructor; vm_compute; discriminate |].
  split; reflexivity.
Qed.

(** C1 at the scenario of the specification: three slots, two pins. *)
Lemma fresh_section_placed_witness :
  ∃ w' tgt,
    getFinalAssignment Ex.mirror Ex.idxOf Ex.trioMatcher Ex.trioWorld ∅ false = Done w' ∧
    length tgt = length (ungroupedOf (io_pins_ Ex.trioWorld) (pin_indices_ Ex.trioMatcher)) ∧
    NoDup tgt ∧
    (∀ i, i ∈ tgt → i ∈ unblockedIn (slots_ Ex.trioWorld) 0 2) ∧
    length (newlyUsed (slots_ Ex.trioWorld) (slots_ w') 0 2)
      = length (ungroupedOf (io_pins_ Ex.trioWorld) (pin_indices_ Ex.trioMatcher)).
Proof.
  destruct (fresh_section_placed Ex.mirror Ex.idxOf Ex.trioMatcher ∅ Ex.trioWorld)
    as (w' & tgt & H1 & _ & H3 & H4 & H5 & _ & _ & _ & H9).
  - simpl. lia.
  - simpl. lia.
  - vm_compute. discriminate.
  - reflexivity.
  - intros i s _ [_ Hs]%at_Some. apply list_elem_of_lookup_2 in Hs.
    revert s Hs. apply Forall_forall. by repeat constructor.
  - repeat constructor; eexists; reflexivity.
  - vm_compute. repeat constructor; set_solver.
  - intros idx p _ [_ Hp]%at_Some. apply list_elem_of_lookup_2 in Hp.
    revert p Hp. apply Forall_forall. by repeat constructor.
  - reflexivity.
  - intros [| [| c]] Hc; [by eexists | by eexists |]. vm_compute in Hc. lia.
  - intros [| [| [| r]]] c Hr Hc; simpl in Hr; try done; injection Hr as Hr.
    + lia.
    + assert (c = 0%nat) as -> by lia. by eexists _, _.
    + assert (c = 1%nat) as -> by lia. by eexists _, _.
  - by exists w', tgt.
Defined.

(** C1 as stated fails.  In mirror mode a pin without mirror partner is not
    placed: the run returns with no slot used, although the section has one
    unblocked slot and one pin outside any group.  And a slot that the
    mirror pass marked used for a partner is given to another pin by the
    pass that follows: with two unblocked slots and two pins outside any
    group in the section, pin 2 ends on slot 1, where the partner of pin 0
    already stands. *)
Lemma used_slot_counterexample :
  (getFinalAssignment Ex.mirror Ex.idxOf (Ex.pairMatcher 5) Ex.pairWorld ∅ true
     = Done Ex.pairWorld ∧
   length (unblockedIn (slots_ Ex.pairWorld) 0 0) = 1%nat ∧
   length (ungroupedOf (io_pins_ Ex.pairWorld) (pin_indices_ (Ex.pairMatcher 5))) = 1%nat ∧
   Forall (λ s, used s = false) (slots_ Ex.pairWorld)) ∧
  ∃ w1 w2,
    getFinalAssignment Ex.mirror Ex.idxOf Ex.crowdMatcher Ex.crowdWorld Ex.pairMirrors true
      = Done w1 ∧
    getFinalAssignment Ex.mirror Ex.idxOf Ex.crowdMatcher w1 Ex.pairMirrors false
      = Done w2 ∧
    length (unblockedIn (slots_ Ex.crowdWorld) 0 1) = 2%nat ∧
    length (ungroupedOf (io_pins_ Ex.crowdWorld) (pin_indices_ Ex.crowdMatcher)) = 2%nat ∧
    isUsed (slots_ w1) 1 = true ∧
    getPos <$> io_pins_ w1 = [mkPoint 0 0; mkPoint 10 0; mkPoint (-1) (-1)] ∧
    isPlaced <$> io_pins_ w1 = [true; true; false] ∧
    getPos <$> io_pins_ w2 = [mkPoint 0 0; mkPoint 10 0; mkPoint 10 0] ∧
    isPlaced <$> io_pins_ w2 = [true; true; true] ∧
    slotPos (slots_ w2) 1 = mkPoint 10 0.
Proof.
  split.
  - split; [vm_compute; reflexivity |]. split; [reflexivity |].
    split; [reflexivity |]. by repeat constructor.
  - eexists _, _. split; [vm_compute; reflexivity |].
    split; [vm_compute; reflexivity |]. by split_and!.
Qed.

(** C5 at the first group of the bus section. *)
Lemma group_block_placed_witness :
  ∃ nb' w',
    groupRowLoop Ex.busSolved ([0; 1], false) 0
      (size_t_of_int (group_slots_ Ex.busSolved)) 0 0 (4, Ex.busWorld) = Done (nb', w') ∧
    (∀ j sl, 0 ≤ j < 0 + 2 → at_ (slots_ Ex.busWorld) j = Some sl →
       at_ (slots_ w') j = Some (setBlocked (setUsed sl))) ∧
    nb' = 4 - 2.
Proof.
  destruct (group_block_placed Ex.busSolved ([0; 1], false) 0 0 0 4 Ex.busWorld)
    as (nb' & w' & H1 & _ & _ & H4 & _ & _ & H7).
  - simpl. lia.
  - simpl. lia.
  - vm_compute. lia.
  - vm_compute. reflexivity.
  - vm_compute. reflexivity.
  - simpl. lia.
  - simpl. repeat constructor; set_solver.
  - repeat constructor; eexists; reflexivity.
  - exists nb', w'. split_and!; [done | done |]. apply H7. simpl. lia.
Defined.

(** C5 at a section with two groups.  The matrix of the bus section has one
    row for the block that starts at slot 0 and one for the block that
    starts at slot 2, and the assignment gives group 0 the first and group 1
    the second.  [getAssignmentForGroups] puts the members of group 1 on
    slots 4 and 5, outside the section, leaves slots 2 and 3 untouched, and
    lowers the counter by two for four pins. *)
Theorem second_group_misplaced :
  createMatrixForGroups Ex.busCost (newHungarianMatching Ex.busSection 2) Ex.busWorld
    = Done Ex.busMatrix ∧
  filter (λ i, Is_true (blockFree (slots_ Ex.busWorld) 2 i)) (candidateStarts 0 3 2)
    = [0; 2] ∧
  Ex.busSolved = solvedAs Ex.busMatrix [0; 1] ∧
  ∃ hm' w',
    getAssignmentForGroups Ex.busSolved Ex.busWorld = Done (hm', w') ∧
    getPos <$> io_pins_ w' = pos <$> [Ex.slotAt 0; Ex.slotAt 10; Ex.slotAt 40; Ex.slotAt 50] ∧
    used <$> slots_ w' = [true; true; false; false; true; true] ∧
    blocked <$> slots_ w' = [true; true; false; false; true; true] ∧
    non_blocked_slots_ hm' = 2.
Proof.
  split; [vm_compute; reflexivity |]. split; [vm_compute; reflexivity |].
  split; [reflexivity |]. eexists _, _. split; [vm_compute; reflexivity |].
  by split_and!.
Qed.

(** C9 at a pin placed by a first run. *)
Lemma rerun_idempotent_witness :
  ∃ w2,
    getFinalAssignment Ex.mirror Ex.idxOf (Ex.pairMatcher 5) Ex.pairAfter ∅ false
      = Done w2 ∧
    io_pins_ w2 = io_pins_ Ex.pairAfter ∧ slots_ w2 = slots_ Ex.pairAfter ∧
    assignment w2 = assignment Ex.pairAfter.
Proof.
  apply (rerun_idempotent Ex.mirror Ex.idxOf (Ex.pairMatcher 5) ∅ false
           Ex.pairWorld Ex.pairAfter).
  - split; [simpl; lia | vm_compute; lia].
  - split; [vm_compute; lia |].
    intros [| r] c Hr Hc; [| vm_compute in Hr; lia].
    injection Hc as Hc. assert (c = 0%nat) as -> by lia. by eexists _, _.
  - vm_compute. reflexivity.
Defined.

(** C10 at a section with room for its row, and at a section whose only slot
    is blocked. *)
Lemma slot_subscripts_witness :
  (∀ f, getFinalAssignment Ex.mirror Ex.idxOf (Ex.pairMatcher 5) Ex.pairWorld ∅ false
          = Undefined f → f ≠ SlotOutOfRange ∧ f ≠ Diverges) ∧
  getFinalAssignment Ex.mirror Ex.idxOf (Ex.pairMatcher 5) Ex.blockedWorld ∅ false
    = Undefined SlotOutOfRange.
Proof.
  destruct (slot_subscripts Ex.mirror Ex.idxOf) as (Ha & Hb & _ & _). split.
  - intros f. apply Ha. split; [simpl; lia | vm_compute; lia].
  - apply Hb.
    + repeat constructor; eexists; reflexivity.
    + vm_compute. discriminate.
    + vm_compute. lia.
    + simpl. lia.
    + reflexivity.
Defined.

(** C10 as stated fails: on five slots the scan of group 1 finds its row at
    slot 4, an unblocked slot inside the vector, as every scan before it
    did; the second member of the group is then written to slot 5, past the
    end of the vector. *)
Lemma group_overrun_counterexample :
  groupRowLoop Ex.busSolved ([0; 1], false) 0 2 0 0 (4, Ex.shortBusWorld)
    = Done (2, Ex.busAfter0 (slots_ Ex.shortBusWorld)) ∧
  skipBlocked 5 2 Ex.shortBusWorld 0 = Done 0 ∧
  skipBlocked 5 2 (Ex.busAfter0 (slots_ Ex.shortBusWorld)) 0 = Done 2 ∧
  skipBlocked 5 2 (Ex.busAfter0 (slots_ Ex.shortBusWorld)) 4 = Done 4 ∧
  assignment_ Ex.busSolved !! 1%nat = Some 1 ∧
  length (slots_ Ex.shortBusWorld) = 5%nat ∧
  getAssignmentForGroups Ex.busSolved Ex.shortBusWorld = Undefined SlotOutOfRange.
Proof. by split_and!; vm_compute. Qed.

(** * Further properties of the matcher *)

(** ** getSlotIdxByPosition *)

Lemma findSlot_first (l : list Slot) (k : Z) (position : Point) (lay : Z)
    (j : Z) (s : Slot) :
  k ≤ j < findSlot l k position lay → l !! Z.to_nat (j - k) = Some s →
  ¬ (pos s = position ∧ layer s = lay).
Proof.
  revert k. induction l as [| s0 l IH]; intros k Hj Hs; [done |].
  simpl in Hj.
  destruct (bool_decide (pos s0 = position) && (layer s0 =? lay)) eqn:Hm; [lia |].
  destruct (decide (j = k)) as [-> | Hne].
  - replace (Z.to_nat (k - k)) with 0%nat in Hs by lia. injection Hs as <-.
    intros [Hp Hl]. apply andb_false_iff in Hm as [Hm | Hm].
    + by apply bool_decide_eq_false in Hm.
    + by apply Z.eqb_neq in Hm.
  - apply (IH (k + 1)); [lia |].
    replace (Z.to_nat (j - k)) with (S (Z.to_nat (j - (k + 1)))) in Hs by lia.
    done.
Qed.

(** X1.  [getSlotIdxByPosition] returns [-1] exactly when no slot of the
    vector has the position and the layer, and otherwise the smallest index of
    a slot that has both; the [blocked] and [used] flags play no part. *)
Theorem getSlotIdxByPosition_first (w : World) (position : Point) (lay j : Z) :
  getSlotIdxByPosition w position lay = j ↔
  (j = -1 ∧ Forall (λ s, ¬ (pos s = position ∧ layer s = lay)) (slots_ w)) ∨
  (∃ s, at_ (slots_ w) j = Some s ∧ pos s = position ∧ layer s = lay ∧
        ∀ k s', 0 ≤ k < j → at_ (slots_ w) k = Some s' →
                ¬ (pos s' = position ∧ layer s' = lay)).
Proof.
  assert (∀ j', getSlotIdxByPosition w position lay = j' →
            (j' = -1 ∧ Forall (λ s, ¬ (pos s = position ∧ layer s = lay)) (slots_ w)) ∨
            (∃ s, at_ (slots_ w) j' = Some s ∧ pos s = position ∧ layer s = lay ∧
                  ∀ k s', 0 ≤ k < j' → at_ (slots_ w) k = Some s' →
                          ¬ (pos s' = position ∧ layer s' = lay))) as Hfwd.
  { intros j' <-.
    destruct (getSlotIdxByPosition_spec w position lay)
      as [H | (s & H0 & Hs & Hp & Hl)]; [by left |].
    right. exists s. split_and!; try done.
    intros k s' Hk [_ Hs']%at_Some.
    apply (findSlot_first (slots_ w) 0 position lay k s'); [done |].
    by rewrite Z.sub_0_r. }
  split; [apply Hfwd |].
  intros [[-> Hnone] | (s & Hs & Hp & Hl & Hfirst)].
  - by apply findSlot_none.
  - destruct (Hfwd _ eq_refl) as [[_ Hnone] | (s1 & Hs1 & Hp1 & Hl1 & Hfirst1)].
    + apply at_Some in Hs as [_ Hs]. apply list_elem_of_lookup_2 in Hs.
      rewrite Forall_forall in Hnone. by destruct (Hnone s Hs).
    + apply at_Some in Hs as Hj. apply at_Some in Hs1 as Hj1.
      destruct (Z.lt_trichotomy (getSlotIdxByPosition w position lay) j)
        as [Hlt | [Heq | Hgt]]; [| done |].
      * destruct (Hfirst _ s1 (conj (proj1 Hj1) Hlt) Hs1). done.
      * destruct (Hfirst1 _ s (conj (proj1 Hj) Hgt) Hs). done.
Qed.

(** ** The cost of a group *)

Lemma groupHpwl_Exists (computeIONetHPWL : Z → Point → Z) (newPos : Point)
    (pins : list Z) (acc : Z) :
  Exists (λ idx, computeIONetHPWL idx newPos = hungarian_fail) pins →
  groupHpwl computeIONetHPWL newPos pins acc = hungarian_fail.
Proof.
  revert acc. induction pins as [| idx pins IH]; intros acc H; [by inversion H |].
  simpl. destruct (computeIONetHPWL idx newPos =? hungarian_fail) eqn:Hc; [done |].
  apply Z.eqb_neq in Hc. apply IH. by apply Exists_cons in H as [H | H].
Qed.

Lemma sumZ_Permutation (l l' : list Z) : l ≡ₚ l' → sumZ l = sumZ l'.
Proof.
  unfold sumZ. induction 1 as [| x l l' _ IH | x y l | l1 l2 l3 _ IH1 _ IH2]; simpl; lia.
Qed.

(** X2.  The cell that [createMatrixForGroups] computes for a group does not
    depend on the order in which the group lists its members: it is the
    sentinel when some member costs the sentinel, and the 32-bit sum of the
    member costs otherwise. *)
Theorem groupHpwl_order (computeIONetHPWL : Z → Point → Z) (newPos : Point)
    (pins pins' : list Z) :
  pins ≡ₚ pins' →
  groupHpwl computeIONetHPWL newPos pins 0 = groupHpwl computeIONetHPWL newPos pins' 0.
Proof.
  intros Hperm.
  destruct (decide (Exists (λ idx, computeIONetHPWL idx newPos = hungarian_fail) pins))
    as [Hex | Hfin].
  - rewrite !groupHpwl_Exists; [done | by rewrite <- Hperm | done].
  - apply not_Exists_Forall in Hfin; [| intros idx; apply _].
    assert (∀ l, Forall (λ idx, ¬ computeIONetHPWL idx newPos = hungarian_fail) l →
              Forall (λ c, c ≠ hungarian_fail) ((λ idx, computeIONetHPWL idx newPos) <$> l))
      as Hmap by (intros l Hl; by apply Forall_fmap).
    rewrite !groupHpwl_finite;
      [| done | apply Hmap; by rewrite <- Hperm | done | by apply Hmap].
    f_equal. f_equal. apply sumZ_Permutation. by apply fmap_Permutation.
Qed.

(** ** Sections without groups, and a second call *)

(** X3.  When [getAssignmentForGroups] has returned, a second call changes
    nothing: the first call left the matrix empty, and the guard at the top
    returns at once. *)
Theorem getAssignmentForGroups_again (hm hm' : HungarianMatching) (w w' : World) :
  getAssignmentForGroups hm w = Done (hm', w') →
  getAssignmentForGroups hm' w' = Done (hm', w').
Proof.
  unfold getAssignmentForGroups at 1. case_bool_decide as Hm.
  - intros [= <- <-]. unfold getAssignmentForGroups. by rewrite bool_decide_eq_true_2.
  - intros (r & _ & [= <- <-])%bind_Done. reflexivity.
Qed.

(** X4.  A section whose groups hold no pin (in particular a section without
    groups) gets no grouped matrix: [createMatrixForGroups] reads no slot,
    leaves the matrix empty and [group_slots_] at zero, and
    [getAssignmentForGroups] then returns without touching the storage. *)
Theorem createMatrixForGroups_no_pins (computeIONetHPWL : Z → Point → Z)
    (section : SectionRec) (numIOGroups : Z) (w : World) :
  Forall (λ g : PinGroup, g.1 = []) (pin_groups section) →
  ∃ hm',
    createMatrixForGroups computeIONetHPWL (newHungarianMatching section numIOGroups) w
      = Done hm' ∧
    hungarian_matrix_ hm' = [] ∧ group_slots_ hm' = 0 ∧ group_size_ hm' ≤ 0 ∧
    ∀ w0, getAssignmentForGroups hm' w0 = Done (hm', w0).
Proof.
  intros Hempty. unfold createMatrixForGroups.
  assert (maxGroupSize (pin_groups section) (-1) ≤ 0) as Hgs.
  { destruct (maxGroupSize_attained (pin_groups section) (-1)) as [-> | Hex]; [lia |].
    apply Exists_exists in Hex as (g & Hg & <-).
    rewrite Forall_forall in Hempty. rewrite (Hempty g Hg). simpl. lia. }
  cbn [group_size_ pin_groups_ newHungarianMatching withGroupSize].
  destruct (0 <? maxGroupSize (pin_groups section) (-1)) eqn:Hpos;
    [apply Z.ltb_lt in Hpos; lia |].
  eexists. split; [reflexivity |]. split_and!; try done.
Qed.

(** ** What the materializers can change *)

Global Instance usedSet_preorder : PreOrder usedSet.
Proof.
  split; [by left |]. intros s1 s2 s3 [-> | ->] [-> | ->]; [by left | by right | by right |].
  right. by destruct s1.
Qed.

Global Instance pinPlaced_preorder : PreOrder pinPlaced.
Proof.
  split; [by left |].
  intros p1 p2 p3 [-> | (H1 & H2 & H3 & H4)] [-> | (H5 & H6 & H7 & H8)];
    [by left | right; done | right; done |].
  right. split_and!; congruence.
Qed.

Global Instance blockTaken_preorder : PreOrder blockTaken.
Proof.
  split; [by left |]. intros s1 s2 s3 [-> | ->] [-> | ->]; [by left | by right | by right |].
  right. by destruct s1.
Qed.

Global Instance pinMoved_preorder : PreOrder pinMoved.
Proof.
  split; [done |].
  intros p1 p2 p3 (H1 & H2 & H3 & H4) (H5 & H6 & H7 & H8). split_and!; congruence.
Qed.

Section Within.

Variable Rs : relation Slot.
Variable Rp : relation IOPin.
Context `{!PreOrder Rs, !PreOrder Rp}.

Lemma within_refl (w : World) : within Rs Rp w w.
Proof. by split_and!. Qed.

Lemma within_trans (w1 w2 w3 : World) :
  within Rs Rp w1 w2 → within Rs Rp w2 w3 → within Rs Rp w1 w3.
Proof.
  intros (H1 & H2 & H3 & H4) (H5 & H6 & H7 & H8).
  split_and!; by etrans.
Qed.

Lemma Forall2_upd {A} (R : relation A) `{!Reflexive R} (v : list A) (i : Z) (x y : A) :
  at_ v i = Some x → R x y → Forall2 R v (upd v i y).
Proof.
  intros [_ Hx]%at_Some HR. unfold upd.
  rewrite <- (list_insert_id v (Z.to_nat i) x) at 1 by done.
  by apply Forall2_insert.
Qed.

Lemma within_setIoPin (w : World) (idx : Z) (p p' : IOPin) :
  at_ (io_pins_ w) idx = Some p → Rp p p' → within Rs Rp w (setIoPin w idx p').
Proof.
  intros Hp HR. split_and!; simpl; [reflexivity | | reflexivity ..].
  exact (Forall2_upd Rp _ idx p p' Hp HR).
Qed.

Lemma within_setSlot (w : World) (i : Z) (s s' : Slot) :
  at_ (slots_ w) i = Some s → Rs s s' → within Rs Rp w (setSlot w i s').
Proof.
  intros Hs HR. split_and!; simpl; [| reflexivity ..].
  exact (Forall2_upd Rs _ i s s' Hs HR).
Qed.

Lemma within_push_back (w : World) (p : IOPin) : within Rs Rp w (push_back w p).
Proof. split_and!; simpl; [reflexivity .. | by apply prefix_app_r | reflexivity]. Qed.

Lemma within_logEvent (w : World) (e : LogEvent) : within Rs Rp w (logEvent w e).
Proof. split_and!; simpl; [reflexivity .. | by apply prefix_app_r]. Qed.

End Within.

Section UngroupedFrame.

Variable mirror : Point → Point.
Variable idxOf : BTerm → Z.

Local Abbreviation keeps := (within usedSet pinPlaced).

Lemma keeps_afterPlace (w : World) (idx i : Z) (p : IOPin) (s : Slot) :
  at_ (io_pins_ w) idx = Some p → at_ (slots_ w) i = Some s →
  keeps w (afterPlace w idx i p s).
Proof.
  intros Hp Hs. unfold afterPlace.
  eapply within_trans; [apply _ .. | |].
  { apply (within_setIoPin usedSet pinPlaced w idx p (placedPin p s) Hp). by right. }
  eapply within_trans; [apply _ .. | |]; [apply within_push_back; apply _ |].
  apply (within_setSlot usedSet pinPlaced _ i s); [done | by right].
Qed.

Lemma placePin_keeps (partner : option BTerm) (idx i : Z) (w w' : World) :
  placePin mirror idxOf partner idx i w = Done w' ∨
  placePin mirror idxOf partner idx i w = Raise w' →
  keeps w w'.
Proof.
  intros Hrun.
  destruct (at_ (io_pins_ w) idx) as [p |] eqn:Hp.
  2:{ unfold placePin in Hrun. rewrite (getIoPin_None _ _ Hp) in Hrun.
      by destruct Hrun. }
  destruct (at_ (slots_ w) i) as [s |] eqn:Hs.
  2:{ unfold placePin in Hrun.
      rewrite (proj2 (getIoPin_Done _ _ _) Hp), Done_bind, (getSlot_None _ _ Hs) in Hrun.
      by destruct Hrun. }
  pose proof (keeps_afterPlace w idx i p s Hp Hs) as H1.
  destruct partner as [m |].
  - destruct Hrun as [Hrun | Hrun].
    + pose proof (placePin_Some_Done mirror idxOf m idx i w w' p s Hp Hs Hrun)
        as (pb & sj & j & Hpb & Hj & Hsj & _ & _ & Hw').
      rewrite Hw'. eapply within_trans; [apply _ .. | exact H1 |].
      eapply within_trans; [apply _ .. | |].
      { apply (within_setIoPin usedSet pinPlaced _ (idxOf m) pb
                 (mirroredPin pb (mirror (pos s)) s) Hpb). by right. }
      eapply within_trans; [apply _ .. | |]; [apply within_push_back; apply _ |].
      apply (within_setSlot usedSet pinPlaced _ j sj); [done | by right].
    + pose proof (placePin_Some_Raise mirror idxOf m idx i w w' p s Hp Hs Hrun)
        as (pb & Hpb & _ & Hw').
      rewrite Hw'. eapply within_trans; [apply _ .. | exact H1 |].
      eapply within_trans; [apply _ .. | |].
      { apply (within_setIoPin usedSet pinPlaced _ (idxOf m) pb
                 (mirroredPin pb (mirror (pos s)) s) Hpb). by right. }
      eapply within_trans; [apply _ .. | |]; [apply within_push_back; apply _ |].
      apply within_logEvent; apply _.
  - rewrite (placePin_None mirror idxOf idx i w p s Hp Hs) in Hrun.
    by destruct Hrun as [[= <-] | [=]].
Qed.

Lemma rowLoop_keeps (hm : HungarianMatching) (am : bool) (mp : gmap BTerm BTerm)
    (idx : Z) (col n row : nat) (si : Z) (w w' : World) :
  rowLoop mirror idxOf hm am mp idx col n row si w = Done w' ∨
  rowLoop mirror idxOf hm am mp idx col n row si w = Raise w' →
  keeps w w'.
Proof.
  revert row si w. induction n as [| n IH]; intros row si w Hrun; cbn [rowLoop] in Hrun.
  - destruct Hrun as [[= <-] | [=]]. apply within_refl; apply _.
  - destruct (skipBlocked (length (slots_ w)) 1 w si) as [si' | wr | f] eqn:Hskip;
      [rewrite Done_bind in Hrun | by apply skipBlocked_no_Raise in Hskip
       | by destruct Hrun].
    destruct (assignment_ hm !! row) as [a |]; [| by destruct Hrun].
    cbn [orFault] in Hrun. rewrite Done_bind in Hrun.
    destruct (negb (a =? Z.of_nat col)); [by eapply IH |].
    destruct (hungarian_matrix_ hm !! row) as [cells |]; [| by destruct Hrun].
    cbn [orFault] in Hrun. rewrite Done_bind in Hrun.
    destruct (cells !! col) as [cost |]; [| by destruct Hrun].
    cbn [orFault] in Hrun. rewrite Done_bind in Hrun.
    destruct (at_ (io_pins_ w) idx) as [p |] eqn:Hp;
      [rewrite (proj2 (getIoPin_Done _ _ _) Hp), Done_bind in Hrun
      | rewrite (getIoPin_None _ _ Hp) in Hrun; by destruct Hrun].
    cbv zeta in Hrun.
    assert (keeps w (if cost =? hungarian_fail
                     then logEvent w (Warn33 (getName p)) else w)) as Hw.
    { destruct (cost =? hungarian_fail);
        [apply within_logEvent | apply within_refl]; apply _. }
    eapply within_trans; [apply _ .. | exact Hw |].
    destruct (skipPin am mp p); [by eapply IH | by eapply placePin_keeps].
Qed.

Lemma pinLoop_keeps (hm : HungarianMatching) (am : bool) (mp : gmap BTerm BTerm)
    (idxs : list Z) (st : nat * World) (w' : World) :
  (∃ col', pinLoop mirror idxOf hm am mp idxs st = Done (col', w')) ∨
  pinLoop mirror idxOf hm am mp idxs st = Raise w' →
  keeps st.2 w'.
Proof.
  revert st. induction idxs as [| idx idxs IH]; intros st Hrun; cbn [pinLoop] in Hrun.
  - destruct Hrun as [[col' [= ->]] | [=]]. apply within_refl; apply _.
  - destruct (at_ (io_pins_ st.2) idx) as [p |] eqn:Hp;
      [rewrite (proj2 (getIoPin_Done _ _ _) Hp), Done_bind in Hrun
      | rewrite (getIoPin_None _ _ Hp) in Hrun; by destruct Hrun as [[? ?] | ?]].
    destruct (isInGroup p); [by apply IH |].
    destruct (rowLoop mirror idxOf hm am mp idx st.1
                (size_t_of_int (non_blocked_slots_ hm)) 0 (begin_slot_ hm) st.2)
      as [w1 | wr | f] eqn:Hrow.
    + rewrite Done_bind in Hrun.
      eapply within_trans; [apply _ .. | | exact (IH _ Hrun)].
      eapply rowLoop_keeps. by left.
    + assert (wr = w') as -> by (by destruct Hrun as [[? ?] | [= ->]]).
      eapply rowLoop_keeps. by right.
    + by destruct Hrun as [[? ?] | ?].
Qed.

End UngroupedFrame.

(** X5.  Whether it returns or ends in the fatal error, [getFinalAssignment]
    changes a slot at most by setting its [used] flag, so that no slot is
    moved, blocked, unblocked or freed; it changes a pin at most by placing
    it, with its name, handle and group flag as before; and it only appends
    to the output vector and to the log.  The slot vector and the pin table
    keep their lengths. *)
Theorem getFinalAssignment_keeps (mirror : Point → Point) (idxOf : BTerm → Z)
    (hm : HungarianMatching) (w : World) (mp : gmap BTerm BTerm) (am : bool)
    (w' : World) :
  getFinalAssignment mirror idxOf hm w mp am = Done w' ∨
  getFinalAssignment mirror idxOf hm w mp am = Raise w' →
  within usedSet pinPlaced w w' ∧
  length (slots_ w') = length (slots_ w) ∧ length (io_pins_ w') = length (io_pins_ w).
Proof.
  intros Hrun.
  assert (within usedSet pinPlaced w w') as H.
  { apply (pinLoop_keeps mirror idxOf hm am mp (pin_indices_ hm) (0%nat, w)).
    unfold getFinalAssignment in Hrun.
    destruct (pinLoop mirror idxOf hm am mp (pin_indices_ hm) (0%nat, w))
      as [[col' w1] | wr | f]; simpl in Hrun.
    - left. exists col'. by destruct Hrun as [[= ->] | [=]].
    - right. by destruct Hrun as [[=] | [= ->]].
    - by destruct Hrun. }
  split; [done |]. destruct H as (H1 & H2 & _).
  split; symmetry; by eapply Forall2_length.
Qed.

Section GroupedFrame.

Variable hm : HungarianMatching.

Local Abbreviation takes := (within blockTaken pinMoved).

Lemma placeGroup_takes (rev : bool) (pins : list Z) (s c : Z) (st st' : Z * World) :
  placeGroup hm rev pins s c st = Done st' →
  takes st.2 st'.2 ∧ logger_ st'.2 = logger_ st.2 ∧
  st.1 - Z.of_nat (length pins) ≤ st'.1 ≤ st.1.
Proof.
  revert c st. induction pins as [| idx pins IH]; intros c st Hrun; cbn [placeGroup] in Hrun.
  - injection Hrun as <-. split; [apply within_refl; apply _ |]. split; [done |].
    simpl. lia.
  - cbv zeta in Hrun.
    apply bind_Done in Hrun as (p & Hp & Hrun). apply getIoPin_Done in Hp.
    apply bind_Done in Hrun as (sl & Hs & Hrun). apply getSlot_Done in Hs.
    apply IH in Hrun as (H1 & H2 & H3). cbn [fst snd] in *.
    split; [| split].
    + eapply within_trans; [apply _ .. | | exact H1].
      eapply within_trans; [apply _ .. | |].
      { apply (within_setIoPin blockTaken pinMoved st.2 idx p
                 (setLayer (setPos p (pos sl)) (layer sl)) Hp). done. }
      eapply within_trans; [apply _ .. | |]; [apply within_push_back; apply _ |].
      apply (within_setSlot blockTaken pinMoved _ (s + c) sl); [done | by right].
    + by rewrite H2.
    + change (length (idx :: pins)) with (S (length pins)).
      destruct (s + c <=? end_slot_ hm); lia.
Qed.

Lemma placeGroup_no_Raise (rev : bool) (pins : list Z) (s c : Z) (st : Z * World)
    (w' : World) :
  placeGroup hm rev pins s c st ≠ Raise w'.
Proof.
  revert c st. induction pins as [| idx pins IH]; intros c st; cbn [placeGroup]; [done |].
  cbv zeta. unfold getIoPin, getSlot.
  destruct (at_ (io_pins_ st.2) idx) as [p |]; [| done]. cbn [orFault]. rewrite Done_bind.
  destruct (at_ (slots_ st.2) (s + c)) as [sl |]; [| done]. cbn [orFault]. rewrite Done_bind.
  apply IH.
Qed.

Lemma groupRowLoop_takes (g : PinGroup) (col n row : nat) (si : Z) (st st' : Z * World) :
  groupRowLoop hm g col n row si st = Done st' →
  takes st.2 st'.2 ∧ logger_ st'.2 = logger_ st.2 ∧
  st.1 - Z.of_nat (length g.1) ≤ st'.1 ≤ st.1.
Proof.
  revert row si. induction n as [| n IH]; intros row si Hrun; cbn [groupRowLoop] in Hrun.
  - injection Hrun as <-. split; [apply within_refl; apply _ |]. split; [done | lia].
  - apply bind_Done in Hrun as (si' & _ & Hrun).
    apply bind_Done in Hrun as (a & _ & Hrun).
    destruct (negb (a =? Z.of_nat col)); [by eapply IH |].
    by eapply placeGroup_takes.
Qed.

Lemma groupRowLoop_no_Raise (g : PinGroup) (col n row : nat) (si : Z) (st : Z * World)
    (w' : World) :
  groupRowLoop hm g col n row si st ≠ Raise w'.
Proof.
  revert row si. induction n as [| n IH]; intros row si; cbn [groupRowLoop]; [done |].
  destruct (skipBlocked (length (slots_ st.2)) (group_size_ hm) st.2 si)
    as [si' | wr | f] eqn:Hskip;
    [rewrite Done_bind | by apply skipBlocked_no_Raise in Hskip | done].
  destruct (assignment_ hm !! row) as [a |]; [| done]. cbn [orFault]. rewrite Done_bind.
  destruct (negb (a =? Z.of_nat col)); [apply IH | apply placeGroup_no_Raise].
Qed.

Lemma groupLoop_takes (groups : list PinGroup) (col : nat) (st : Z * World)
    (r : nat * (Z * World)) :
  groupLoop hm groups col st = Done r →
  takes st.2 r.2.2 ∧ logger_ r.2.2 = logger_ st.2 ∧
  st.1 - Z.of_nat (length (mjoin (fst <$> groups))) ≤ r.2.1 ≤ st.1.
Proof.
  revert col st. induction groups as [| g groups IH]; intros col st Hrun;
    cbn [groupLoop] in Hrun.
  - injection Hrun as <-. split; [apply within_refl; apply _ |]. split; [done |].
    simpl. lia.
  - apply bind_Done in Hrun as (st1 & Hrow & Hrun).
    apply groupRowLoop_takes in Hrow as (H1 & H2 & H3).
    apply IH in Hrun as (H4 & H5 & H6).
    split; [by eapply within_trans; [apply _ .. | exact H1 | exact H4] |].
    split; [congruence |].
    change (mjoin (fst <$> g :: groups)) with (g.1 ++ mjoin (fst <$> groups)).
    rewrite length_app, Nat2Z.inj_add. lia.
Qed.

Lemma groupLoop_no_Raise (groups : list PinGroup) (col : nat) (st : Z * World)
    (w' : World) :
  groupLoop hm groups col st ≠ Raise w'.
Proof.
  revert col st. induction groups as [| g groups IH]; intros col st; cbn [groupLoop];
    [done |].
  destruct (groupRowLoop hm g col (size_t_of_int (group_slots_ hm)) 0 (begin_slot_ hm) st)
    as [st1 | wr | f] eqn:Hrow;
    [rewrite Done_bind; apply IH | by apply groupRowLoop_no_Raise in Hrow | done].
Qed.

End GroupedFrame.

(** X6.  [getAssignmentForGroups] changes a slot at most by setting both its
    [used] and its [blocked] flag, and a pin at most in its position and its
    layer: it never marks a pin placed.  It only appends to the output
    vector, writes nothing to the log and never ends in the fatal error.  The
    counter of unblocked slots never rises and drops by at most the number of
    grouped pins; the matrix is empty afterwards; the section's bounds, its
    groups and the block size stay as they were. *)
Theorem getAssignmentForGroups_keeps (hm hm' : HungarianMatching) (w w' : World) :
  getAssignmentForGroups hm w = Done (hm', w') →
  within blockTaken pinMoved w w' ∧ logger_ w' = logger_ w ∧
  non_blocked_slots_ hm - Z.of_nat (length (mjoin (fst <$> pin_groups_ hm)))
    ≤ non_blocked_slots_ hm' ≤ non_blocked_slots_ hm ∧
  hungarian_matrix_ hm' = [] ∧
  pin_groups_ hm' = pin_groups_ hm ∧ pin_indices_ hm' = pin_indices_ hm ∧
  begin_slot_ hm' = begin_slot_ hm ∧ end_slot_ hm' = end_slot_ hm ∧
  group_size_ hm' = group_size_ hm ∧ group_slots_ hm' = group_slots_ hm ∧
  ∀ w'', getAssignmentForGroups hm w ≠ Raise w''.
Proof.
  intros Hrun.
  assert (∀ w'', getAssignmentForGroups hm w ≠ Raise w'') as Hno.
  { intros w''. unfold getAssignmentForGroups. case_bool_decide; [done |].
    destruct (groupLoop hm (pin_groups_ hm) 0 (non_blocked_slots_ hm, w))
      as [r | wr | f] eqn:Hloop; [done | by apply groupLoop_no_Raise in Hloop | done]. }
  unfold getAssignmentForGroups in Hrun. case_bool_decide as Hm.
  - injection Hrun as <- <-.
    split_and!; try done; lia.
  - apply bind_Done in Hrun as (r & Hloop & [= <- <-]).
    apply groupLoop_takes in Hloop as (H1 & H2 & H3). cbn [fst snd] in *.
    split_and!; try done; cbn [non_blocked_slots_]; lia.
Qed.

(** ** The fatal error *)

Lemma placePin_None_no_Raise (mirror : Point → Point) (idxOf : BTerm → Z)
    (idx i : Z) (w w' : World) :
  placePin mirror idxOf None idx i w ≠ Raise w'.
Proof.
  unfold placePin, getIoPin, getSlot.
  destruct (at_ (io_pins_ w) idx) as [p |]; [| done]. cbn [orFault]. rewrite Done_bind.
  destruct (at_ (slots_ w) i) as [s |]; done.
Qed.

Lemma rowLoop_plain_no_Raise (mirror : Point → Point) (idxOf : BTerm → Z)
    (hm : HungarianMatching) (mp : gmap BTerm BTerm) (idx : Z) (col n row : nat)
    (si : Z) (w w' : World) :
  rowLoop mirror idxOf hm false mp idx col n row si w ≠ Raise w'.
Proof.
  revert row si w. induction n as [| n IH]; intros row si w; cbn [rowLoop]; [done |].
  destruct (skipBlocked (length (slots_ w)) 1 w si) as [si' | wr | f] eqn:Hskip;
    [rewrite Done_bind | by apply skipBlocked_no_Raise in Hskip | done].
  destruct (assignment_ hm !! row) as [a |]; [| done]. cbn [orFault]. rewrite Done_bind.
  destruct (negb (a =? Z.of_nat col)); [apply IH |].
  destruct (hungarian_matrix_ hm !! row) as [cells |]; [| done].
  cbn [orFault]. rewrite Done_bind.
  destruct (cells !! col) as [cost |]; [| done]. cbn [orFault]. rewrite Done_bind.
  destruct (at_ (io_pins_ w) idx) as [p |] eqn:Hp;
    [rewrite (proj2 (getIoPin_Done _ _ _) Hp), Done_bind
    | by rewrite (getIoPin_None _ _ Hp)].
  cbv zeta. destruct (skipPin false mp p); [apply IH | apply placePin_None_no_Raise].
Qed.

Lemma pinLoop_plain_no_Raise (mirror : Point → Point) (idxOf : BTerm → Z)
    (hm : HungarianMatching) (mp : gmap BTerm BTerm) (idxs : list Z)
    (st : nat * World) (w' : World) :
  pinLoop mirror idxOf hm false mp idxs st ≠ Raise w'.
Proof.
  revert st. induction idxs as [| idx idxs IH]; intros st; cbn [pinLoop]; [done |].
  destruct (at_ (io_pins_ st.2) idx) as [p |] eqn:Hp;
    [rewrite (proj2 (getIoPin_Done _ _ _) Hp), Done_bind
    | by rewrite (getIoPin_None _ _ Hp)].
  destruct (isInGroup p); [apply IH |].
  destruct (rowLoop mirror idxOf hm false mp idx st.1
              (size_t_of_int (non_blocked_slots_ hm)) 0 (begin_slot_ hm) st.2)
    as [w1 | wr | f] eqn:Hrow;
    [rewrite Done_bind; apply IH | by apply rowLoop_plain_no_Raise in Hrow | done].
Qed.

(** X7.  Only the mirror pass can end in the fatal error: in non-mirror mode
    [getFinalAssignment] never throws, whatever the matcher and the storage
    hold. *)
Theorem plain_pass_no_error (mirror : Point → Point) (idxOf : BTerm → Z)
    (hm : HungarianMatching) (w : World) (mp : gmap BTerm BTerm) (w' : World) :
  getFinalAssignment mirror idxOf hm w mp false ≠ Raise w'.
Proof.
  unfold getFinalAssignment.
  destruct (pinLoop mirror idxOf hm false mp (pin_indices_ hm) (0%nat, w))
    as [st | wr | f] eqn:Hloop;
    [done | by apply pinLoop_plain_no_Raise in Hloop | done].
Qed.

(** ** createMatrix and the counter of unblocked slots *)

Section CounterTooSmall.

Variable computeIONetHPWL : Z → Point → Z.
Variable w : World.
Variable hm : HungarianMatching.

Hypothesis pins_valid :
  Forall (λ idx, is_Some (at_ (io_pins_ w) idx)) (pin_indices_ hm).
Hypothesis width :
  size_t_of_int (num_io_pins_ hm) = length (pin_indices_ hm).

Lemma createMatrixLoop_short (n : nat) (i : Z) (pre : list (list Z)) (k : nat) :
  0 ≤ i → i + Z.of_nat n ≤ Z.of_nat (length (slots_ w)) →
  (k < length (unblockedIn (slots_ w) i (i + Z.of_nat n - 1)))%nat →
  createMatrixLoop computeIONetHPWL hm w n i (length pre) (pre ++ replicate k []) =
  Undefined RowOutOfRange.
Proof.
  revert i pre k. induction n as [| n IH]; intros i pre k Hi Hn Hk.
  - rewrite unblockedIn_nil in Hk by lia. simpl in Hk. lia.
  - cbn [createMatrixLoop].
    destruct (at_is_Some (slots_ w) i) as [s Hs]; [lia |].
    rewrite (proj2 (getSlot_Done _ _ _) Hs), Done_bind.
    rewrite (unblockedIn_cons _ i) in Hk by lia.
    replace (i + Z.of_nat (S n) - 1) with (i + 1 + Z.of_nat n - 1) in Hk by lia.
    unfold isFree in Hk. rewrite Hs in Hk.
    destruct (blocked s); simpl negb in Hk; cbv iota in Hk.
    + rewrite app_nil_l in Hk. by apply IH; [lia | lia |].
    + simpl in Hk. destruct k as [| k].
      * simpl replicate. rewrite app_nil_r, lookup_ge_None_2 by lia. done.
      * simpl replicate.
        rewrite list_lookup_middle by done. simpl orFault. rewrite Done_bind.
        rewrite resize_nil, width.
        pose proof (fillRow_spec computeIONetHPWL w (pos s) (pin_indices_ hm) []
                      (replicate (length (pin_indices_ hm)) INT_MAX) pins_valid) as Hrow.
        simpl in Hrow. rewrite Hrow, Done_bind.
        2:{ rewrite length_replicate. apply length_filter. }
        set (row := ungroupedRow _ _ _ _ ++ _).
        replace (<[length pre := row]> (pre ++ [] :: replicate k []))
          with ((pre ++ [row]) ++ replicate k []).
        2:{ rewrite <- (Nat.add_0_r (length pre)), insert_app_r. simpl.
            by rewrite <- app_assoc. }
        replace (S (length pre)) with (length (pre ++ [row]))
          by (rewrite length_app; simpl; lia).
        apply IH; lia.
Qed.

End CounterTooSmall.

(** X8.  [createMatrix] relies on the counter the section hands over.  When
    [num_slots] is at least the number of unblocked slots of the section, the
    matrix holds the rows of these slots followed by one empty row for each
    slot the counter claims in excess; when it is smaller, the row of the
    first unblocked slot beyond the counter is written past the end of the
    matrix. *)
Theorem createMatrix_counter (computeIONetHPWL : Z → Point → Z)
    (section : SectionRec) (numIOGroups : Z) (w : World) :
  0 ≤ begin_slot section →
  end_slot section < Z.of_nat (length (slots_ w)) →
  Z.of_nat (length (pin_indices section)) ≤ INT_MAX →
  Forall (λ idx, is_Some (at_ (io_pins_ w) idx)) (pin_indices section) →
  0 ≤ num_slots section ≤ INT_MAX →
  let U := unblockedIn (slots_ w) (begin_slot section) (end_slot section) in
  (Z.of_nat (length U) ≤ num_slots section →
   ∃ hm',
     createMatrix computeIONetHPWL (newHungarianMatching section numIOGroups) w
       = Done hm' ∧
     hungarian_matrix_ hm' =
       paddedMatrix computeIONetHPWL w (begin_slot section) (end_slot section)
         (pin_indices section)
       ++ replicate (Z.to_nat (num_slots section) - length U) []) ∧
  (num_slots section < Z.of_nat (length U) →
   createMatrix computeIONetHPWL (newHungarianMatching section numIOGroups) w
     = Undefined RowOutOfRange).
Proof.
  intros Hb He Hpi Hval Hns U. unfold INT_MAX in *.
  set (hm := newHungarianMatching section numIOGroups).
  assert (size_t_of_int (num_io_pins_ hm) = length (pin_indices_ hm)) as Hw.
  { simpl. apply size_t_of_int_nat. lia. }
  assert (size_t_of_int (num_slots section) = Z.to_nat (num_slots section)) as Hrows.
  { unfold size_t_of_int. rewrite Z.mod_small by lia. done. }
  pose proof (length_unblockedIn_le (slots_ w) (begin_slot section) (end_slot section))
    as Hle. fold U in Hle.
  unfold createMatrix.
  change (non_blocked_slots_ hm) with (num_slots section).
  change (hungarian_matrix_ hm) with (@nil (list Z)).
  change (end_slot_ hm) with (end_slot section).
  change (begin_slot_ hm) with (begin_slot section).
  rewrite Hrows, resize_nil.
  destruct (decide (begin_slot section ≤ end_slot section + 1)) as [Hord | Hord].
  2:{ assert (U = []) as HU by (apply unblockedIn_nil; lia).
      replace (Z.to_nat (end_slot section - begin_slot section + 1)) with 0%nat by lia.
      split; [| rewrite HU; simpl; lia].
      intros _. eexists. split; [reflexivity |]. simpl.
      unfold paddedMatrix. fold U. rewrite HU. simpl. by rewrite Nat.sub_0_r. }
  assert (begin_slot section
          + Z.of_nat (Z.to_nat (end_slot section - begin_slot section + 1)) - 1
          = end_slot section) as Hend by lia.
  split; intros Hcount.
  - pose proof (createMatrixLoop_spec computeIONetHPWL w hm Hval Hw
                  (Z.to_nat (end_slot section - begin_slot section + 1))
                  (begin_slot section) [] (Z.to_nat (num_slots section)) Hb) as Hloop.
    rewrite Hend in Hloop. fold U in Hloop.
    rewrite app_nil_l in Hloop. change (length (@nil (list Z))) with 0%nat in Hloop.
    rewrite Hloop by lia. rewrite Done_bind. eexists. split; [reflexivity |].
    by rewrite app_nil_l.
  - pose proof (createMatrixLoop_short computeIONetHPWL w hm Hval Hw
                  (Z.to_nat (end_slot section - begin_slot section + 1))
                  (begin_slot section) [] (Z.to_nat (num_slots section)) Hb) as Hloop.
    rewrite Hend in Hloop. fold U in Hloop.
    rewrite app_nil_l in Hloop. change (length (@nil (list Z))) with 0%nat in Hloop.
    by rewrite Hloop by lia.
Qed.

(** ** From the matrix to the placement *)

(** X9.  The matrix and the materializer agree on what rows and columns
    mean.  On a section that counts its unblocked slots, with distinct pins
    outside any group that are not yet placed, let the solver answer with
    one entry per row and a row for every column of such a pin.  Then
    [findAssignment] followed by [getFinalAssignment] in non-mirror mode
    returns, and the pin of column [k] stands on the unblocked slot of the
    section whose rank is the row matched to [k]; the cell of that row and
    column, which the solver saw, is the cost of the pin at the position it
    was given. *)
Theorem matched_cost_paid (computeIONetHPWL : Z → Point → Z)
    (solve : list (list Z) → list Z) (mirror : Point → Point) (idxOf : BTerm → Z)
    (section : SectionRec) (numIOGroups : Z) (w : World) (mp : gmap BTerm BTerm) :
  let U := unblockedIn (slots_ w) (begin_slot section) (end_slot section) in
  let ung := ungroupedOf (io_pins_ w) (pin_indices section) in
  let a := solve (paddedMatrix computeIONetHPWL w (begin_slot section)
                    (end_slot section) (pin_indices section)) in
  0 ≤ begin_slot section →
  end_slot section < Z.of_nat (length (slots_ w)) →
  end_slot section ≤ INT_MAX →
  Z.of_nat (length (pin_indices section)) ≤ INT_MAX →
  Forall (λ idx, is_Some (at_ (io_pins_ w) idx)) (pin_indices section) →
  num_slots section = Z.of_nat (length U) →
  U ≠ [] →
  NoDup ung →
  (∀ idx p, idx ∈ ung → at_ (io_pins_ w) idx = Some p → isPlaced p = false) →
  length a = length U →
  (∀ c, (c < length ung)%nat → is_Some (matchedRow a c)) →
  ∃ hm' w',
    findAssignment computeIONetHPWL solve (newHungarianMatching section numIOGroups) w
      = Done hm' ∧
    assignment_ hm' = a ∧
    getFinalAssignment mirror idxOf hm' w mp false = Done w' ∧
    ∀ k idx, ung !! k = Some idx →
      ∃ r i p s cells,
        matchedRow a k = Some r ∧ U !! r = Some i ∧
        at_ (io_pins_ w) idx = Some p ∧ at_ (slots_ w) i = Some s ∧
        blocked s = false ∧
        at_ (io_pins_ w') idx = Some (placedPin p s) ∧
        hungarian_matrix_ hm' !! r = Some cells ∧
        cells !! k = Some (computeIONetHPWL idx (pos s)).
Proof.
  intros U ung a Hb He Hei Hpi Hval Hcount HU Hnd Hunpl Hlen Hcols.
  pose proof (createMatrix_spec computeIONetHPWL section numIOGroups w
                Hb He Hei Hpi Hval Hcount) as Hmat. cbv zeta in Hmat.
  set (M := paddedMatrix computeIONetHPWL w (begin_slot section) (end_slot section)
              (pin_indices section)) in *.
  assert (M ≠ []) as HM.
  { unfold M, paddedMatrix. fold U. destruct U; [done | by rewrite fmap_cons]. }
  set (hm1 := mkHM M _ _ _ _ _ _ _ _ _ _ _ _) in Hmat.
  set (hm' := solvedAs hm1 a).
  assert (findAssignment computeIONetHPWL solve
            (newHungarianMatching section numIOGroups) w = Done hm') as Hfind.
  { unfold findAssignment. rewrite Hmat, Done_bind.
    rewrite bool_decide_eq_false_2 by done. done. }
  assert (rowsOf hm' = length U) as Hrows.
  { unfold rowsOf. change (non_blocked_slots_ hm') with (num_slots section).
    rewrite Hcount. apply size_t_of_int_nat.
    pose proof (length_unblockedIn_le (slots_ w) (begin_slot section) (end_slot section)).
    fold U in H. unfold INT_MAX in Hei. lia. }
  assert (∀ r, (r < length U)%nat →
            unblockedFrom (slots_ w) (begin_slot section) !! r = U !! r) as Hpre.
  { intros r Hr. apply unblockedFrom_section; [| done | done].
    destruct (decide (begin_slot section ≤ end_slot section + 1)); [done |].
    unfold U in Hr. rewrite unblockedIn_nil in Hr by lia. simpl in Hr. lia. }
  assert (∀ r i k idx, U !! r = Some i → ung !! k = Some idx →
            ∃ cells, M !! r = Some cells ∧
                     cells !! k = Some (computeIONetHPWL idx (slotPos (slots_ w) i)))
    as Hcell.
  { intros r i k idx Hr Hk. unfold M, paddedMatrix. fold U.
    rewrite list_lookup_fmap, Hr. simpl. eexists. split; [reflexivity |].
    rewrite lookup_app_l.
    - unfold ungroupedRow. fold ung. by rewrite list_lookup_fmap, Hk.
    - unfold ungroupedRow. fold ung. rewrite length_fmap. by eapply lookup_lt_Some. }
  destruct (pinLoop_fresh mirror idxOf hm' mp Hb (pin_indices section) 0 w Hval Hnd Hunpl)
    as (w' & tgt & Hrun & Htgt & Hpins & _).
  { intros c Hc. fold ung in Hc. destruct (Hcols c) as [r Hr]; [lia |].
    pose proof Hr as [Hrc _]%matchedRow_Some.
    assert (r < length U)%nat as HrU by (rewrite <- Hlen; by eapply lookup_lt_Some).
    destruct (lookup_lt_is_Some_2 U r HrU) as [i Hi].
    destruct (lookup_lt_is_Some_2 ung c) as [idx Hidx]; [lia |].
    destruct (Hcell r i c idx Hi Hidx) as (cells & Hc1 & Hc2).
    exists r, i, cells, (computeIONetHPWL idx (slotPos (slots_ w) i)).
    split_and!; try done; [lia |].
    change (begin_slot_ hm') with (begin_slot section). by rewrite Hpre. }
  fold ung in Hrun, Htgt, Hpins.
  exists hm', w'. split_and!; try done.
  { unfold getFinalAssignment. change (pin_indices_ hm') with (pin_indices section).
    by rewrite Hrun. }
  intros k idx Hk.
  assert (k < length ung)%nat as Hklt by (by eapply lookup_lt_Some).
  destruct (Forall2_lookup_l _ _ _ k k Htgt) as (i & Hi & Hm).
  { apply lookup_seq. split; [done | lia]. }
  unfold matchedSlot in Hm. change (assignment_ hm') with a in Hm.
  destruct (matchedRow a k) as [r |] eqn:Hr; [| done]. simpl in Hm.
  pose proof Hr as [Hrc _]%matchedRow_Some.
  assert (r < length U)%nat as HrU by (rewrite <- Hlen; by eapply lookup_lt_Some).
  change (begin_slot_ hm') with (begin_slot section) in Hm. rewrite Hpre in Hm by done.
  destruct (Hpins k idx i Hk Hi) as (p & s & Hp & Hs & Hfin).
  destruct (Hcell r i k idx Hm Hk) as (cells & Hc1 & Hc2).
  exists r, i, p, s, cells. split_and!; try done.
  - assert (i ∈ U) as HiU by (by eapply list_elem_of_lookup_2).
    apply elem_of_unblockedIn in HiU as [_ (s' & Hs' & Hbl)]. congruence.
  - rewrite Hc2. unfold slotPos. by rewrite Hs.
Qed.

(** ** What the non-mirror pass leaves alone *)

Lemma skipBlocked_ge (fuel : nat) (stride : Z) (w : World) (si i : Z) :
  0 ≤ stride → skipBlocked fuel stride w si = Done i → si ≤ i.
Proof.
  intros Hst. revert si. induction fuel as [| fuel IH]; intros si; cbn [skipBlocked];
    intros (s & Hs & H)%bind_Done; destruct (blocked s); try done.
  - injection H as <-. lia.
  - apply IH in H. lia.
  - injection H as <-. lia.
Qed.

Section PlainFootprint.

Variable mirror : Point → Point.
Variable idxOf : BTerm → Z.
Variable hm : HungarianMatching.
Variable mp : gmap BTerm BTerm.

Lemma rowLoop_plain_footprint (idx : Z) (col n row : nat) (si : Z) (w w' : World) :
  rowLoop mirror idxOf hm false mp idx col n row si w = Done w' →
  (∀ j s, at_ (slots_ w) j = Some s → j < si ∨ blocked s = true →
     at_ (slots_ w') j = Some s) ∧
  (∀ j, j ≠ idx → at_ (io_pins_ w') j = at_ (io_pins_ w) j) ∧
  (∀ p, at_ (io_pins_ w) idx = Some p → isPlaced p = true →
     at_ (io_pins_ w') idx = Some p).
Proof.
  revert row si w. induction n as [| n IH]; intros row si w Hrun; cbn [rowLoop] in Hrun.
  - injection Hrun as <-. by split_and!.
  - apply bind_Done in Hrun as (si' & Hskip & Hrun).
    pose proof (skipBlocked_ge _ 1 _ _ _ ltac:(lia) Hskip) as Hge.
    apply skipBlocked_Done in Hskip as (s' & Hs' & Hb').
    apply bind_Done in Hrun as (a & _ & Hrun).
    destruct (negb (a =? Z.of_nat col)).
    { apply IH in Hrun as (H1 & H2 & H4). split_and!; try done.
      intros j s Hs Hj. apply H1; [done |]. destruct Hj; [left; lia | by right]. }
    apply bind_Done in Hrun as (cells & _ & Hrun).
    apply bind_Done in Hrun as (cost & _ & Hrun).
    apply bind_Done in Hrun as (p & Hp & Hrun). apply getIoPin_Done in Hp.
    cbv zeta in Hrun. fold (warned w p cost) in Hrun.
    assert (slots_ (warned w p cost) = slots_ w ∧
            io_pins_ (warned w p cost) = io_pins_ w) as [Hsl Hpi].
    { unfold warned. by destruct (cost =? hungarian_fail). }
    destruct (skipPin false mp p) eqn:Hsk.
    { apply IH in Hrun as (H1 & H2 & H4). rewrite Hsl, Hpi in *.
      split_and!; try done.
      intros j s Hs Hj. apply H1; [done |]. destruct Hj; [left; lia | by right]. }
    rewrite (placePin_None mirror idxOf idx si' (warned w p cost) p s') in Hrun
      by (by rewrite ?Hsl, ?Hpi).
    injection Hrun as <-. simpl. rewrite Hsl, Hpi. split_and!; try done.
    + intros j s Hs Hj. rewrite (at_upd _ si' j _ s' Hs').
      case_decide as Heq; [| done]. subst j. destruct Hj; [lia | congruence].
    + intros j Hj. rewrite (at_upd _ idx j _ p Hp). by rewrite decide_False.
    + intros p0 Hp0 Hpl. unfold skipPin in Hsk. simpl in Hsk. congruence.
Qed.

Lemma pinLoop_plain_footprint (idxs : list Z) (st st' : nat * World) :
  pinLoop mirror idxOf hm false mp idxs st = Done st' →
  (∀ j s, at_ (slots_ st.2) j = Some s → j < begin_slot_ hm ∨ blocked s = true →
     at_ (slots_ st'.2) j = Some s) ∧
  (∀ j, j ∉ ungroupedOf (io_pins_ st.2) idxs →
     at_ (io_pins_ st'.2) j = at_ (io_pins_ st.2) j) ∧
  (∀ j p, at_ (io_pins_ st.2) j = Some p → isPlaced p = true →
     at_ (io_pins_ st'.2) j = Some p).
Proof.
  revert st. induction idxs as [| idx idxs IH]; intros st Hrun; cbn [pinLoop] in Hrun.
  - injection Hrun as <-. by split_and!.
  - apply bind_Done in Hrun as (p & Hp & Hrun). apply getIoPin_Done in Hp.
    destruct (isInGroup p) eqn:Hgrp.
    { apply IH in Hrun as (H1 & H2 & H3). split_and!; try done.
      intros j Hj. apply H2. unfold ungroupedOf in *.
      rewrite filter_cons_False in Hj; [done |]. rewrite Hp, Hgrp. exact id. }
    apply bind_Done in Hrun as (w1 & Hrow & Hrun).
    pose proof (rowLoop_evolves mirror idxOf _ _ _ _ _ _ _ _ _ _ Hrow) as Hev.
    apply rowLoop_plain_footprint in Hrow as (R1 & R2 & R4).
    apply IH in Hrun as (H1 & H2 & H3). cbn [fst snd] in *.
    assert (ungroupedOf (io_pins_ w1) idxs = ungroupedOf (io_pins_ st.2) idxs) as Hung.
    { apply ungroupedOf_same_groups. intros j.
      destruct Hev as (_ & Hlen & Hkept).
      destruct (at_ (io_pins_ st.2) j) as [pj |] eqn:Hpj.
      - destruct (Hkept j pj Hpj) as (pj' & -> & _ & Hg & _). simpl. by rewrite Hg.
      - apply at_None in Hpj. rewrite (proj2 (at_None _ _)); [done |]. lia. }
    split_and!.
    + intros j s Hs Hj. apply H1; [| done]. by apply R1.
    + intros j Hj. unfold ungroupedOf in Hj.
      rewrite filter_cons_True in Hj by (rewrite Hp, Hgrp; exact I).
      apply not_elem_of_cons in Hj as [Hne Hj].
      rewrite H2; [by apply R2 |]. by rewrite Hung.
    + intros j pj Hpj Hpl. apply H3; [| done].
      destruct (decide (j = idx)) as [-> | Hne]; [by apply R4 |].
      by rewrite R2.
Qed.

End PlainFootprint.

(** X10.  In non-mirror mode [getFinalAssignment] never takes a blocked slot
    and never touches a slot before [begin_slot_]; it changes no pin of a
    group and no pin outside the section's pin list; and it leaves a pin
    that is already placed where it is. *)
Theorem plain_pass_footprint (mirror : Point → Point) (idxOf : BTerm → Z)
    (hm : HungarianMatching) (w : World) (mp : gmap BTerm BTerm) (w' : World) :
  getFinalAssignment mirror idxOf hm w mp false = Done w' →
  (∀ j s, at_ (slots_ w) j = Some s → j < begin_slot_ hm ∨ blocked s = true →
     at_ (slots_ w') j = Some s) ∧
  (∀ j, j ∉ ungroupedOf (io_pins_ w) (pin_indices_ hm) →
     at_ (io_pins_ w') j = at_ (io_pins_ w) j) ∧
  (∀ j p, at_ (io_pins_ w) j = Some p → isPlaced p = true →
     at_ (io_pins_ w') j = Some p).
Proof.
  unfold getFinalAssignment. intros (st & Hloop & [= <-])%bind_Done.
  exact (pinLoop_plain_footprint mirror idxOf hm mp _ _ _ Hloop).
Qed.

(** ** The shape of the grouped matrix *)

Lemma groupHpwl_range (computeIONetHPWL : Z → Point → Z) (newPos : Point)
    (pins : list Z) (acc : Z) :
  INT_MIN ≤ acc ≤ INT_MAX →
  INT_MIN ≤ groupHpwl computeIONetHPWL newPos pins acc ≤ INT_MAX.
Proof.
  revert acc. induction pins as [| idx pins IH]; intros acc Hacc; simpl; [done |].
  destruct (computeIONetHPWL idx newPos =? hungarian_fail).
  - unfold hungarian_fail, INT_MIN, INT_MAX. lia.
  - apply IH. apply wrap_int_range.
Qed.

(** X11.  The grouped matrix is rectangular and holds [int]s: it has at most
    as many rows as blocks of [group_size_] slots fit the section, as many as
    [group_slots_] counts; every row has one column per group of the whole
    netlist, and the columns after those of the section's own groups hold
    the sentinel. *)
Theorem createMatrixForGroups_shape (computeIONetHPWL : Z → Point → Z)
    (section : SectionRec) (numIOGroups : Z) (w : World) :
  pin_groups section ≠ [] →
  0 ≤ begin_slot section →
  end_slot section < Z.of_nat (length (slots_ w)) →
  end_slot section ≤ INT_MAX →
  Z.of_nat (length (pin_groups section)) ≤ numIOGroups ≤ INT_MAX →
  ∃ hm',
    createMatrixForGroups computeIONetHPWL
      (newHungarianMatching section numIOGroups) w = Done hm' ∧
    Z.of_nat (length (hungarian_matrix_ hm')) = group_slots_ hm' ∧
    (length (hungarian_matrix_ hm')
       ≤ Z.to_nat ((end_slot section - begin_slot section + 1) / group_size_ hm'))%nat ∧
    Forall (λ row,
              Z.of_nat (length row) = numIOGroups ∧
              Forall (λ cell, INT_MIN ≤ cell ≤ INT_MAX) row ∧
              ∀ c, (length (pin_groups section) ≤ c)%nat → Z.of_nat c < numIOGroups →
                   row !! c = Some INT_MAX)
      (hungarian_matrix_ hm').
Proof.
  intros Hne Hb He Hei Hn.
  pose proof (createMatrixForGroups_spec computeIONetHPWL section numIOGroups w
                Hne Hb He Hei Hn) as Hspec. cbv zeta in Hspec.
  set (gs := maxGroupSize (pin_groups section) (-1)) in *.
  set (blocks := filter _ _) in *.
  eexists. split; [exact Hspec |].
  cbn [hungarian_matrix_ group_slots_ group_size_ withGroupMatrix withGroupSize].
  assert (size_t_of_int numIOGroups = Z.to_nat numIOGroups) as Hwidth.
  { unfold size_t_of_int, INT_MAX in *. rewrite Z.mod_small by lia. done. }
  split_and!.
  - by rewrite length_fmap.
  - rewrite length_fmap.
    assert (length blocks ≤ length (candidateStarts (begin_slot section)
                                      (end_slot section) gs))%nat as Hle
      by apply length_filter.
    unfold candidateStarts in Hle. by rewrite length_fmap, length_seq in Hle.
  - apply Forall_fmap, Forall_forall. intros i _. simpl. unfold groupRow.
    split_and!.
    + rewrite length_app, length_fmap, length_replicate, Hwidth. lia.
    + apply Forall_app. split.
      * apply Forall_fmap, Forall_forall. intros g _. simpl.
        apply groupHpwl_range. unfold INT_MIN, INT_MAX. lia.
      * apply Forall_replicate. unfold INT_MIN, INT_MAX. lia.
    + intros c Hc1 Hc2. rewrite lookup_app_r by (by rewrite length_fmap).
      apply lookup_replicate_2. rewrite length_fmap, Hwidth. lia.
Qed.

(** ** A section with one group, from the matrix to the placement *)

Lemma filter_ext_in {A} (P Q : A → Prop) `{!∀ x, Decision (P x), !∀ x, Decision (Q x)}
    (l : list A) :
  (∀ x, x ∈ l → (P x ↔ Q x)) → filter P l = filter Q l.
Proof.
  induction l as [| x l IH]; intros Hext; [done |].
  rewrite !filter_cons. rewrite IH by (intros y Hy; apply Hext; by right).
  destruct (Hext x ltac:(left)) as [H1 H2].
  destruct (decide (P x)), (decide (Q x)); tauto || done.
Qed.

Lemma candidateStarts_app (begin end_ end' gs : Z) :
  0 < gs → end_ ≤ end' →
  ∃ more, candidateStarts begin end' gs = candidateStarts begin end_ gs ++ more.
Proof.
  intros Hgs Hle. unfold candidateStarts.
  set (n := Z.to_nat ((end_ - begin + 1) / gs)).
  set (n' := Z.to_nat ((end' - begin + 1) / gs)).
  assert (n ≤ n')%nat as Hn.
  { pose proof (Z.div_le_mono (end_ - begin + 1) (end' - begin + 1) gs Hgs ltac:(lia)).
    unfold n, n'. lia. }
  replace n' with (n + (n' - n))%nat by lia.
  rewrite seq_app, fmap_app. eauto.
Qed.

Lemma blockFree_true (slots : list Slot) (n : nat) (i : Z) :
  blockFree slots n i = true ↔
  ∀ j, i ≤ j < i + Z.of_nat n → isFree slots j = true.
Proof.
  revert i. induction n as [| n IH]; intros i.
  - split; [intros _ j Hj; lia | done].
  - rewrite blockFree_S, andb_true_iff, IH. split.
    + intros [H1 H2] j Hj. destruct (decide (j = i)) as [-> | Hne]; [done |].
      apply H2. lia.
    + intros H. split; [apply H; lia |]. intros j Hj. apply H. lia.
Qed.

Lemma freeStartsFrom_section (slots : list Slot) (gs begin end_ : Z) (r : nat) :
  0 < gs → end_ < Z.of_nat (length slots) →
  (∀ i, i ∈ candidateStarts begin end_ gs → isFree slots i = true →
        blockFree slots (Z.to_nat gs) i = true) →
  (r < length (filter (λ i, Is_true (blockFree slots (Z.to_nat gs) i))
                 (candidateStarts begin end_ gs)))%nat →
  freeStartsFrom slots gs begin !! r =
  filter (λ i, Is_true (blockFree slots (Z.to_nat gs) i))
    (candidateStarts begin end_ gs) !! r.
Proof.
  intros Hgs He Halign Hr. unfold freeStartsFrom.
  destruct (candidateStarts_app begin end_ (Z.of_nat (length slots) + gs - 2) gs)
    as [more ->]; [done | lia |].
  rewrite filter_app.
  rewrite (filter_ext_in (λ i, Is_true (isFree slots i))
             (λ i, Is_true (blockFree slots (Z.to_nat gs) i))
             (candidateStarts begin end_ gs)).
  - by apply lookup_app_l.
  - intros i Hi. rewrite !Is_true_true. split; [by apply Halign |].
    rewrite blockFree_true. intros H. apply H. lia.
Qed.

Lemma unblockedIn_ext (slots slots' : list Slot) (begin end_ : Z) :
  (∀ i, begin ≤ i ≤ end_ → isFree slots' i = isFree slots i) →
  unblockedIn slots' begin end_ = unblockedIn slots begin end_.
Proof.
  intros H. unfold unblockedIn. apply filter_ext_in.
  intros i [Hi1 Hi2]%elem_of_seqZ. rewrite H by lia. done.
Qed.

Lemma unblockedIn_full (slots : list Slot) (begin end_ : Z) :
  (∀ i, begin ≤ i ≤ end_ → isFree slots i = true) →
  length (unblockedIn slots begin end_) = Z.to_nat (end_ - begin + 1).
Proof.
  intros H. unfold unblockedIn. rewrite filter_all; [by rewrite length_seqZ |].
  apply Forall_forall. intros i [Hi1 Hi2]%elem_of_seqZ. rewrite H by lia. exact I.
Qed.

Lemma unblockedIn_none (slots : list Slot) (begin end_ : Z) :
  (∀ i, begin ≤ i ≤ end_ → isFree slots i = false) →
  unblockedIn slots begin end_ = [].
Proof.
  intros H. unfold unblockedIn.
  rewrite (filter_ext_in _ (λ _, False)).
  - by induction (seqZ begin (end_ - begin + 1)).
  - intros i [Hi1 Hi2]%elem_of_seqZ. rewrite H by lia. done.
Qed.

(** X12.  A section with a single group, taken through
    [findAssignmentForGroups] and [getAssignmentForGroups].  Let every
    candidate block of the section whose first slot is unblocked be
    unblocked throughout, and let the solver match the group to row [r].
    Then both calls return; the members stand on the block of row [r] of the
    matrix, in the order the edge and the [order] flag ask for, on slots
    that were unblocked; exactly the slots of that block become used and
    blocked; the cell the solver saw for the match is the cost of the group
    at the anchor of that block; and the counter of unblocked slots and the
    number of unblocked slots of the section both drop by the size of the
    group, so that a counter that was exact stays exact. *)
Theorem single_group_placed (computeIONetHPWL : Z → Point → Z)
    (solve : list (list Z) → list Z)
    (section : SectionRec) (numIOGroups : Z) (w : World) (g : PinGroup) (r : nat) :
  let gs := Z.of_nat (length g.1) in
  let blocks :=
    filter (λ i, Is_true (blockFree (slots_ w) (length g.1) i))
      (candidateStarts (begin_slot section) (end_slot section) gs) in
  let a := solve ((λ i, groupRow computeIONetHPWL (slotPos (slots_ w) i) [g]
                          (size_t_of_int numIOGroups)) <$> blocks) in
  let rev := reversed (edge section) g.2 in
  pin_groups section = [g] → g.1 ≠ [] →
  0 ≤ begin_slot section →
  end_slot section < Z.of_nat (length (slots_ w)) →
  end_slot section ≤ INT_MAX →
  1 ≤ numIOGroups ≤ INT_MAX →
  NoDup g.1 →
  Forall (λ idx, is_Some (at_ (io_pins_ w) idx)) g.1 →
  (∀ i, i ∈ candidateStarts (begin_slot section) (end_slot section) gs →
        isFree (slots_ w) i = true → blockFree (slots_ w) (length g.1) i = true) →
  matchedRow a 0 = Some r → (r < length blocks)%nat →
  ∃ hm1 hm2 w' s,
    findAssignmentForGroups computeIONetHPWL solve
      (newHungarianMatching section numIOGroups) w = Done hm1 ∧
    assignment_ hm1 = a ∧
    getAssignmentForGroups hm1 w = Done (hm2, w') ∧
    blocks !! r = Some s ∧ begin_slot section ≤ s ∧ s + gs - 1 ≤ end_slot section ∧
    (∃ cells, hungarian_matrix_ hm1 !! r = Some cells ∧
              cells !! 0%nat = Some (groupHpwl computeIONetHPWL (slotPos (slots_ w) s)
                                       g.1 0)) ∧
    (∀ k idx, g.1 !! k = Some idx →
       ∃ p sl, at_ (io_pins_ w) idx = Some p ∧
               at_ (slots_ w) (s + memberOffset rev (length g.1) k) = Some sl ∧
               blocked sl = false ∧
               at_ (io_pins_ w') idx = Some (groupPin p sl)) ∧
    (∀ j sl, at_ (slots_ w) j = Some sl →
       at_ (slots_ w') j =
         Some (if decide (s ≤ j < s + gs) then setBlocked (setUsed sl) else sl)) ∧
    non_blocked_slots_ hm2 = num_slots section - gs ∧
    Z.of_nat (length (unblockedIn (slots_ w') (begin_slot section) (end_slot section)))
      = Z.of_nat (length (unblockedIn (slots_ w) (begin_slot section) (end_slot section)))
        - gs.
Proof.
  intros gs blocks a rev Hg Hgne Hb He Hei Hn Hnd Hval Halign Hr Hrlt.
  assert (0 < gs) as Hgs by (unfold gs; destruct g.1; [done | simpl; lia]).
  assert (maxGroupSize (pin_groups section) (-1) = gs) as Hmax.
  { rewrite Hg. unfold maxGroupSize. simpl. fold gs. lia. }
  assert (Z.to_nat gs = length g.1) as Hgsn by (unfold gs; lia).
  pose proof (createMatrixForGroups_spec computeIONetHPWL section numIOGroups w) as Hspec.
  rewrite Hg in Hspec at 1. specialize (Hspec ltac:(done) Hb He Hei).
  rewrite Hg in Hspec at 1. specialize (Hspec ltac:(simpl; lia)).
  cbv zeta in Hspec. rewrite Hmax, Hgsn in Hspec. fold blocks in Hspec.
  rewrite Hg in Hspec.
  set (M := (λ i, groupRow computeIONetHPWL (slotPos (slots_ w) i) [g]
                    (size_t_of_int numIOGroups)) <$> blocks) in *.
  set (hm0 := newHungarianMatching section numIOGroups) in *.
  set (hm1 := solvedAs (withGroupMatrix (withGroupSize hm0 gs)
                          (Z.of_nat (length blocks)) M) a).
  destruct (lookup_lt_is_Some_2 blocks r Hrlt) as [s Hs].
  assert (M ≠ []) as HM.
  { unfold M. destruct blocks; [done | by rewrite fmap_cons]. }
  assert (findAssignmentForGroups computeIONetHPWL solve hm0 w = Done hm1) as Hfind.
  { unfold findAssignmentForGroups. rewrite Hspec, Done_bind.
    cbn [hungarian_matrix_ withGroupMatrix]. by rewrite bool_decide_eq_false_2. }
  (* the block of row [r] *)
  assert (s ∈ blocks) as Hsin by (by eapply list_elem_of_lookup_2).
  apply list_elem_of_filter in Hsin as [Hfree Hcand]. apply Is_true_true in Hfree.
  pose proof Hcand as (k0 & Hk0 & Hfit)%elem_of_candidateStarts; [| done].
  assert (begin_slot section ≤ s) as Hsb by nia.
  pose proof (proj1 (blockFree_true _ _ _) Hfree) as Hallfree.
  (* the scan *)
  assert (freeStartsFrom (slots_ w) gs (begin_slot section) !! r = Some s) as Hscan.
  { rewrite (freeStartsFrom_section _ gs _ (end_slot section)); try done.
    - by rewrite Hgsn.
    - by rewrite Hgsn.
    - by rewrite Hgsn. }
  pose proof Hr as [Hmatch Hbefore]%matchedRow_Some.
  set (c0 := if rev then Z.of_nat (length g.1) - 1 else 0).
  assert (∀ k, cntAfter rev c0 k = memberOffset rev (length g.1) k) as Hoff.
  { intros k. unfold cntAfter, memberOffset, c0. destruct rev; lia. }
  destruct (placeGroup_gen hm1 rev g.1 s c0 (num_slots section) w Hnd Hval)
    as (nb' & w' & Hrun & _ & _ & Hmem & Hblk & Hoth & _ & Hnb).
  { intros k Hk. rewrite Hoff. unfold memberOffset. fold gs. destruct rev; lia. }
  assert (size_t_of_int (Z.of_nat (length blocks)) = length blocks) as Hrows.
  { apply size_t_of_int_nat.
    pose proof (length_filter (λ i, Is_true (blockFree (slots_ w) (length g.1) i))
                  (candidateStarts (begin_slot section) (end_slot section) gs)) as H1.
    pose proof (length_candidateStarts_le (begin_slot section) (end_slot section) gs Hgs).
    fold blocks in H1. unfold INT_MAX in Hei. lia. }
  assert (groupRowLoop hm1 g 0 (length blocks) 0 (begin_slot section)
            (num_slots section, w) = Done (nb', w')) as Hrow.
  { rewrite (groupRowLoop_place hm1 g 0 _ 0 (begin_slot section) _ w r s); try done.
    - lia.
    - intros r' a' [_ Hr']. by apply Hbefore.
    - by rewrite Nat.sub_0_r. }
  assert (∀ j sl, s ≤ j < s + gs → at_ (slots_ w) j = Some sl →
            at_ (slots_ w') j = Some (setBlocked (setUsed sl))) as Hin.
  { intros j sl Hj Hsl.
    assert (∃ k, (k < length g.1)%nat ∧ j = s + cntAfter rev c0 k) as (k & Hk & Hjk).
    { exists (if rev then Z.to_nat (s + Z.of_nat (length g.1) - 1 - j)
              else Z.to_nat (j - s)).
      rewrite Hoff. unfold memberOffset. fold gs. unfold gs in Hj. destruct rev; lia. }
    rewrite Hjk in Hsl |- *. by apply Hblk. }
  assert (∀ j, ¬ (s ≤ j < s + gs) → at_ (slots_ w') j = at_ (slots_ w) j) as Hout.
  { intros j Hj. apply Hoth. intros k Hk. rewrite Hoff.
    unfold memberOffset. unfold gs in Hj. destruct rev; lia. }
  eexists hm1, _, w', s. split_and!; try done.
  - unfold getAssignmentForGroups.
    rewrite bool_decide_eq_false_2 by done.
    change (pin_groups_ hm1) with (pin_groups section). rewrite Hg.
    cbn [groupLoop]. change (group_slots_ hm1) with (Z.of_nat (length blocks)).
    rewrite Hrows. change (begin_slot_ hm1) with (begin_slot section).
    change (non_blocked_slots_ hm1) with (num_slots section).
    rewrite Hrow, !Done_bind. reflexivity.
  - exists (groupRow computeIONetHPWL (slotPos (slots_ w) s) [g]
              (size_t_of_int numIOGroups)).
    split; [unfold hm1; simpl; unfold M; by rewrite list_lookup_fmap, Hs |].
    done.
  - intros k idx Hk. destruct (Hmem k idx Hk) as (p & sl & Hp & Hsl & Hfin).
    exists p, sl. rewrite <- Hoff. split_and!; try done.
    assert (isFree (slots_ w) (s + cntAfter rev c0 k) = true) as Hf.
    { apply Hallfree. apply lookup_lt_Some in Hk. rewrite Hoff.
      unfold memberOffset. destruct rev; lia. }
    unfold isFree in Hf. rewrite Hsl in Hf. by apply negb_true_iff in Hf.
  - intros j sl Hsl. case_decide as Hj; [by apply Hin | by rewrite Hout].
  - cbn [non_blocked_slots_ fst snd]. rewrite Hnb.
    assert (filter (λ k, s + cntAfter rev c0 k ≤ end_slot_ hm1) (seq 0 (length g.1))
            = seq 0 (length g.1)) as ->; [| by rewrite length_seq].
    apply filter_all. apply Forall_seq. intros k Hk. rewrite Hoff.
    change (end_slot_ hm1) with (end_slot section).
    unfold memberOffset. unfold gs in Hfit. destruct rev; lia.
  - rewrite (unblockedIn_app (slots_ w') _ (s - 1)) by lia.
    rewrite (unblockedIn_app (slots_ w) _ (s - 1)) by lia.
    replace (s - 1 + 1) with s by lia.
    rewrite (unblockedIn_app (slots_ w') s (s + gs - 1)) by lia.
    rewrite (unblockedIn_app (slots_ w) s (s + gs - 1)) by lia.
    rewrite !length_app.
    rewrite (unblockedIn_ext (slots_ w) (slots_ w') (begin_slot section) (s - 1)).
    2:{ intros i Hi. unfold isFree. rewrite Hout by lia. done. }
    rewrite (unblockedIn_ext (slots_ w) (slots_ w') (s + gs - 1 + 1)).
    2:{ intros i Hi. unfold isFree. rewrite Hout by lia. done. }
    rewrite (unblockedIn_none (slots_ w') s).
    2:{ intros i Hi. pose proof (Hallfree i ltac:(lia)) as Hf. unfold isFree in *.
        destruct (at_ (slots_ w) i) as [sl |] eqn:Hsl; [| done].
        by rewrite (Hin i sl ltac:(lia) Hsl). }
    rewrite (unblockedIn_full (slots_ w) s).
    2:{ intros i Hi. apply Hallfree. lia. }
    simpl. lia.
Qed.

(** ** When the ungrouped materializer is defined *)

Section Definedness.

Variable mirror : Point → Point.
Variable idxOf : BTerm → Z.
Variable hm : HungarianMatching.
Variable am : bool.
Variable mp : gmap BTerm BTerm.

Hypothesis hm_solved : solved hm.

Lemma placePin_never_undefined (partner : option BTerm) (idx i : Z) (w : World)
    (f : Fault) :
  is_Some (at_ (io_pins_ w) idx) → is_Some (at_ (slots_ w) i) →
  (∀ m, partner = Some m → is_Some (at_ (io_pins_ w) (idxOf m))) →
  placePin mirror idxOf partner idx i w ≠ Undefined f.
Proof.
  intros [p Hp] [s Hs] Hpartner. destruct partner as [m |].
  - destruct (Hpartner m eq_refl) as [pb0 Hpb0].
    assert (is_Some (at_ (io_pins_ (afterPlace w idx i p s)) (idxOf m))) as [pb Hpb].
    { apply at_is_Some. simpl. rewrite length_upd. by apply at_lt in Hpb0. }
    rewrite (placePin_Some mirror idxOf m idx i w p pb s Hp Hs Hpb). cbv zeta.
    set (w2 := afterMirror _ _ _).
    destruct (getSlotIdxByPosition_spec w2 (mirror (pos s)) (layer s))
      as [[Hj _] | (sj & Hj & Hsj & _)].
    + by rewrite Hj.
    + destruct (Z.ltb_spec (getSlotIdxByPosition w2 (mirror (pos s)) (layer s)) 0);
        [lia |].
      by rewrite (proj2 (getSlot_Done _ _ _) Hsj), Done_bind.
  - by rewrite (placePin_None mirror idxOf idx i w p s Hp Hs).
Qed.

Lemma rowLoop_never_undefined (idx : Z) (col n row : nat) (si : Z) (w : World)
    (f : Fault) :
  0 ≤ si → (n ≤ length (unblockedFrom (slots_ w) si))%nat →
  (row + n ≤ rowsOf hm)%nat →
  is_Some (at_ (io_pins_ w) idx) →
  (∀ b m, mp !! b = Some m → is_Some (at_ (io_pins_ w) (idxOf m))) →
  rowLoop mirror idxOf hm am mp idx col n row si w ≠ Undefined f.
Proof.
  destruct hm_solved as [Hlen Hcells].
  revert row si w. induction n as [| n IH]; intros row si w Hsi Hn Hrow [p Hp] Hpartner;
    [done |].
  cbn [rowLoop]. rewrite skipBlocked_one by lia.
  destruct (unblockedFrom (slots_ w) si) as [| i0 rest] eqn:Hu; [simpl in Hn; lia |].
  apply unblockedFrom_head in Hu as (Hle & Hfree & Hu0 & Hrest).
  rewrite Done_bind.
  destruct (lookup_lt_is_Some_2 (assignment_ hm) row) as [a Ha]; [lia |].
  rewrite Ha. simpl orFault. rewrite Done_bind.
  destruct (a =? Z.of_nat col) eqn:Hcol; simpl negb; cbv iota.
  2:{ apply IH; [lia | | lia | by eexists | done]. rewrite Hrest. simpl in Hn. lia. }
  apply Z.eqb_eq in Hcol. subst a.
  destruct (Hcells row col ltac:(lia) Ha) as (cells & cost & Hc1 & Hc2).
  rewrite Hc1. simpl orFault. rewrite Done_bind.
  rewrite Hc2. simpl orFault. rewrite Done_bind.
  rewrite (proj2 (getIoPin_Done _ _ _) Hp), Done_bind.
  fold (warned w p cost).
  destruct (sameCore_warned w p cost) as (Hsl & Hpi & Has).
  destruct (skipPin am mp p).
  - apply IH; [lia | | lia | rewrite Hpi; by eexists | by rewrite Hpi].
    rewrite Hsl, Hu0. simpl in *. lia.
  - apply placePin_never_undefined.
    + rewrite Hpi. by eexists.
    + rewrite Hsl. unfold isFree in Hfree.
      destruct (at_ (slots_ w) i0) as [s |]; [by eexists | done].
    + intros m Hm. rewrite Hpi. destruct am; [by eapply Hpartner | done].
Qed.

Lemma pinLoop_never_undefined (idxs : list Z) (col : nat) (w : World) (f : Fault) :
  scanReady hm (slots_ w) →
  Forall (λ idx, is_Some (at_ (io_pins_ w) idx)) idxs →
  (∀ b m, mp !! b = Some m → is_Some (at_ (io_pins_ w) (idxOf m))) →
  pinLoop mirror idxOf hm am mp idxs (col, w) ≠ Undefined f.
Proof.
  revert col w. induction idxs as [| idx idxs IH]; intros col w Hscan Hval Hpartner;
    [done |].
  apply Forall_cons in Hval as [[p Hp] Hval].
  cbn [pinLoop]. simpl fst. simpl snd.
  rewrite (proj2 (getIoPin_Done _ _ _) Hp), Done_bind.
  destruct (isInGroup p); [by apply IH |].
  destruct (rowLoop mirror idxOf hm am mp idx col (size_t_of_int (non_blocked_slots_ hm))
              0 (begin_slot_ hm) w) as [wa | wr | f'] eqn:Hrow; [| done |].
  - rewrite Done_bind.
    pose proof (rowLoop_evolves mirror idxOf _ _ _ _ _ _ _ _ _ _ Hrow) as Hev.
    assert (∀ j, is_Some (at_ (io_pins_ w) j) → is_Some (at_ (io_pins_ wa) j)) as Hkeep.
    { intros j [pj Hpj]. destruct Hev as (_ & _ & Hkept).
      destruct (Hkept j pj Hpj) as (pj' & Hpj' & _). by eexists. }
    apply IH.
    + by eapply scanReady_evolves.
    + eapply Forall_impl; [exact Hval |]. intros j. apply Hkeep.
    + intros b m Hm. apply Hkeep. by eapply Hpartner.
  - destruct Hscan as [Hb Hrows].
    by apply rowLoop_never_undefined in Hrow.
Qed.

End Definedness.

(** X13.  [getFinalAssignment] stays within the defined behaviour of the
    language, in either mode, when the slot vector holds an unblocked slot
    for every row from [begin_slot_] on, the solver's answer has an entry
    for every row and every entry that names a column addresses a cell of
    its row, the pins of the section exist, and so do the mirror partners:
    it then returns or ends in the fatal error, and in non-mirror mode it
    returns. *)
Theorem getFinalAssignment_defined (mirror : Point → Point) (idxOf : BTerm → Z)
    (hm : HungarianMatching) (w : World) (mp : gmap BTerm BTerm) (am : bool) :
  scanReady hm (slots_ w) → solved hm →
  Forall (λ idx, is_Some (at_ (io_pins_ w) idx)) (pin_indices_ hm) →
  (∀ b m, mp !! b = Some m → is_Some (at_ (io_pins_ w) (idxOf m))) →
  (∃ w', getFinalAssignment mirror idxOf hm w mp am = Done w' ∨
         getFinalAssignment mirror idxOf hm w mp am = Raise w') ∧
  (am = false → ∃ w', getFinalAssignment mirror idxOf hm w mp am = Done w').
Proof.
  intros Hscan Hsolved Hval Hpartner.
  assert (∃ w', getFinalAssignment mirror idxOf hm w mp am = Done w' ∨
                getFinalAssignment mirror idxOf hm w mp am = Raise w') as Hdef.
  { unfold getFinalAssignment.
    destruct (pinLoop mirror idxOf hm am mp (pin_indices_ hm) (0%nat, w))
      as [st | wr | f] eqn:Hloop.
    - exists st.2. by left.
    - exists wr. by right.
    - by apply pinLoop_never_undefined in Hloop. }
  split; [done |]. intros ->. destruct Hdef as [w' [Hd | Hr]]; [by exists w' |].
  unfold getFinalAssignment in Hr.
  destruct (pinLoop mirror idxOf hm false mp (pin_indices_ hm) (0%nat, w))
    as [st | wr | f] eqn:Hloop; [done | by apply pinLoop_plain_no_Raise in Hloop | done].
Qed.

(** ** The output vector of the non-mirror pass *)

Section PlainOutput.

Variable mirror : Point → Point.
Variable idxOf : BTerm → Z.
Variable hm : HungarianMatching.
Variable mp : gmap BTerm BTerm.

Lemma rowLoop_plain_effect (idx : Z) (col n row : nat) (si : Z) (w w' : World) :
  rowLoop mirror idxOf hm false mp idx col n row si w = Done w' →
  (io_pins_ w' = io_pins_ w ∧ assignment w' = assignment w) ∨
  (∃ p s, at_ (io_pins_ w) idx = Some p ∧ isPlaced p = false ∧
          io_pins_ w' = upd (io_pins_ w) idx (placedPin p s) ∧
          assignment w' = assignment w ++ [placedPin p s]).
Proof.
  intros Hrun.
  destruct (rowLoop_cases mirror idxOf hm false mp idx col n row si w)
    as [(w'' & Hrun' & Hsame & _) | [(f & Hrun') |
        (i & w1 & p & s & r & cells & cost & Hsame & Hp & Hskip & Hs & _ & _ & _ & _ & _
           & Hrun')]];
    rewrite Hrun in Hrun'; try done.
  - injection Hrun' as <-. left. by destruct Hsame as (_ & ? & ?).
  - pose proof (sameCore_trans _ _ _ Hsame (sameCore_warned w1 p cost))
      as (Hsl & Hpi & Has).
    rewrite (placePin_None mirror idxOf idx i _ p s) in Hrun'
      by (by rewrite ?Hsl, ?Hpi).
    injection Hrun' as ->. right. exists p, s. simpl. rewrite Hpi, Has.
    unfold skipPin in Hskip. simpl in Hskip. by split_and!.
Qed.

Lemma pinLoop_plain_output (idxs : list Z) (st st' : nat * World) :
  pinLoop mirror idxOf hm false mp idxs st = Done st' →
  ∃ l, assignment st'.2 = assignment st.2 ++ l ∧
       ∀ q, q ∈ l ↔
            ∃ idx p, at_ (io_pins_ st.2) idx = Some p ∧ isPlaced p = false ∧
                     at_ (io_pins_ st'.2) idx = Some q ∧ isPlaced q = true.
Proof.
  revert st. induction idxs as [| idx idxs IH]; intros st Hrun; cbn [pinLoop] in Hrun.
  - injection Hrun as <-. exists []. split; [by rewrite app_nil_r |].
    intros q. split; [by intros ?%elem_of_nil |].
    intros (j & p & Hp & Hu & Hq & Hpl). congruence.
  - apply bind_Done in Hrun as (p0 & Hp0 & Hrun). apply getIoPin_Done in Hp0.
    destruct (isInGroup p0); [by apply IH |].
    apply bind_Done in Hrun as (w1 & Hrow & Hrun).
    pose proof (pinLoop_plain_footprint mirror idxOf hm mp _ _ _ Hrun) as (_ & _ & Hstay).
    apply IH in Hrun as (l & Hl & Hiff). cbn [fst snd] in *.
    apply rowLoop_plain_effect in Hrow
      as [[Hpi Has] | (p & s & Hp & Hu & Hpi & Has)].
    + exists l. rewrite Hl, Has. split; [done |]. intros q. rewrite Hiff, Hpi. done.
    + assert (at_ (io_pins_ st'.2) idx = Some (placedPin p s)) as Hfin.
      { apply Hstay; [| done]. rewrite Hpi. by eapply at_upd_eq. }
      exists (placedPin p s :: l). rewrite Hl, Has, <- app_assoc. split; [done |].
      intros q. rewrite elem_of_cons, Hiff. split.
      * intros [-> | (j & pj & Hpj & Huj & Hq & Hpl)].
        { by exists idx, p. }
        exists j, pj. split_and!; try done.
        rewrite Hpi, (at_upd _ idx j _ p Hp) in Hpj. case_decide; [| done].
        injection Hpj as <-. done.
      * intros (j & pj & Hpj & Huj & Hq & Hpl).
        destruct (decide (j = idx)) as [-> | Hne].
        { left. congruence. }
        right. exists j, pj. split_and!; try done.
        rewrite Hpi, (at_upd _ idx j _ p Hp). by rewrite decide_False.
Qed.

End PlainOutput.

(** X14.  In non-mirror mode the pins that [getFinalAssignment] appends to
    the output vector are exactly the pins it has placed, each as it stands
    in the pin table at the end of the call. *)
Theorem plain_pass_output (mirror : Point → Point) (idxOf : BTerm → Z)
    (hm : HungarianMatching) (w : World) (mp : gmap BTerm BTerm) (w' : World) :
  getFinalAssignment mirror idxOf hm w mp false = Done w' →
  ∃ l, assignment w' = assignment w ++ l ∧
       ∀ q, q ∈ l ↔
            ∃ idx p, at_ (io_pins_ w) idx = Some p ∧ isPlaced p = false ∧
                     at_ (io_pins_ w') idx = Some q ∧ isPlaced q = true.
Proof.
  unfold getFinalAssignment. intros (st & Hloop & [= <-])%bind_Done.
  exact (pinLoop_plain_output mirror idxOf hm mp _ _ _ Hloop).
Qed.

(** ** What the matrix builders read *)

Lemma at_fmap {A B} (f : A → B) (v : list A) (i : Z) : at_ (f <$> v) i = f <$> at_ v i.
Proof. unfold at_. case_decide; [apply list_lookup_fmap | done]. Qed.

Lemma at_same_view {A B} (f : A → B) (v v' : list A) (i : Z) :
  f <$> v' = f <$> v →
  match at_ v' i, at_ v i with
  | Some x', Some x => f x' = f x
  | None, None => True
  | _, _ => False
  end.
Proof.
  intros H. pose proof (at_fmap f v' i) as H1. pose proof (at_fmap f v i) as H2.
  rewrite H in H1. rewrite H1 in H2.
  destruct (at_ v' i), (at_ v i); simpl in H2; try done. by injection H2.
Qed.

Section SameView.

Variable computeIONetHPWL : Z → Point → Z.
Variable hm : HungarianMatching.
Variables w w' : World.

Hypothesis same_slots :
  (λ s, (blocked s, pos s)) <$> slots_ w' = (λ s, (blocked s, pos s)) <$> slots_ w.

Lemma getSlot_same_view (i : Z) :
  match getSlot w' i, getSlot w i with
  | Done s', Done s => blocked s' = blocked s ∧ pos s' = pos s
  | Undefined f', Undefined f => f' = f
  | _, _ => False
  end.
Proof.
  pose proof (at_same_view _ _ _ i same_slots) as H. unfold getSlot.
  destruct (at_ (slots_ w') i), (at_ (slots_ w) i); simpl; try done.
  by injection H.
Qed.

Lemma blockIsBlocked_same_view (n : nat) (i : Z) (acc : bool) :
  blockIsBlocked w' n i acc = blockIsBlocked w n i acc.
Proof.
  revert i acc. induction n as [| n IH]; intros i acc; [done |].
  cbn [blockIsBlocked]. pose proof (getSlot_same_view i) as H.
  destruct (getSlot w' i) as [s' | |], (getSlot w i) as [s | |]; try done.
  - destruct H as [Hb _]. rewrite !Done_bind, Hb. apply IH.
  - by subst.
Qed.

Lemma countBlocks_same_view (fuel : nat) (i acc : Z) :
  countBlocks hm w' fuel i acc = countBlocks hm w fuel i acc.
Proof.
  revert i acc. induction fuel as [| fuel IH]; intros i acc; [done |].
  cbn [countBlocks]. destruct (i <=? end_slot_ hm - group_size_ hm + 1); [| done].
  rewrite blockIsBlocked_same_view.
  destruct (blockIsBlocked w (Z.to_nat (group_size_ hm)) i false) as [b | |]; try done.
  rewrite !Done_bind. apply IH.
Qed.

Lemma fillBlocks_same_view (fuel : nat) (i : Z) (k : nat) (m : list (list Z)) :
  fillBlocks computeIONetHPWL hm w' fuel i k m =
  fillBlocks computeIONetHPWL hm w fuel i k m.
Proof.
  revert i k m. induction fuel as [| fuel IH]; intros i k m; [done |].
  cbn [fillBlocks]. destruct (i <=? end_slot_ hm - group_size_ hm + 1); [| done].
  pose proof (getSlot_same_view i) as H.
  destruct (getSlot w' i) as [s' | |], (getSlot w i) as [s | |]; try done; [| by subst].
  destruct H as [_ Hpos]. rewrite !Done_bind. cbv zeta.
  rewrite blockIsBlocked_same_view, Hpos.
  destruct (blockIsBlocked w (Z.to_nat (group_size_ hm)) i false) as [b | |]; try done.
  rewrite !Done_bind. destruct b; [apply IH |].
  destruct (orFault RowOutOfRange (m !! k)) as [old | |]; try done.
  rewrite !Done_bind.
  destruct (fillGroupRow computeIONetHPWL (pos s) (pin_groups_ hm) 0
              (resize (size_t_of_int (num_pin_groups_ hm)) INT_MAX old)) as [row | |];
    try done.
  rewrite !Done_bind. apply IH.
Qed.

Hypothesis same_groups : isInGroup <$> io_pins_ w' = isInGroup <$> io_pins_ w.

Lemma fillRow_same_view (newPos : Point) (idxs : list Z) (k : nat) (row : list Z) :
  fillRow computeIONetHPWL w' newPos idxs k row =
  fillRow computeIONetHPWL w newPos idxs k row.
Proof.
  revert k row. induction idxs as [| idx idxs IH]; intros k row; [done |].
  cbn [fillRow]. pose proof (at_same_view _ _ _ idx same_groups) as H.
  unfold getIoPin.
  destruct (at_ (io_pins_ w') idx) as [p' |], (at_ (io_pins_ w) idx) as [p |];
    simpl orFault; try done.
  rewrite !Done_bind, H. destruct (isInGroup p); [apply IH |].
  destruct (orFault CellOutOfRange (row !! k)) as [c | |]; try done.
  rewrite !Done_bind. apply IH.
Qed.

Lemma createMatrixLoop_same_view (n : nat) (i : Z) (k : nat) (m : list (list Z)) :
  createMatrixLoop computeIONetHPWL hm w' n i k m =
  createMatrixLoop computeIONetHPWL hm w n i k m.
Proof.
  revert i k m. induction n as [| n IH]; intros i k m; [done |].
  cbn [createMatrixLoop]. pose proof (getSlot_same_view i) as H.
  destruct (getSlot w' i) as [s' | |], (getSlot w i) as [s | |]; try done; [| by subst].
  destruct H as [Hb Hpos]. rewrite !Done_bind. cbv zeta. rewrite Hb, Hpos.
  destruct (blocked s); [apply IH |].
  destruct (orFault RowOutOfRange (m !! k)) as [old | |]; try done.
  rewrite !Done_bind, fillRow_same_view.
  destruct (fillRow computeIONetHPWL w (pos s) (pin_indices_ hm) 0
              (resize (size_t_of_int (num_io_pins_ hm)) INT_MAX old)) as [row | |];
    try done.
  rewrite !Done_bind. apply IH.
Qed.

End SameView.

(** X15.  What [createMatrix] computes depends on the storage only through
    the [blocked] flags and the positions of the slots and the group flags
    of the pins: a slot that is already [used] still gets its row, and a pin
    that is already placed still gets its column. *)
Theorem createMatrix_reads (computeIONetHPWL : Z → Point → Z)
    (hm : HungarianMatching) (w w' : World) :
  (λ s, (blocked s, pos s)) <$> slots_ w' = (λ s, (blocked s, pos s)) <$> slots_ w →
  isInGroup <$> io_pins_ w' = isInGroup <$> io_pins_ w →
  createMatrix computeIONetHPWL hm w' = createMatrix computeIONetHPWL hm w.
Proof.
  intros Hs Hg. unfold createMatrix.
  by rewrite (createMatrixLoop_same_view computeIONetHPWL hm w w' Hs Hg).
Qed.

(** X16.  What [createMatrixForGroups] computes depends on the storage only
    through the [blocked] flags and the positions of the slots; it reads no
    pin. *)
Theorem createMatrixForGroups_reads (computeIONetHPWL : Z → Point → Z)
    (hm : HungarianMatching) (w w' : World) :
  (λ s, (blocked s, pos s)) <$> slots_ w' = (λ s, (blocked s, pos s)) <$> slots_ w →
  createMatrixForGroups computeIONetHPWL hm w' =
  createMatrixForGroups computeIONetHPWL hm w.
Proof.
  intros Hs. unfold createMatrixForGroups. cbv zeta.
  destruct (0 <? group_size_ _); [| done].
  rewrite (countBlocks_same_view _ w w' Hs).
  destruct (countBlocks _ w _ _ _) as [gsl | |]; try done.
  rewrite !Done_bind. cbv zeta.
  by rewrite (fillBlocks_same_view computeIONetHPWL _ w w' Hs).
Qed.

(** ** What the grouped materializer leaves alone *)

Section GroupedFootprint.

Variable hm : HungarianMatching.

Hypothesis gs_nonneg : 0 ≤ group_size_ hm.

Lemma placeGroup_footprint (rev : bool) (pins : list Z) (s c : Z) (st st' : Z * World) :
  placeGroup hm rev pins s c st = Done st' →
  (∀ j, j ∉ pins → at_ (io_pins_ st'.2) j = at_ (io_pins_ st.2) j) ∧
  (∀ j, (∀ k, (k < length pins)%nat → j ≠ s + cntAfter rev c k) →
     at_ (slots_ st'.2) j = at_ (slots_ st.2) j).
Proof.
  revert c st. induction pins as [| idx pins IH]; intros c st Hrun;
    cbn [placeGroup] in Hrun.
  - injection Hrun as <-. done.
  - cbv zeta in Hrun.
    apply bind_Done in Hrun as (p & Hp & Hrun). apply getIoPin_Done in Hp.
    apply bind_Done in Hrun as (sl & Hs & Hrun). apply getSlot_Done in Hs.
    apply IH in Hrun as [H1 H2]. cbn [fst snd setSlot push_back setIoPin slots_ io_pins_]
      in H1, H2.
    split.
    + intros j [Hne Hj]%not_elem_of_cons. rewrite H1 by done.
      rewrite (at_upd _ idx j _ p Hp). by rewrite decide_False.
    + intros j Hj. rewrite H2.
      * rewrite (at_upd _ (s + c) j _ sl Hs). rewrite decide_False; [done |].
        intros <-. apply (Hj 0%nat); [simpl; lia |]. unfold cntAfter. destruct rev; lia.
      * intros k Hk Heq. apply (Hj (S k)); [simpl; lia |]. rewrite Heq.
        unfold cntAfter. destruct rev; lia.
Qed.

Lemma groupRowLoop_footprint (g : PinGroup) (col n row : nat) (si : Z)
    (st st' : Z * World) :
  groupRowLoop hm g col n row si st = Done st' →
  (∀ j, j ∉ g.1 → at_ (io_pins_ st'.2) j = at_ (io_pins_ st.2) j) ∧
  (∀ j, j < si → at_ (slots_ st'.2) j = at_ (slots_ st.2) j).
Proof.
  revert row si. induction n as [| n IH]; intros row si Hrun; cbn [groupRowLoop] in Hrun.
  - by injection Hrun as <-.
  - apply bind_Done in Hrun as (si' & Hskip & Hrun).
    apply skipBlocked_ge in Hskip; [| done].
    apply bind_Done in Hrun as (a & _ & Hrun).
    destruct (negb (a =? Z.of_nat col)).
    { apply IH in Hrun as [H1 H2]. split; [done |]. intros j Hj. apply H2. lia. }
    apply placeGroup_footprint in Hrun as [H1 H2]. split; [done |].
    intros j Hj. apply H2. intros k Hk. unfold cntAfter.
    destruct (reversed (edge_ hm) g.2); lia.
Qed.

Lemma groupLoop_footprint (groups : list PinGroup) (col : nat) (st : Z * World)
    (r : nat * (Z * World)) :
  groupLoop hm groups col st = Done r →
  (∀ j, j ∉ mjoin (fst <$> groups) → at_ (io_pins_ r.2.2) j = at_ (io_pins_ st.2) j) ∧
  (∀ j, j < begin_slot_ hm → at_ (slots_ r.2.2) j = at_ (slots_ st.2) j).
Proof.
  revert col st. induction groups as [| g groups IH]; intros col st Hrun;
    cbn [groupLoop] in Hrun.
  - by injection Hrun as <-.
  - apply bind_Done in Hrun as (st1 & Hrow & Hrun).
    apply groupRowLoop_footprint in Hrow as [R1 R2].
    apply IH in Hrun as [H1 H2]. split.
    + intros j Hj.
      change (mjoin (fst <$> g :: groups)) with (g.1 ++ mjoin (fst <$> groups)) in Hj.
      apply not_elem_of_app in Hj as [Hj1 Hj2]. rewrite H1 by done. by apply R1.
    + intros j Hj. rewrite H2 by done. by apply R2.
Qed.

End GroupedFootprint.

(** X17.  [getAssignmentForGroups] changes no pin outside the groups of the
    section and, the block size not being negative, touches no slot before
    [begin_slot_]. *)
Theorem getAssignmentForGroups_footprint (hm hm' : HungarianMatching) (w w' : World) :
  0 ≤ group_size_ hm →
  getAssignmentForGroups hm w = Done (hm', w') →
  (∀ j, j ∉ mjoin (fst <$> pin_groups_ hm) → at_ (io_pins_ w') j = at_ (io_pins_ w) j) ∧
  (∀ j, j < begin_slot_ hm → at_ (slots_ w') j = at_ (slots_ w) j).
Proof.
  intros Hgs Hrun. unfold getAssignmentForGroups in Hrun. case_bool_decide.
  - by injection Hrun as <- <-.
  - apply bind_Done in Hrun as (r & Hloop & [= <- <-]).
    exact (groupLoop_footprint hm Hgs _ _ _ _ Hloop).
Qed.

(** ** A section without an unblocked slot *)

Lemma pinLoop_no_rows (mirror : Point → Point) (idxOf : BTerm → Z)
    (hm : HungarianMatching) (am : bool) (mp : gmap BTerm BTerm) (idxs : list Z)
    (col : nat) (w : World) :
  rowsOf hm = 0%nat →
  Forall (λ idx, is_Some (at_ (io_pins_ w) idx)) idxs →
  ∃ col', pinLoop mirror idxOf hm am mp idxs (col, w) = Done (col', w).
Proof.
  intros Hrows. revert col. induction idxs as [| idx idxs IH]; intros col Hval.
  - by eexists.
  - apply Forall_cons in Hval as [[p Hp] Hval]. cbn [pinLoop]. simpl fst. simpl snd.
    rewrite (proj2 (getIoPin_Done _ _ _) Hp), Done_bind.
    destruct (isInGroup p); [by apply IH |].
    unfold rowsOf in Hrows. rewrite Hrows. cbn [rowLoop]. rewrite Done_bind.
    by apply IH.
Qed.

(** X18.  A section whose slots are all blocked, and whose counter says so,
    is passed over: [findAssignment] builds an empty matrix and does not
    call the solver, and [getFinalAssignment], in either mode, returns with
    the storage exactly as it was. *)
Theorem blocked_section_skipped (computeIONetHPWL : Z → Point → Z)
    (solve : list (list Z) → list Z) (mirror : Point → Point) (idxOf : BTerm → Z)
    (section : SectionRec) (numIOGroups : Z) (w : World) (mp : gmap BTerm BTerm)
    (am : bool) :
  0 ≤ begin_slot section →
  end_slot section < Z.of_nat (length (slots_ w)) →
  end_slot section ≤ INT_MAX →
  Z.of_nat (length (pin_indices section)) ≤ INT_MAX →
  Forall (λ idx, is_Some (at_ (io_pins_ w) idx)) (pin_indices section) →
  unblockedIn (slots_ w) (begin_slot section) (end_slot section) = [] →
  num_slots section = 0 →
  ∃ hm',
    findAssignment computeIONetHPWL solve (newHungarianMatching section numIOGroups) w
      = Done hm' ∧
    hungarian_matrix_ hm' = [] ∧ assignment_ hm' = [] ∧
    getFinalAssignment mirror idxOf hm' w mp am = Done w.
Proof.
  intros Hb He Hei Hpi Hval HU Hcount.
  pose proof (createMatrix_spec computeIONetHPWL section numIOGroups w
                Hb He Hei Hpi Hval) as Hmat.
  rewrite HU in Hmat. specialize (Hmat Hcount). cbv zeta in Hmat.
  unfold paddedMatrix in Hmat. rewrite HU in Hmat. simpl fmap in Hmat.
  eexists. split_and!.
  - unfold findAssignment. rewrite Hmat, Done_bind. reflexivity.
  - done.
  - done.
  - unfold getFinalAssignment.
    destruct (pinLoop_no_rows mirror idxOf
                (mkHM [] [] (pin_indices section) (pin_groups section)
                   (Z.of_nat (length (pin_indices section))) numIOGroups
                   (begin_slot section) (end_slot section)
                   (end_slot section - begin_slot section) (num_slots section) 0 (-1)
                   (edge section))
                am mp (pin_indices section) 0 w) as [col' Hloop]; [| done |].
    + unfold rowsOf. simpl. by rewrite Hcount.
    + simpl in Hloop |- *. by rewrite Hloop.
Qed.

(** * The further properties at concrete sections *)

Lemma groupHpwl_order_witness :
  groupHpwl Ex.busCost (mkPoint 0 0) [2; 3] 0 = groupHpwl Ex.busCost (mkPoint 0 0) [3; 2] 0.
Proof. apply groupHpwl_order. apply perm_swap. Defined.

Lemma getAssignmentForGroups_again_witness :
  ∃ hm' w',
    getAssignmentForGroups Ex.busSolved Ex.busWorld = Done (hm', w') ∧
    getAssignmentForGroups hm' w' = Done (hm', w').
Proof.
  eexists _, _. split; [vm_compute; reflexivity |].
  apply (getAssignmentForGroups_again Ex.busSolved _ Ex.busWorld).
  vm_compute. reflexivity.
Defined.

Lemma createMatrixForGroups_no_pins_witness :
  ∃ hm',
    createMatrixForGroups Ex.flatCost (newHungarianMatching Ex.mixedSection 0) Ex.mixedWorld
      = Done hm' ∧
    hungarian_matrix_ hm' = [] ∧ group_slots_ hm' = 0 ∧ group_size_ hm' ≤ 0 ∧
    ∀ w0, getAssignmentForGroups hm' w0 = Done (hm', w0).
Proof.
  apply (createMatrixForGroups_no_pins Ex.flatCost Ex.mixedSection 0 Ex.mixedWorld).
  simpl. constructor.
Defined.

Lemma getFinalAssignment_keeps_witness :
  within usedSet pinPlaced Ex.pairWorld Ex.pairAfter ∧
  length (slots_ Ex.pairAfter) = length (slots_ Ex.pairWorld) ∧
  length (io_pins_ Ex.pairAfter) = length (io_pins_ Ex.pairWorld).
Proof.
  apply (getFinalAssignment_keeps Ex.mirror Ex.idxOf (Ex.pairMatcher 5) Ex.pairWorld ∅
           false Ex.pairAfter).
  left. vm_compute. reflexivity.
Defined.

Lemma getAssignmentForGroups_keeps_witness :
  ∃ hm' w',
    getAssignmentForGroups Ex.busSolved Ex.busWorld = Done (hm', w') ∧
    within blockTaken pinMoved Ex.busWorld w' ∧ logger_ w' = logger_ Ex.busWorld.
Proof.
  eexists _, _. split; [vm_compute; reflexivity |].
  refine (let H := getAssignmentForGroups_keeps Ex.busSolved _ Ex.busWorld _ _ in
          conj (proj1 H) (proj1 (proj2 H))).
  vm_compute. reflexivity.
Defined.

Lemma createMatrix_counter_witness :
  (∃ hm',
     createMatrix Ex.flatCost (newHungarianMatching Ex.mixedSection 0) Ex.mixedWorld
       = Done hm' ∧
     hungarian_matrix_ hm' =
       paddedMatrix Ex.flatCost Ex.mixedWorld 0 0 [0; 1]
       ++ replicate (Z.to_nat 1 - length (unblockedIn (slots_ Ex.mixedWorld) 0 0)) []) ∧
  createMatrix Ex.flatCost (newHungarianMatching Ex.starvedSection 0) Ex.mixedWorld
    = Undefined RowOutOfRange.
Proof.
  split.
  - apply (createMatrix_counter Ex.flatCost Ex.mixedSection 0 Ex.mixedWorld).
    + simpl. lia.
    + simpl. lia.
    + vm_compute. discriminate.
    + repeat constructor; eexists; reflexivity.
    + vm_compute. split; discriminate.
    + vm_compute. discriminate.
  - apply (createMatrix_counter Ex.flatCost Ex.starvedSection 0 Ex.mixedWorld).
    + simpl. lia.
    + simpl. lia.
    + vm_compute. discriminate.
    + repeat constructor; eexists; reflexivity.
    + vm_compute. split; discriminate.
    + vm_compute. reflexivity.
Defined.

Lemma matched_cost_paid_witness :
  ∃ hm' w',
    findAssignment Ex.flatCost Ex.trioSolve (newHungarianMatching Ex.trioSection 0)
      Ex.trioWorld = Done hm' ∧
    getFinalAssignment Ex.mirror Ex.idxOf hm' Ex.trioWorld ∅ false = Done w'.
Proof.
  destruct (matched_cost_paid Ex.flatCost Ex.trioSolve Ex.mirror Ex.idxOf Ex.trioSection 0
              Ex.trioWorld ∅) as (hm' & w' & H1 & _ & H3 & _).
  - simpl. lia.
  - simpl. lia.
  - vm_compute. discriminate.
  - vm_compute. discriminate.
  - repeat constructor; eexists; reflexivity.
  - reflexivity.
  - vm_compute. discriminate.
  - vm_compute. repeat constructor; set_solver.
  - intros idx p _ [_ Hp]%at_Some. apply list_elem_of_lookup_2 in Hp.
    revert p Hp. apply Forall_forall. by repeat constructor.
  - reflexivity.
  - intros [| [| c]] Hc; [by eexists | by eexists |]. vm_compute in Hc. lia.
  - by exists hm', w'.
Defined.

Lemma plain_pass_footprint_witness :
  (∀ j s, at_ (slots_ Ex.pairWorld) j = Some s →
     j < begin_slot_ (Ex.pairMatcher 5) ∨ blocked s = true →
     at_ (slots_ Ex.pairAfter) j = Some s) ∧
  (∀ j, j ∉ ungroupedOf (io_pins_ Ex.pairWorld) (pin_indices_ (Ex.pairMatcher 5)) →
     at_ (io_pins_ Ex.pairAfter) j = at_ (io_pins_ Ex.pairWorld) j) ∧
  (∀ j p, at_ (io_pins_ Ex.pairWorld) j = Some p → isPlaced p = true →
     at_ (io_pins_ Ex.pairAfter) j = Some p).
Proof.
  apply (plain_pass_footprint Ex.mirror Ex.idxOf (Ex.pairMatcher 5) Ex.pairWorld ∅
           Ex.pairAfter).
  vm_compute. reflexivity.
Defined.

Lemma createMatrixForGroups_shape_witness :
  ∃ hm',
    createMatrixForGroups Ex.busCost (newHungarianMatching Ex.busSection 2) Ex.busWorld
      = Done hm' ∧
    Z.of_nat (length (hungarian_matrix_ hm')) = group_slots_ hm'.
Proof.
  destruct (createMatrixForGroups_shape Ex.busCost Ex.busSection 2 Ex.busWorld)
    as (hm' & H1 & H2 & _).
  - discriminate.
  - simpl. lia.
  - simpl. lia.
  - vm_compute. discriminate.
  - vm_compute. split; discriminate.
  - by exists hm'.
Defined.

Lemma single_group_placed_witness :
  ∃ hm1 hm2 w',
    findAssignmentForGroups Ex.busCost Ex.soloSolve
      (newHungarianMatching Ex.soloSection 1) Ex.busWorld = Done hm1 ∧
    getAssignmentForGroups hm1 Ex.busWorld = Done (hm2, w') ∧
    non_blocked_slots_ hm2 = 4 - 2.
Proof.
  destruct (single_group_placed Ex.busCost Ex.soloSolve Ex.soloSection 1 Ex.busWorld
              ([0; 1], false) 1)
    as (hm1 & hm2 & w' & s & H1 & _ & H3 & _ & _ & _ & _ & _ & _ & H10 & _).
  - reflexivity.
  - discriminate.
  - simpl. lia.
  - simpl. lia.
  - vm_compute. discriminate.
  - vm_compute. split; discriminate.
  - vm_compute. repeat constructor; set_solver.
  - repeat constructor; eexists; reflexivity.
  - intros i Hi _.
    apply elem_of_candidateStarts in Hi as (k & Hi & Hk); [| simpl; lia].
    simpl in Hi, Hk. assert (i = 0 ∨ i = 2) as [-> | ->] by lia; reflexivity.
  - vm_compute. reflexivity.
  - vm_compute. lia.
  - by exists hm1, hm2, w'.
Defined.

Lemma getFinalAssignment_defined_witness :
  ∃ w',
    getFinalAssignment Ex.mirror Ex.idxOf (Ex.pairMatcher 5) Ex.pairWorld Ex.pairMirrors true
      = Done w' ∨
    getFinalAssignment Ex.mirror Ex.idxOf (Ex.pairMatcher 5) Ex.pairWorld Ex.pairMirrors true
      = Raise w'.
Proof.
  apply (getFinalAssignment_defined Ex.mirror Ex.idxOf (Ex.pairMatcher 5) Ex.pairWorld
           Ex.pairMirrors true).
  - split; [simpl; lia | vm_compute; lia].
  - split; [vm_compute; lia |].
    intros [| r] c Hr Hc; [| vm_compute in Hr; lia].
    injection Hc as Hc. assert (c = 0%nat) as -> by lia. by eexists _, _.
  - repeat constructor; eexists; reflexivity.
  - intros b m Hm. unfold Ex.pairMirrors in Hm.
    apply lookup_singleton_Some in Hm as [_ <-]. by eexists.
Defined.

Lemma plain_pass_output_witness :
  ∃ l, assignment Ex.pairAfter = assignment Ex.pairWorld ++ l ∧
       ∀ q, q ∈ l ↔
            ∃ idx p, at_ (io_pins_ Ex.pairWorld) idx = Some p ∧ isPlaced p = false ∧
                     at_ (io_pins_ Ex.pairAfter) idx = Some q ∧ isPlaced q = true.
Proof.
  apply (plain_pass_output Ex.mirror Ex.idxOf (Ex.pairMatcher 5) Ex.pairWorld ∅
           Ex.pairAfter).
  vm_compute. reflexivity.
Defined.

Lemma createMatrix_reads_witness :
  createMatrix Ex.flatCost (Ex.pairMatcher 5) Ex.pairAfter =
  createMatrix Ex.flatCost (Ex.pairMatcher 5) Ex.pairWorld.
Proof. apply createMatrix_reads; reflexivity. Defined.

Lemma createMatrixForGroups_reads_witness :
  createMatrixForGroups Ex.flatCost (newHungarianMatching Ex.duoSection 1) Ex.pairAfter =
  createMatrixForGroups Ex.flatCost (newHungarianMatching Ex.duoSection 1) Ex.pairWorld.
Proof. apply createMatrixForGroups_reads; reflexivity. Defined.

Lemma getAssignmentForGroups_footprint_witness :
  ∃ hm' w',
    getAssignmentForGroups Ex.busSolved Ex.busWorld = Done (hm', w') ∧
    (∀ j, j ∉ mjoin (fst <$> pin_groups_ Ex.busSolved) →
       at_ (io_pins_ w') j = at_ (io_pins_ Ex.busWorld) j) ∧
    (∀ j, j < begin_slot_ Ex.busSolved → at_ (slots_ w') j = at_ (slots_ Ex.busWorld) j).
Proof.
  eexists _, _. split; [vm_compute; reflexivity |].
  eapply (getAssignmentForGroups_footprint Ex.busSolved _ Ex.busWorld).
  - simpl. lia.
  - vm_compute. reflexivity.
Defined.

Lemma blocked_section_skipped_witness :
  ∃ hm',
    findAssignment Ex.flatCost Ex.trioSolve (newHungarianMatching Ex.blockedSection 0)
      Ex.blockedWorld = Done hm' ∧
    hungarian_matrix_ hm' = [] ∧ assignment_ hm' = [] ∧
    getFinalAssignment Ex.mirror Ex.idxOf hm' Ex.blockedWorld ∅ true = Done Ex.blockedWorld.
Proof.
  apply (blocked_section_skipped Ex.flatCost Ex.trioSolve Ex.mirror Ex.idxOf
           Ex.blockedSection 0 Ex.blockedWorld ∅ true).
  - simpl. lia.
  - simpl. lia.
  - vm_compute. discriminate.
  - vm_compute. discriminate.
  - repeat constructor; eexists; reflexivity.
  - reflexivity.
  - reflexivity.
Defined.

(** * The mirror pass and the warning, on whole runs *)

Section WholeRuns.

Variable mirror : Point → Point.
Variable idxOf : BTerm → Z.

(** ** The warning of line 123 *)






(** ** Pins that the rest of a pass leaves alone *)









End WholeRuns.

(** ** The mirror pass at concrete sections *)





